(** * Flake locking core of nix (fork mkenigs/nix): a shallow embedding

    Sources embedded here:
    - [src/libfetchers/fetchers.cc]: [Input::substituteTree], [Input::fetchTree],
      and the registry of input schemes ([registerInputScheme],
      [inputFromURL], [inputFromAttrs], [Input::toAttrs]);
    - [src/libexpr/flake/flake.cc]: [setOverride], [printOverrides],
      [FlakeInput::setOverrides], [lookupInFlakeCache], [fetchOrSubstituteTree],
      [parseFlakeInput(s)], [getFlake], [lockFlake] with its [computeLocks]
      closure, and [prim_getFlake];
    - [src/libstore/db.cc]: the keys of the state tables
      ([makeStatePathRevision], [splitStatePathRevision]) and the lookup of
      [queryStateReferences].

    C++ exceptions, assertion aborts and mutable references are made explicit:
    a computation is a function from the mutable state to an outcome and the
    state it leaves behind (the state survives a throw, which is what a
    [Finally] block observes).  Everything the files only call (the store,
    the evaluator, the input schemes, [flakeref.cc], [lockfile.cc],
    Berkeley DB) is taken from a record or from the variables of a section. *)

From Stdlib Require Import String Ascii List Bool Arith ZArith Lia.
Import ListNotations.
Local Open Scope string_scope.
Local Open Scope list_scope.

Set Implicit Arguments.
Set Warnings "-register-all".


(* ===================================================================== *)
(** ** Outcomes of fallible code *)

(** One constructor per [throw Error(...)] family of the two files, named
    after the error kinds of the specification. *)
Inductive Error : Type :=
| MalformedManifest
| MalformedLock
| UnknownRegistryEntry
| RegistryLookupDisallowed
| FetchFailure
| HashMismatch
| SymlinkEscape
| MissingFlakeFile
| CircularImport
| MutableInPureMode
| LockChangesDisallowed
| LockWriteImpossible
| LockWriteDidNotTakeEffect
| DanglingFollows
| EvalError
| StoreError
| ExperimentalFeatureDisabled.

(** [Throw] is a C++ exception, [AssertFail] a failed [assert] (the process
    aborts; no [catch] sees it), [OutOfFuel] the recursion bound of the model
    being reached (it is not a behaviour of the program). *)
Inductive Outcome (A : Type) : Type :=
| Ok (a : A)
| Throw (e : Error)
| AssertFail
| OutOfFuel.

Arguments Ok {A} a.
Arguments Throw {A} e.
Arguments AssertFail {A}.
Arguments OutOfFuel {A}.

(* ===================================================================== *)
(** ** [std::map<std::string, V>] as an association list in key order *)

Module StdMap.
Section Ops.
Variable V : Type.

Definition t := list (string * V).

(** [get(m, k)] / [m.find(k)]. *)
Fixpoint get (k : string) (m : t) : option V :=
  match m with
  | [] => None
  | (k', v) :: m' => if String.eqb k k' then Some v else get k m'
  end.

Definition count (k : string) (m : t) : bool :=
  match get k m with Some _ => true | None => false end.

(** A new entry put at the place the key order gives it. *)
Fixpoint insertSorted (k : string) (v : V) (m : t) : t :=
  match m with
  | [] => [(k, v)]
  | (k', v') :: m' =>
      if String.ltb k k' then (k, v) :: m
      else (k', v') :: insertSorted k v m'
  end.

(** The value at key [k] replaced by [f] of it ([&(it->second)] followed by
    writes through the pointer). *)
Fixpoint adjust (f : V -> V) (k : string) (m : t) : t :=
  match m with
  | [] => []
  | (k', v) :: m' =>
      if String.eqb k k' then (k', f v) :: m' else (k', v) :: adjust f k m'
  end.

(** [m.emplace(k, v)]: the map is left alone when the key is already
    there. *)
Definition emplace (k : string) (v : V) (m : t) : t :=
  if count k m then m else insertSorted k v m.

(** [m.insert_or_assign(k, v)]. *)
Definition insert_or_assign (k : string) (v : V) (m : t) : t :=
  if count k m then adjust (fun _ => v) k m else insertSorted k v m.

(** [m.erase(k)]. *)
Fixpoint erase (k : string) (m : t) : t :=
  match m with
  | [] => []
  | (k', v') :: m' =>
      if String.eqb k k' then m' else (k', v') :: erase k m'
  end.

(** [m.extract(k)]: the node handle (empty when the key is absent) and the
    map without it. *)
Definition extract (k : string) (m : t) : option V * t :=
  (get k m, erase k m).
End Ops.

Arguments get {V} k m.
Arguments count {V} k m.
Arguments insertSorted {V} k v m.
Arguments adjust {V} f k m.
Arguments emplace {V} k v m.
Arguments insert_or_assign {V} k v m.
Arguments erase {V} k m.
Arguments extract {V} k m.
End StdMap.

(* ===================================================================== *)
(** ** Data model shared by the fetchers and the flake code *)

Definition Path := string.
Definition StorePath := string.
Definition Hash := string.
Definition FlakeId := string.
Definition InputPath := list FlakeId.

(** [fetchers::Attrs]; only string-valued attributes are built by the code
    embedded here. *)
Definition Attrs := StdMap.t string.

(** [fetchers::Input]: the scheme-specific attributes and the optional
    expected NAR hash, which [inputFromAttrs] keeps apart from them. *)
Record Input : Type := mkInput {
  inAttrs : Attrs;
  narHash : option Hash
}.

Record TreeInfo : Type := mkTreeInfo {
  infoNarHash : option Hash;
  revCount : option nat;
  lastModified : option nat
}.

Record Tree : Type := mkTree {
  actualPath : Path;
  storePath : StorePath;
  info : TreeInfo
}.

Definition option_eqb {A} (eqb : A -> A -> bool) (x y : option A) : bool :=
  match x, y with
  | Some a, Some b => eqb a b
  | None, None => true
  | _, _ => false
  end.

Fixpoint list_eqb {A} (eqb : A -> A -> bool) (x y : list A) : bool :=
  match x, y with
  | [], [] => true
  | a :: x', b :: y' => eqb a b && list_eqb eqb x' y'
  | _, _ => false
  end.

Definition pair_eqb {A B} (ea : A -> A -> bool) (eb : B -> B -> bool)
    (x y : A * B) : bool :=
  ea (fst x) (fst y) && eb (snd x) (snd y).

Definition Attrs_eqb : Attrs -> Attrs -> bool :=
  list_eqb (pair_eqb String.eqb String.eqb).

Definition Input_eqb (a b : Input) : bool :=
  Attrs_eqb (inAttrs a) (inAttrs b)
  && option_eqb String.eqb (narHash a) (narHash b).

(* ===================================================================== *)
(** ** [fetchers.cc] *)

Module Fetchers.

(** What [fetchers.cc] consumes from the store and from the scheme of the
    input at hand. *)
Record Store : Type := mkStore {
  makeFixedOutputPath : bool -> Hash -> string -> StorePath;
  ensurePath : StorePath -> Outcome unit;
  toRealPath : StorePath -> Path;
  (** [store->queryPathInfo(p)->narHash] *)
  queryPathInfo_narHash : StorePath -> Outcome Hash;
  (** the virtual [Input::fetchTreeInternal] of the scheme *)
  fetchTreeInternal : Input -> Outcome (Tree * Input)
}.

(** The part of [EvalState] the fetchers touch: [state.allowedPaths], an
    optional set of paths. *)
Record EvalState : Type := mkEvalState {
  allowedPaths : option (list Path)
}.

Definition allow (p : Path) (st : EvalState) : EvalState :=
  match allowedPaths st with
  | Some ps => mkEvalState (Some (p :: ps))
  | None => st
  end.

(** [Tree Input::substituteTree(EvalState & state) const] *)
Definition substituteTree (store : Store) (self : Input) (st : EvalState)
  : Outcome Tree * EvalState :=
  match narHash self with
  | None => (AssertFail, st)                         (* assert(narHash) *)
  | Some h =>
      let sp := makeFixedOutputPath store true h "source" in
      match ensurePath store sp with
      | Ok _ =>
          let ap := toRealPath store sp in
          (Ok (mkTree ap sp (mkTreeInfo (Some h) None None)), allow ap st)
      | Throw e => (Throw e, st)
      | AssertFail => (AssertFail, st)
      | OutOfFuel => (OutOfFuel, st)
      end
  end.

(** The rest of [Input::fetchTree] once substitution was not possible. *)
Definition fetchTree_backend (store : Store) (self : Input) (st : EvalState)
  : Outcome (Tree * option Input) * EvalState :=
  match fetchTreeInternal store self with
  | Ok (tree, input) =>
      let tree1 :=
        if String.eqb (actualPath tree) ""
        then mkTree (toRealPath store (storePath tree)) (storePath tree) (info tree)
        else tree in
      let st1 := allow (actualPath tree1) st in
      let filled :=
        match infoNarHash (info tree1) with
        | Some _ => Ok tree1
        | None =>
            match queryPathInfo_narHash store (storePath tree1) with
            | Ok h =>
                Ok (mkTree (actualPath tree1) (storePath tree1)
                      (mkTreeInfo (Some h) (revCount (info tree1))
                         (lastModified (info tree1))))
            | Throw e => Throw e
            | AssertFail => AssertFail
            | OutOfFuel => OutOfFuel
            end
        end in
      match filled with
      | Ok tree2 =>
          let assert_ok :=
            match narHash input with
            | Some _ =>
                option_eqb String.eqb (narHash input) (infoNarHash (info tree2))
            | None => true
            end in
          if negb assert_ok then (AssertFail, st1)
          else
            match narHash self with
            | Some _ =>
                if negb (option_eqb String.eqb (narHash self) (narHash input))
                then (Throw HashMismatch, st1)
                else (Ok (tree2, Some input), st1)
            | None => (Ok (tree2, Some input), st1)
            end
      | Throw e => (Throw e, st1)
      | AssertFail => (AssertFail, st1)
      | OutOfFuel => (OutOfFuel, st1)
      end
  | Throw e => (Throw e, st)
  | AssertFail => (AssertFail, st)
  | OutOfFuel => (OutOfFuel, st)
  end.

(** [std::pair<Tree, std::optional<std::shared_ptr<const Input>>>
     Input::fetchTree(EvalState & state) const].  The [catch (Error &)]
    around the substitution swallows exceptions only. *)
Definition fetchTree (store : Store) (self : Input) (st : EvalState)
  : Outcome (Tree * option Input) * EvalState :=
  match narHash self with
  | Some _ =>
      match substituteTree store self st with
      | (Ok tree, st1) => (Ok (tree, None), st1)
      | (Throw _, st1) => fetchTree_backend store self st1
      | (AssertFail, st1) => (AssertFail, st1)
      | (OutOfFuel, st1) => (OutOfFuel, st1)
      end
  | None => fetchTree_backend store self st
  end.

End Fetchers.

(* ===================================================================== *)
(** ** [flake.cc]: data *)

Module Flake.

(** [FlakeRef]: an [Input] and the sub-directory holding [flake.nix].  Its
    [operator==] compares all attributes. *)
Record FlakeRef : Type := mkFlakeRef {
  input : Input;
  subdir : string
}.

Definition FlakeRef_eqb (a b : FlakeRef) : bool :=
  Input_eqb (input a) (input b) && String.eqb (subdir a) (subdir b).

(** [FlakeRef::fromAttrs({{"type", "indirect"}, {"id", name}})]: the default
    reference of an input declared by name only. *)
Definition indirectRef (name : string) : FlakeRef :=
  mkFlakeRef (mkInput [("id", name); ("type", "indirect")] None) "".

(** [struct FlakeInput]; [FlakeInputs] is [std::map<FlakeId, FlakeInput>]. *)
Inductive FlakeInput : Type := mkFlakeInput {
  ref : option FlakeRef;
  isFlake : bool;
  follows : option InputPath;
  absolute : bool;
  overrides : list (FlakeId * FlakeInput)
}.

Definition FlakeInputs := list (FlakeId * FlakeInput).

(** [FlakeInput()] with the member initialisers of the struct. *)
Definition FlakeInput0 : FlakeInput := mkFlakeInput None true None false [].

Definition set_ref (r : option FlakeRef) (i : FlakeInput) : FlakeInput :=
  mkFlakeInput r (isFlake i) (follows i) (absolute i) (overrides i).

Definition set_overrides (o : FlakeInputs) (i : FlakeInput) : FlakeInput :=
  mkFlakeInput (ref i) (isFlake i) (follows i) (absolute i) o.

(** Lock graph: an edge of a node is a locked node or a [follows] path
    ([std::variant<std::shared_ptr<LockedNode>, InputPath>]).  A plain [Node]
    (the root) is just its map of edges. *)
Inductive Edge : Type :=
| ELocked (lockedRef originalRef : FlakeRef) (isFlake : bool)
          (inputs : list (FlakeId * Edge))
| EFollows (target : InputPath).

Definition NodeInputs := list (FlakeId * Edge).

Record LockedNode : Type := mkLockedNode {
  lockedRef : FlakeRef;
  originalRef : FlakeRef;
  lnIsFlake : bool;
  lnInputs : NodeInputs
}.

(** [std::get_if<0>(&edge)] *)
Definition asLocked (e : Edge) : option LockedNode :=
  match e with
  | ELocked l o f i => Some (mkLockedNode l o f i)
  | EFollows _ => None
  end.

(** [struct LockFile]: the root node. *)
Record LockFile : Type := mkLockFile {
  root : NodeInputs
}.

(** Structural equality of lock graphs. *)
Fixpoint Edge_eqb (a b : Edge) {struct a} : bool :=
  match a, b with
  | ELocked l1 o1 f1 i1, ELocked l2 o2 f2 i2 =>
      FlakeRef_eqb l1 l2 && FlakeRef_eqb o1 o2 && Bool.eqb f1 f2
      && (fix go (x y : list (FlakeId * Edge)) {struct x} : bool :=
            match x, y with
            | [], [] => true
            | (k1, e1) :: x', (k2, e2) :: y' =>
                String.eqb k1 k2 && Edge_eqb e1 e2 && go x' y'
            | _, _ => false
            end) i1 i2
  | EFollows p1, EFollows p2 => list_eqb String.eqb p1 p2
  | _, _ => false
  end.

Definition NodeInputs_eqb : NodeInputs -> NodeInputs -> bool :=
  list_eqb (pair_eqb String.eqb Edge_eqb).

(** Modelled from the spec: [LockFile::operator==] ([lockfile.cc] is not
    under src/): "Equality is structural." *)
Definition LockFile_eqb (a b : LockFile) : bool :=
  NodeInputs_eqb (root a) (root b).

(* --------------------------------------------------------------------- *)
(** *** Overrides *)

(** [void setOverride(FlakeInputs & overrides, const InputPath & path,
    const FlakeRef & ref)].  The source dereferences [path.begin()] at once,
    so an empty path is outside its domain; the model leaves the map alone
    there. *)
Fixpoint setOverride (overrides : FlakeInputs) (path : InputPath)
    (r : FlakeRef) {struct path} : FlakeInputs :=
  match path with
  | [] => overrides
  | id :: rest =>
      let m := StdMap.emplace id FlakeInput0 overrides in
      match rest with
      | [] => StdMap.adjust (set_ref (Some r)) id m
      | _ :: _ =>
          StdMap.adjust
            (fun cur =>
               set_overrides (setOverride (Flake.overrides cur) rest r) cur)
            id m
      end
  end.

(** The loop of [FlakeInput::setOverrides], over the new overrides in key
    order, with [merge] standing for what is done to an existing entry. *)
Definition mergeLoop (merge : FlakeInput -> FlakeInput -> FlakeInput)
  : FlakeInputs -> FlakeInputs -> FlakeInputs :=
  fix go (newOverrides acc : FlakeInputs) {struct newOverrides} :=
    match newOverrides with
    | [] => acc
    | (id, child) :: rest =>
        go rest
           match StdMap.get id acc with
           | Some existing =>
               StdMap.insert_or_assign id (merge child existing) acc
           | None => StdMap.emplace id child acc
           end
    end.

(** An existing override entry merged with a new one for the same id: the
    ref is replaced when the new one has a ref, the children are merged
    recursively. *)
Fixpoint mergeExisting (child existing : FlakeInput) {struct child}
  : FlakeInput :=
  match child with
  | mkFlakeInput cref _ _ _ covs =>
      let existing1 :=
        match cref with
        | Some r => set_ref (Some r) existing
        | None => existing
        end in
      set_overrides
        (mergeLoop mergeExisting covs (Flake.overrides existing1)) existing1
  end.

(** [void FlakeInput::setOverrides(FlakeInputs && newOverrides)] *)
Definition setOverrides (self : FlakeInput) (newOverrides : FlakeInputs)
  : FlakeInput :=
  set_overrides
    (mergeLoop mergeExisting newOverrides (Flake.overrides self)) self.

(* --------------------------------------------------------------------- *)
(** *** The world around [flake.cc] *)

(** The fragment of evaluator values [getFlake] inspects.  [VThunk] is a
    thunk that is not trivial, with the value forcing it gives ([None] when
    forcing throws); [VOther] is any other forced value. *)
Inductive Value : Type :=
| VString (s : string)
| VBool (b : bool)
| VAttrs (attrs : list (string * Value))
| VLambda (matchAttrs : bool) (formals : list string)
| VThunk (forced : option Value)
| VOther.

Inductive ValueType : Type := tString | tBool | tAttrs | tLambda.

Inductive Warning : Type :=
| WDeprecatedEdition (lockedRef : FlakeRef)
| WUnusedOverrides (unused : string)
| WUnusedUpdateInput (path : string)
| WMutableInput (topRef : FlakeRef)
| WUpdatingLockFile (path : Path) (diff : string)
| WCreatingLockFile (path : Path)
| WCommittedRevision (rev : Hash)
| WNotWriting (topRef : FlakeRef) (diff : string).

(** What the run does to the outside, in the order it happens. *)
Inductive Event : Type :=
| EvFetch (r : FlakeRef)
| EvWarn (msg : Warning)
| EvWriteLock (path : Path) (lock : LockFile)
| EvMarkChangedFile (topInput : Input) (file : string)
                    (commitMsg : option string).

(** Everything [flake.cc] calls and does not define.  A fetch may answer
    differently as the run goes on (a mutable reference, a source tree the
    run itself has written to), so it sees the events so far. *)
Record World : Type := mkWorld {
  (* settings *)
  flakesEnabled : bool;
  warnDirty : bool;
  pureEval : bool;
  (* the scheme of an input (fetchers.hh and the backends) *)
  isDirect : Input -> bool;
  isImmutable : Input -> bool;
  getRev : Input -> option Hash;
  getSourcePath : Input -> option Path;
  computeStorePath : Input -> StorePath;
  (* flakeref.cc *)
  resolve : FlakeRef -> Outcome FlakeRef;
  fetchTree : list Event -> FlakeRef -> Outcome (Tree * FlakeRef);
  parseFlakeRefURL : string -> Outcome FlakeRef;
  fromAttrs : Attrs -> Outcome FlakeRef;
  showFlakeRef : FlakeRef -> string;
  (* lockfile.cc *)
  parseInputPath : string -> Outcome InputPath;
  printInputPath : InputPath -> string;
  readLockFile : Path -> Outcome LockFile;
  diffLockFile : LockFile -> LockFile -> string;
  (* util.cc *)
  canonPath : Path -> Path;
  isInDir : Path -> Path -> bool;
  pathExists : Path -> bool;
  chomp : string -> string;
  (* the evaluator *)
  evalFile : Path -> Outcome Value;
  (** [bool hasOverride;] in [computeLocks] has no initialiser: what a read
      finds there when no override assigned it is not determined by the
      program.  The world supplies that value, per input path. *)
  uninitialized_hasOverride : InputPath -> bool
}.

(** [struct LockFlags] *)
Record LockFlags : Type := mkLockFlags {
  recreateLockFile : bool;
  updateLockFile : bool;
  writeLockFile : bool;
  useRegistries : bool;
  allowMutable : bool;
  commitLockFile : bool;
  inputOverrides : list (InputPath * FlakeRef);
  (** a [std::set<InputPath>], in increasing order *)
  inputUpdates : list InputPath
}.

(** [struct Flake] *)
Record Flake : Type := mkFlake {
  flOriginalRef : FlakeRef;
  flResolvedRef : FlakeRef;
  flLockedRef : FlakeRef;
  sourceInfo : Tree;
  description : option string;
  inputs : FlakeInputs;
  vOutputs : option Value
}.

Record LockedFlake : Type := mkLockedFlake {
  flake : Flake;
  lockFile : LockFile
}.

Definition FetchedFlake := (Tree * FlakeRef)%type.
Definition FlakeCache := list (FlakeRef * FetchedFlake).

(** The mutable objects a run of [lockFlake] works on: the fetch cache, the
    evaluator's [allowedPaths], the [parents] stack and the [updatesUsed] set
    of the [computeLocks] closure, and the events so far. *)
Record State : Type := mkState {
  flakeCache : FlakeCache;
  allowedPaths : option (list Path);
  parents : list FlakeRef;
  updatesUsed : list InputPath;
  trace : list Event
}.

Definition M (A : Type) : Type := State -> Outcome A * State.

Definition ret {A} (a : A) : M A := fun st => (Ok a, st).

Definition lift {A} (o : Outcome A) : M A := fun st => (o, st).

Definition throw {A} (e : Error) : M A := lift (Throw e).

Definition bind {A B} (m : M A) (k : A -> M B) : M B :=
  fun st =>
    match m st with
    | (Ok a, st1) => k a st1
    | (Throw e, st1) => (Throw e, st1)
    | (AssertFail, st1) => (AssertFail, st1)
    | (OutOfFuel, st1) => (OutOfFuel, st1)
    end.

Notation "'let*' x ':=' m 'in' k" := (bind m (fun x => k))
  (at level 10, x pattern, m at level 100, k at level 200).

Notation "m ';;' k" := (bind m (fun _ => k))
  (at level 100, k at level 200, right associativity).

(** [assert(c)] *)
Definition assert (c : bool) : M unit :=
  if c then ret tt else lift AssertFail.

(** [if (c) throw Error(...)] *)
Definition throwIf (c : bool) (e : Error) : M unit :=
  if c then throw e else ret tt.

Definition withFlakeCache (c : FlakeCache) (st : State) : State :=
  mkState c (allowedPaths st) (parents st) (updatesUsed st) (trace st).

Definition withAllowedPaths (a : option (list Path)) (st : State) : State :=
  mkState (flakeCache st) a (parents st) (updatesUsed st) (trace st).

Definition withParents (p : list FlakeRef) (st : State) : State :=
  mkState (flakeCache st) (allowedPaths st) p (updatesUsed st) (trace st).

Definition withUpdatesUsed (u : list InputPath) (st : State) : State :=
  mkState (flakeCache st) (allowedPaths st) (parents st) u (trace st).

Definition withTrace (t : list Event) (st : State) : State :=
  mkState (flakeCache st) (allowedPaths st) (parents st) (updatesUsed st) t.

Definition emit (ev : Event) : M unit :=
  fun st => (Ok tt, withTrace (trace st ++ [ev]) st).

Definition warn (msg : Warning) : M unit := emit (EvWarn msg).

Definition getState : M State := fun st => (Ok st, st).

Definition setFlakeCache (c : FlakeCache) : M unit :=
  fun st => (Ok tt, withFlakeCache c st).

Definition setParents (p : list FlakeRef) : M unit :=
  fun st => (Ok tt, withParents p st).

Definition setUpdatesUsed (u : list InputPath) : M unit :=
  fun st => (Ok tt, withUpdatesUsed u st).

(** [if (state.allowedPaths) state.allowedPaths->insert(p)] *)
Definition allowPath (p : Path) : M unit :=
  fun st =>
    (Ok tt,
     match allowedPaths st with
     | Some ps => withAllowedPaths (Some (p :: ps)) st
     | None => st
     end).

(** [Finally cleanup(f)]: [f] runs when the scope is left, by return or by
    exception; an abort runs no destructor. *)
Definition finally {A} (body : M A) (cleanup : M unit) : M A :=
  fun st =>
    match body st with
    | (Ok a, st1) =>
        match cleanup st1 with
        | (Ok _, st2) => (Ok a, st2)
        | (Throw e, st2) => (Throw e, st2)
        | (AssertFail, st2) => (AssertFail, st2)
        | (OutOfFuel, st2) => (OutOfFuel, st2)
        end
    | (Throw e, st1) => (Throw e, snd (cleanup st1))
    | (AssertFail, st1) => (AssertFail, st1)
    | (OutOfFuel, st1) => (OutOfFuel, st1)
    end.

(** Exceptions alone, for the code that touches no mutable state. *)
Definition obind {A B} (o : Outcome A) (k : A -> Outcome B) : Outcome B :=
  match o with
  | Ok a => k a
  | Throw e => Throw e
  | AssertFail => AssertFail
  | OutOfFuel => OutOfFuel
  end.

Notation "'let?' x ':=' o 'in' k" := (obind o (fun x => k))
  (at level 10, x pattern, o at level 100, k at level 200).

(* --------------------------------------------------------------------- *)
(** *** [flake.cc], functions *)

Section WithWorld.

Variable w : World.

(** The body of the [for] loop of [printOverrides] for one entry; the pair
    is the stream [ret] and the flag [first]. *)
Fixpoint printOverride (inputPath : InputPath) (override : FlakeInput)
    (acc : string * bool) {struct override} : string * bool :=
  match override with
  | mkFlakeInput oref _ _ _ children =>
      let acc1 :=
        match oref with
        | Some r =>
            (((if snd acc then fst acc else fst acc ++ ", ")
                ++ printInputPath w inputPath ++ "=" ++ showFlakeRef w r)%string,
             false)
        | None => acc
        end in
      let childrenOverrides :=
        fst ((fix go (m : list (FlakeId * FlakeInput)) (a : string * bool)
                {struct m} : string * bool :=
                match m with
                | [] => a
                | (id, c) :: m' => go m' (printOverride (inputPath ++ [id]) c a)
                end) children ("", true)) in
      if String.eqb childrenOverrides "" then acc1
      else (((if snd acc1 then fst acc1 else fst acc1 ++ ", ")
               ++ childrenOverrides)%string, false)
  end.

Fixpoint printOverridesLoop (inputPathPrefix : InputPath)
    (m : FlakeInputs) (acc : string * bool) : string * bool :=
  match m with
  | [] => acc
  | (id, c) :: m' =>
      printOverridesLoop inputPathPrefix m'
        (printOverride (inputPathPrefix ++ [id]) c acc)
  end.

(** [std::string printOverrides(const FlakeInputs & overrides,
    const InputPath & inputPathPrefix)] *)
Definition printOverrides (overrides : FlakeInputs)
    (inputPathPrefix : InputPath) : string :=
  fst (printOverridesLoop inputPathPrefix overrides ("", true)).

(** [lookupInFlakeCache]: the first entry whose key equals [flakeRef]. *)
Fixpoint lookupInFlakeCache (flakeCache : FlakeCache) (flakeRef : FlakeRef)
  : option FetchedFlake :=
  match flakeCache with
  | [] => None
  | (k, v) :: rest =>
      if FlakeRef_eqb flakeRef k then Some v
      else lookupInFlakeCache rest flakeRef
  end.

(** [flakeCache.push_back({k, v})] *)
Definition cachePush (k : FlakeRef) (v : FetchedFlake) : M unit :=
  fun st => (Ok tt, withFlakeCache (flakeCache st ++ [(k, v)]) st).

(** [r.fetchTree(state.store)]: the fetch is recorded, and answered by the
    world from the events before it. *)
Definition doFetch (r : FlakeRef) : M FetchedFlake :=
  fun st => (fetchTree w (trace st) r, withTrace (trace st ++ [EvFetch r]) st).

(** [fetchOrSubstituteTree], lines 89-127; the result is
    [(tree, resolvedRef, lockedRef)]. *)
Definition fetchOrSubstituteTree (originalRef : FlakeRef) (allowLookup : bool)
  : M (Tree * FlakeRef * FlakeRef) :=
  let* st0 := getState in
  let* (fetched, resolvedRef) :=
    match lookupInFlakeCache (flakeCache st0) originalRef with
    | Some fetched => ret (fetched, originalRef)
    | None =>
        let* (fetched, resolvedRef) :=
          if isDirect w (input originalRef) then
            let* fetched := doFetch originalRef in
            ret (fetched, originalRef)
          else if allowLookup then
            let* resolvedRef := lift (resolve w originalRef) in
            let* st1 := getState in
            let* fetchedResolved :=
              match lookupInFlakeCache (flakeCache st1) originalRef with
              | Some f => ret f
              | None => doFetch resolvedRef
              end in
            cachePush resolvedRef fetchedResolved ;;
            ret (fetchedResolved, resolvedRef)
          else throw RegistryLookupDisallowed in
        cachePush originalRef fetched ;;
        ret (fetched, resolvedRef)
    end in
  let '(tree, lockedRef) := fetched in
  allowPath (actualPath tree) ;;
  assert (match narHash (input originalRef) with
          | None => true
          | Some _ =>
              String.eqb (storePath tree)
                (computeStorePath w (input originalRef))
          end) ;;
  ret (tree, resolvedRef, lockedRef).

Definition hasType (type : ValueType) (value : Value) : bool :=
  match type, value with
  | tString, VString _ => true
  | tBool, VBool _ => true
  | tAttrs, VAttrs _ => true
  | tLambda, VLambda _ _ => true
  | _, _ => false
  end.

(** [expectType]: a trivial thunk is forced first (values here are given
    forced, [VThunk] is a thunk that is not trivial), then the type must
    match. *)
Definition expectType (type : ValueType) (value : Value) : Outcome unit :=
  if hasType type value then Ok tt else Throw MalformedManifest.

(** What the loop of [parseFlakeInput] accumulates: [input], [attrs], [url]. *)
Definition ParseAcc := (FlakeInput * Attrs * option string)%type.

(** [parseFlakeInput], lines 142-204.  The [catch] blocks only add a trace
    to the exception and rethrow it. *)
Fixpoint parseFlakeInput (inputName : string) (value : Value)
    (defaultRef : bool) {struct value} : Outcome FlakeInput :=
  match value with
  | VAttrs valueAttrs =>
      let? (input, attrs, url) :=
        (fix loop (l : list (string * Value)) (acc : ParseAcc) {struct l}
           : Outcome ParseAcc :=
           match l with
           | [] => Ok acc
           | (name, v) :: l' =>
               let '(input, attrs, url) := acc in
               let? acc' :=
                 if String.eqb name "url" then
                   match v with
                   | VString s =>
                       Ok (input, StdMap.emplace "url" s attrs, Some s)
                   | _ => Throw MalformedManifest
                   end
                 else if String.eqb name "flake" then
                   match v with
                   | VBool b =>
                       Ok (mkFlakeInput (ref input) b (follows input)
                             (absolute input) (overrides input), attrs, url)
                   | _ => Throw MalformedManifest
                   end
                 else if String.eqb name "inputs" then
                   (* parseFlakeInputs(state, attr.value, *attr.pos, false) *)
                   match v with
                   | VAttrs inputAttrs =>
                       let? ovs :=
                         (fix inputsLoop (il : list (string * Value))
                            (m : FlakeInputs) {struct il}
                            : Outcome FlakeInputs :=
                            match il with
                            | [] => Ok m
                            | (iname, iv) :: il' =>
                                let? i := parseFlakeInput iname iv false in
                                inputsLoop il' (StdMap.emplace iname i m)
                            end) inputAttrs [] in
                       Ok (set_overrides ovs input, attrs, url)
                   | _ => Throw MalformedManifest
                   end
                 else if String.eqb name "follows" then
                   match v with
                   | VString s =>
                       let? p := parseInputPath w s in
                       Ok (mkFlakeInput (ref input) (isFlake input) (Some p)
                             (absolute input) (overrides input), attrs, url)
                   | _ => Throw MalformedManifest
                   end
                 else
                   match v with
                   | VString s => Ok (input, StdMap.emplace name s attrs, url)
                   | VThunk (Some (VString s)) =>
                       Ok (input, StdMap.emplace name s attrs, url)
                   | VThunk None => Throw EvalError
                   | _ => Throw MalformedManifest
                   end in
               loop l' acc'
           end) valueAttrs (FlakeInput0, [], None) in
      let? input1 :=
        if StdMap.count "type" attrs then
          let? r := fromAttrs w attrs in
          Ok (set_ref (Some r) input)
        else
          match StdMap.erase "url" attrs with
          | _ :: _ => Throw MalformedManifest
          | [] =>
              match url with
              | Some u =>
                  let? r := parseFlakeRefURL w u in
                  Ok (set_ref (Some r) input)
              | None => Ok input
              end
          end in
      match follows input1, ref input1, defaultRef with
      | None, None, true => Ok (set_ref (Some (indirectRef inputName)) input1)
      | _, _, _ => Ok input1
      end
  | _ => Throw MalformedManifest
  end.

(** [parseFlakeInputs], lines 206-223. *)
Definition parseFlakeInputs (value : Value) (defaultRef : bool)
  : Outcome FlakeInputs :=
  match value with
  | VAttrs valueAttrs =>
      (fix inputsLoop (il : list (string * Value)) (m : FlakeInputs)
         {struct il} : Outcome FlakeInputs :=
         match il with
         | [] => Ok m
         | (iname, iv) :: il' =>
             let? i := parseFlakeInput iname iv defaultRef in
             inputsLoop il' (StdMap.emplace iname i m)
         end) valueAttrs []
  | _ => Throw MalformedManifest
  end.

(** Modelled from the spec: [parseFlakeRef] applied to the name of a formal
    of [outputs] ([flakeref.cc] is not under src/): the formal is "injected
    as a declared input with a default indirect reference of the same
    name". *)
Definition parseFlakeRef_name (name : string) : FlakeRef := indirectRef name.

(** The loop over the formals of [outputs], lines 277-282. *)
Fixpoint injectFormals (formals : list string) (inputs : FlakeInputs)
  : FlakeInputs :=
  match formals with
  | [] => inputs
  | name :: rest =>
      injectFormals rest
        (if negb (String.eqb name "self")
         then StdMap.emplace name
                (mkFlakeInput (Some (parseFlakeRef_name name)) true None false
                   [])
                inputs
         else inputs)
  end.

(** The last loop of [getFlake], lines 288-295. *)
Fixpoint checkSupportedAttrs (attrs : list (string * Value)) : Outcome unit :=
  match attrs with
  | [] => Ok tt
  | (name, _) :: rest =>
      if negb (String.eqb name "edition")
         && negb (String.eqb name "description")
         && negb (String.eqb name "inputs")
         && negb (String.eqb name "outputs")
      then Throw MalformedManifest
      else checkSupportedAttrs rest
  end.

(** [getFlake] after the tree is at hand, lines 234-297: locating,
    evaluating and reading [flake.nix]. *)
Definition readFlake (originalRef : FlakeRef)
    (fetched : Tree * FlakeRef * FlakeRef) : M Flake :=
  let '(sourceInfo, resolvedRef, lockedRef) := fetched in
  let flakeFile :=
    canonPath w
      (actualPath sourceInfo ++ "/" ++ subdir lockedRef ++ "/flake.nix")%string in
  throwIf (negb (isInDir w flakeFile (actualPath sourceInfo))) SymlinkEscape ;;
  throwIf (negb (pathExists w flakeFile)) MissingFlakeFile ;;
  let* vInfo := lift (evalFile w flakeFile) in
  match vInfo with
  | VAttrs attrs =>
      (if StdMap.count "edition" attrs
       then warn (WDeprecatedEdition lockedRef) else ret tt) ;;
      let* description :=
        match StdMap.get "description" attrs with
        | Some (VString d) => ret (Some d)
        | Some _ => throw MalformedManifest
        | None => ret None
        end in
      let* inputs :=
        match StdMap.get "inputs" attrs with
        | Some v => lift (parseFlakeInputs v true)
        | None => ret []
        end in
      let* (vOutputs, inputs1) :=
        match StdMap.get "outputs" attrs with
        | Some (VLambda matchAttrs formals) =>
            ret (Some (VLambda matchAttrs formals),
                 if matchAttrs then injectFormals formals inputs else inputs)
        | Some _ => throw MalformedManifest
        | None => throw MalformedManifest
        end in
      lift (checkSupportedAttrs attrs) ;;
      ret (mkFlake originalRef resolvedRef lockedRef sourceInfo description
             inputs1 vOutputs)
  | _ => throw MalformedManifest
  end.

(** [static Flake getFlake(EvalState &, const FlakeRef & originalRef,
    bool allowLookup, FlakeCache & flakeCache)], lines 225-298. *)
Definition getFlake (originalRef : FlakeRef) (allowLookup : bool) : M Flake :=
  let* fetched := fetchOrSubstituteTree originalRef allowLookup in
  readFlake originalRef fetched.

(** A call that is handed a cache of its own ([FlakeCache dummyCache]); the
    caller's cache is back in place afterwards. *)
Definition withCache {A} (c : FlakeCache) (m : M A) : M A :=
  fun st =>
    let r := m (withFlakeCache c st) in
    (fst r, withFlakeCache (flakeCache st) (snd r)).

(* --------------------------------------------------------------------- *)
(** *** [std::set<InputPath>] *)

(** [operator<] of [std::vector<std::string>]: lexicographic. *)
Fixpoint InputPath_ltb (a b : InputPath) : bool :=
  match a, b with
  | _, [] => false
  | [], _ :: _ => true
  | x :: a', y :: b' =>
      if String.ltb x y then true
      else if String.ltb y x then false
      else InputPath_ltb a' b'
  end.

Definition InputPath_eqb : InputPath -> InputPath -> bool :=
  list_eqb String.eqb.

(** [s.count(p)] *)
Definition pathCount (p : InputPath) (s : list InputPath) : bool :=
  existsb (InputPath_eqb p) s.

(** [s.insert(p)], the set kept in increasing order. *)
Fixpoint pathInsert (p : InputPath) (s : list InputPath) : list InputPath :=
  match s with
  | [] => [p]
  | q :: s' =>
      if InputPath_eqb p q then s
      else if InputPath_ltb p q then p :: s
      else q :: pathInsert p s'
  end.

(** [s.lower_bound(p)]: the first element not less than [p]. *)
Definition lower_bound (p : InputPath) (s : list InputPath)
  : option InputPath :=
  find (fun q => negb (InputPath_ltb q p)) s.

(** [std::equal(a.begin(), a.end(), b.begin())] for [b] at least as long as
    [a]. *)
Fixpoint isPrefixOf (a b : InputPath) : bool :=
  match a, b with
  | [], _ => true
  | x :: a', y :: b' => String.eqb x y && isPrefixOf a' b'
  | _ :: _, [] => false
  end.

(* --------------------------------------------------------------------- *)
(** *** [lockFlake] and its [computeLocks] closure *)

Section ComputeLocks.

Variable lockFlags : LockFlags.

(** The closure takes [flakeInputs] and [overrides] by non-const reference
    and writes to the node it is given; a call returns the three as it
    leaves them. *)
Definition ComputeLocks : Type :=
  FlakeInputs -> NodeInputs -> InputPath -> option NodeInputs -> FlakeInputs ->
  M (FlakeInputs * NodeInputs * FlakeInputs).

(** Lines 441-453: the inputs a locked node had, rebuilt from the old lock. *)
Fixpoint fakeInputsOf (oldInputs : NodeInputs) (fakeInputs : FlakeInputs)
  : FlakeInputs :=
  match oldInputs with
  | [] => fakeInputs
  | (id, ELocked _ oref isF _) :: rest =>
      fakeInputsOf rest
        (StdMap.emplace id (mkFlakeInput (Some oref) isF None false [])
           fakeInputs)
  | (id, EFollows target) :: rest =>
      fakeInputsOf rest
        (StdMap.emplace id (mkFlakeInput None true (Some target) true [])
           fakeInputs)
  end.

(** Lines 423-428. *)
Definition hasChildUpdate (inputPath : InputPath) : bool :=
  match lower_bound inputPath (inputUpdates lockFlags) with
  | Some lb =>
      Nat.ltb (length inputPath) (length lb) && isPrefixOf inputPath lb
  | None => false
  end.

Section Body.

(** The closure itself, for the recursive calls. *)
Variable computeLocks : ComputeLocks.

(** Lines 363-373.  Line 363 declares [FlakeInput & input = originalInput]:
    a reference, so [input] and [originalInput] are two names of the one
    object held by the map, and the writes to [input.ref] and to
    [input.overrides] are writes to [originalInput].  The result is that
    object after the writes, [hasOverride], and the overrides without the
    extracted entry.  [bool hasOverride;] is declared without initialiser and
    assigned only when the extracted entry has a ref. *)
Definition applyOverride (inputPath : InputPath) (id : FlakeId)
    (originalInput : FlakeInput) (overrides : FlakeInputs)
  : FlakeInput * bool * FlakeInputs :=
  let input := originalInput in
  let hasOverride := uninitialized_hasOverride w inputPath in
  let (matchingOverrides, overrides) := StdMap.extract id overrides in
  match matchingOverrides with
  | Some mo =>
      let (input, hasOverride) :=
        match ref mo with
        | Some r => (set_ref (Some r) input, true)
        | None => (input, hasOverride)
        end in
      (setOverrides input (Flake.overrides mo), hasOverride, overrides)
  | None => (input, hasOverride, overrides)
  end.

(** Lines 378-387. *)
Definition followsTarget (inputPathPrefix : InputPath) (input : FlakeInput)
    (hasOverride : bool) (inputFollows : InputPath) : InputPath :=
  if hasOverride || absolute input then inputFollows
  else inputPathPrefix ++ inputFollows.

(** Lines 397-404. *)
Definition findOldLock (oldNode : option NodeInputs) (inputPath : InputPath)
    (id : FlakeId) : option LockedNode :=
  match oldNode with
  | Some oldInputs =>
      if negb (pathCount inputPath (inputUpdates lockFlags)) then
        match StdMap.get id oldInputs with
        | Some e => asLocked e
        | None => None
        end
      else None
  | None => None
  end.

(** The test at lines 406-408. *)
Definition keepOldLock (oldLock : option LockedNode) (inputRef : FlakeRef)
    (hasOverride : bool) : bool :=
  match oldLock with
  | Some ol => FlakeRef_eqb (originalRef ol) inputRef && negb hasOverride
  | None => false
  end.

(** Lines 410-456: the input is copied from the old lock (the child node is
    put into [node] at line 418 and filled in by the recursive call). *)
Definition lockKept (id : FlakeId) (input : FlakeInput) (ol : LockedNode)
    (node : NodeInputs) (inputPath : InputPath) (overrides : FlakeInputs)
  : M (FlakeInput * NodeInputs * FlakeInputs) :=
  let* childFlakeInputs :=
    if hasChildUpdate inputPath then
      let* inputFlake := getFlake (lockedRef ol) false in
      ret (inputs inputFlake)
    else ret (fakeInputsOf (lnInputs ol) []) in
  let* (_, childInputs, inputOverrides) :=
    computeLocks childFlakeInputs [] inputPath
      (Some (lnInputs ol)) (Flake.overrides input) in
  ret (set_overrides inputOverrides input,
       StdMap.insert_or_assign id
         (ELocked (lockedRef ol) (originalRef ol) (lnIsFlake ol) childInputs)
         node,
       overrides).

(** Lines 476-498: the new entry of an input that is a flake, once the flake
    has been loaded.  The source puts the child node into [node] at line
    479 and lets the recursive call fill it in; [node] is not looked at
    when that call throws, so the entry is built here when the child's
    inputs are known. *)
Definition lockFreshFlake (id : FlakeId) (input originalInput : FlakeInput)
    (inputRef : FlakeRef) (inputFlake : Flake) (oldLock : option LockedNode)
    (node : NodeInputs) (inputPath : InputPath) (overrides : FlakeInputs)
  : M (FlakeInput * NodeInputs * FlakeInputs) :=
  let childOriginalRef :=
    match ref originalInput with
    | Some r => r
    | None => inputRef
    end in
  let* st1 := getState in
  throwIf (existsb (fun parent => FlakeRef_eqb parent inputRef) (parents st1))
    CircularImport ;;
  setParents (parents st1 ++ [inputRef]) ;;
  finally
    (let* oldBase :=
       match oldLock with
       | Some ol => ret (lnInputs ol)
       | None =>
           let* lf :=
             lift (readLockFile w
                     (actualPath (sourceInfo inputFlake) ++ "/"
                      ++ subdir (flLockedRef inputFlake)
                      ++ "/flake.lock")%string) in
           ret (root lf)
       end in
     let* (_, childInputs, inputOverrides) :=
       computeLocks (inputs inputFlake) [] inputPath
         (Some oldBase) (Flake.overrides input) in
     ret (set_overrides inputOverrides input,
          StdMap.insert_or_assign id
            (ELocked (flLockedRef inputFlake) childOriginalRef true
               childInputs) node,
          overrides))
    (let* st2 := getState in
     setParents (removelast (parents st2))).

(** Lines 459-507: a new lock entry is created. *)
Definition lockFresh (id : FlakeId) (input originalInput : FlakeInput)
    (inputRef : FlakeRef) (oldLock : option LockedNode)
    (node : NodeInputs) (inputPath : InputPath) (overrides : FlakeInputs)
  : M (FlakeInput * NodeInputs * FlakeInputs) :=
  throwIf (negb (allowMutable lockFlags)
           && negb (isImmutable w (Flake.input inputRef)))
    MutableInPureMode ;;
  if isFlake input then
    let* inputFlake := getFlake inputRef (useRegistries lockFlags) in
    lockFreshFlake id input originalInput inputRef inputFlake oldLock node
      inputPath overrides
  else
    let* (_, lockedRef) :=
      fetchOrSubstituteTree inputRef (useRegistries lockFlags) in
    ret (input,
         StdMap.insert_or_assign id (ELocked lockedRef inputRef false []) node,
         overrides).

(** One turn of the loop at line 356, for the entry [(id, originalInput)] of
    [flakeInputs]: the object of the entry, the node's inputs and the
    overrides as the turn leaves them.  After [applyOverride] the names
    [input] and [originalInput] of the source both read the object it
    returns. *)
Definition lockInput (id : FlakeId) (originalInput : FlakeInput)
    (node : NodeInputs) (inputPathPrefix : InputPath)
    (oldNode : option NodeInputs) (overrides : FlakeInputs)
  : M (FlakeInput * NodeInputs * FlakeInputs) :=
  let inputPath := inputPathPrefix ++ [id] in
  let '(input, hasOverride, overrides) :=
    applyOverride inputPath id originalInput overrides in
  let originalInput := input in
  match follows input with
  | Some inputFollows =>
      ret (input,
           StdMap.insert_or_assign id
             (EFollows
                (followsTarget inputPathPrefix input hasOverride inputFollows))
             node,
           overrides)
  | None =>
      match ref input with
      | None => lift AssertFail                       (* assert(input.ref) *)
      | Some inputRef =>
          let* st := getState in
          setUpdatesUsed (pathInsert inputPath (updatesUsed st)) ;;
          let oldLock := findOldLock oldNode inputPath id in
          match oldLock with
          | Some ol =>
              if keepOldLock oldLock inputRef hasOverride
              then lockKept id input ol node inputPath overrides
              else lockFresh id input originalInput inputRef oldLock node
                     inputPath overrides
          | None =>
              lockFresh id input originalInput inputRef oldLock node
                inputPath overrides
          end
      end
  end.

(** The loop at line 356, over the entries of [flakeInputs] in key order. *)
Fixpoint lockInputs (entries : FlakeInputs) (node : NodeInputs)
    (inputPathPrefix : InputPath) (oldNode : option NodeInputs)
    (overrides : FlakeInputs) {struct entries}
  : M (FlakeInputs * NodeInputs * FlakeInputs) :=
  match entries with
  | [] => ret ([], node, overrides)
  | (id, originalInput) :: rest =>
      let* (input1, node1, overrides1) :=
        lockInput id originalInput node inputPathPrefix oldNode overrides in
      let* (rest1, node2, overrides2) :=
        lockInputs rest node1 inputPathPrefix oldNode overrides1 in
      ret ((id, input1) :: rest1, node2, overrides2)
  end.

(** The body of the closure, lines 350-514. *)
Definition computeLocksBody : ComputeLocks :=
  fun flakeInputs node inputPathPrefix oldNode overrides =>
    let* (flakeInputs1, node1, overrides1) :=
      lockInputs flakeInputs node inputPathPrefix oldNode overrides in
    let unused := printOverrides overrides1 inputPathPrefix in
    (if negb (String.eqb unused "")
     then warn (WUnusedOverrides unused) else ret tt) ;;
    ret (flakeInputs1, node1, overrides1).

End Body.

(** The closure, unfolded [fuel] levels deep: each level is one nesting of
    flake inputs. *)
Fixpoint computeLocks (fuel : nat) : ComputeLocks :=
  match fuel with
  | O => fun _ _ _ _ _ => lift OutOfFuel
  | S fuel' => computeLocksBody (computeLocks fuel')
  end.

End ComputeLocks.

(** All [follows] targets of a lock graph. *)
Fixpoint followsTargets (e : Edge) : list InputPath :=
  match e with
  | ELocked _ _ _ children =>
      (fix go (m : list (FlakeId * Edge)) : list InputPath :=
         match m with
         | [] => []
         | (_, c) :: m' => followsTargets c ++ go m'
         end) children
  | EFollows target => [target]
  end.

Definition allFollowsTargets (m : NodeInputs) : list InputPath :=
  flat_map (fun kv => followsTargets (snd kv)) m.

(** Whether an input path leads to something in the graph, going down
    through locked nodes from the given inputs. *)
Fixpoint pathExistsIn (m : NodeInputs) (path : InputPath) {struct path}
  : bool :=
  match path with
  | [] => true
  | id :: rest =>
      match StdMap.get id m with
      | Some (ELocked _ _ _ children) => pathExistsIn children rest
      | Some (EFollows _) => match rest with [] => true | _ => false end
      | None => false
      end
  end.

(** Modelled from the spec: [LockFile::check] ([lockfile.cc] is not under
    src/): "every follows edge must resolve to an existing node in the
    graph; otherwise DanglingFollows". *)
Definition lockCheck (l : LockFile) : Outcome unit :=
  if forallb (pathExistsIn (root l)) (allFollowsTargets (root l))
  then Ok tt else Throw DanglingFollows.

(** Modelled from the spec: [LockFile::isImmutable] ([lockfile.cc] is not
    under src/): "true iff every LockedNode's locked_ref is immutable". *)
Fixpoint edgeIsImmutable (e : Edge) : bool :=
  match e with
  | ELocked lref _ _ children =>
      isImmutable w (input lref)
      && (fix go (m : list (FlakeId * Edge)) : bool :=
            match m with
            | [] => true
            | (_, c) :: m' => edgeIsImmutable c && go m'
            end) children
  | EFollows _ => true
  end.

Definition lockIsImmutable (l : LockFile) : bool :=
  forallb (fun kv => edgeIsImmutable (snd kv)) (root l).

Definition nl : string := String (Ascii.ascii_of_nat 10) EmptyString.

(** Lines 521-523. *)
Fixpoint warnUnusedUpdates (updates used : list InputPath) : M unit :=
  match updates with
  | [] => ret tt
  | i :: rest =>
      (if negb (pathCount i used)
       then warn (WUnusedUpdateInput (printInputPath w i)) else ret tt) ;;
      warnUnusedUpdates rest used
  end.

(** Lines 536-589: writing the changed lock file next to the top-level
    [flake.nix]; the result is the flake to return. *)
Definition writeNewLockFile (topRef : FlakeRef) (lockFlags : LockFlags)
    (flake0 : Flake) (newLockFile : LockFile) (diff : string) : M Flake :=
  match getSourcePath w (input topRef) with
  | Some sourcePath =>
      if negb (lockIsImmutable newLockFile) then
        (if warnDirty w then warn (WMutableInput topRef) else ret tt) ;;
        ret flake0
      else
        throwIf (negb (updateLockFile lockFlags)) LockChangesDisallowed ;;
        let relPath :=
          ((if String.eqb (subdir topRef) "" then ""
            else subdir topRef ++ "/") ++ "flake.lock")%string in
        let path := (sourcePath ++ "/" ++ relPath)%string in
        let lockFileExists := pathExists w path in
        (if lockFileExists then
           warn (WUpdatingLockFile path (chomp w diff))
         else warn (WCreatingLockFile path)) ;;
        emit (EvWriteLock path newLockFile) ;;
        emit (EvMarkChangedFile (input topRef) relPath
                (if commitLockFile lockFlags
                 then Some (relPath ++ ": "
                            ++ (if lockFileExists then "Update" else "Add")
                            ++ nl ++ nl ++ "Flake input changes:" ++ nl ++ nl
                            ++ diff)%string
                 else None)) ;;
        let prevLockedRef := flLockedRef flake0 in
        let* flake1 :=
          withCache [] (getFlake topRef (useRegistries lockFlags)) in
        (match getRev w (input (flLockedRef flake1)) with
         | Some rev =>
             if commitLockFile lockFlags
                && negb (option_eqb String.eqb
                           (getRev w (input prevLockedRef)) (Some rev))
             then warn (WCommittedRevision rev) else ret tt
         | None => ret tt
         end) ;;
        throwIf (Input_eqb (input (flLockedRef flake1)) (input prevLockedRef)
                 && negb (isImmutable w (input (flLockedRef flake1))))
          LockWriteDidNotTakeEffect ;;
        ret flake1
  | None => throw LockWriteImpossible
  end.

(** Lines 531-592. *)
Definition persist (topRef : FlakeRef) (lockFlags : LockFlags)
    (flake0 : Flake) (oldLockFile newLockFile : LockFile) : M Flake :=
  if negb (LockFile_eqb newLockFile oldLockFile) then
    let diff := diffLockFile w oldLockFile newLockFile in
    if writeLockFile lockFlags then
      writeNewLockFile topRef lockFlags flake0 newLockFile diff
    else
      warn (WNotWriting topRef (chomp w diff)) ;;
      ret flake0
  else ret flake0.

Definition withInputs (i : FlakeInputs) (f : Flake) : Flake :=
  mkFlake (flOriginalRef f) (flResolvedRef f) (flLockedRef f) (sourceInfo f)
    (description f) i (vOutputs f).

(** [LockedFlake lockFlake(EvalState & state, const FlakeRef & topRef,
    const LockFlags & lockFlags)], lines 308-595.  [flakeCache], [parents]
    and [updatesUsed] are locals of the call and start empty; [fuel] bounds
    the nesting of [computeLocks]. *)
Definition lockFlake (fuel : nat) (topRef : FlakeRef) (lockFlags : LockFlags)
  : M LockedFlake :=
  throwIf (negb (flakesEnabled w)) ExperimentalFeatureDisabled ;;
  setFlakeCache [] ;;
  setParents [] ;;
  setUpdatesUsed [] ;;
  let* flake0 := getFlake topRef (useRegistries lockFlags) in
  let* oldLockFile :=
    lift (readLockFile w
            (actualPath (sourceInfo flake0) ++ "/"
             ++ subdir (flLockedRef flake0) ++ "/flake.lock")%string) in
  let overrides :=
    fold_left (fun ovs kv => setOverride ovs (fst kv) (snd kv))
      (inputOverrides lockFlags) [] in
  let* (flakeInputs1, newRoot, _) :=
    computeLocks lockFlags fuel (inputs flake0) [] []
      (if recreateLockFile lockFlags then None else Some (root oldLockFile))
      overrides in
  let flake1 := withInputs flakeInputs1 flake0 in
  let newLockFile := mkLockFile newRoot in
  let* st := getState in
  warnUnusedUpdates (inputUpdates lockFlags) (updatesUsed st) ;;
  lift (lockCheck newLockFile) ;;
  let* flake2 := persist topRef lockFlags flake1 oldLockFile newLockFile in
  ret (mkLockedFlake flake2 newLockFile).

(** [prim_getFlake], lines 627-642, up to the call of [callFlake] (which
    evaluates the outputs and is outside this development).  [LockFlags0]
    stands for the member initialisers of [struct LockFlags], which
    [flake.hh] holds. *)
Definition prim_getFlake (LockFlags0 : LockFlags) (fuel : nat)
    (flakeRefS : string) : M LockedFlake :=
  let* flakeRef := lift (parseFlakeRefURL w flakeRefS) in
  throwIf (pureEval w && negb (isImmutable w (input flakeRef)))
    MutableInPureMode ;;
  lockFlake fuel flakeRef
    (mkLockFlags (recreateLockFile LockFlags0) false
       (writeLockFile LockFlags0) (negb (pureEval w)) (negb (pureEval w))
       (commitLockFile LockFlags0) (inputOverrides LockFlags0)
       (inputUpdates LockFlags0)).

End WithWorld.

End Flake.

(* ===================================================================== *)
(** ** Concrete stores and worlds *)

Module Examples.

(** A store that can substitute nothing; the backend of the scheme returns
    a tree without NAR hash and an input that carries none. *)
Definition store1 : Fetchers.Store :=
  Fetchers.mkStore
    (fun _ h name => "/nix/store/" ++ h ++ "-" ++ name)%string
    (fun _ => Throw StoreError)
    (fun p => p)
    (fun _ => Ok "sha256-tree")
    (fun i => Ok (mkTree "" "/nix/store/abc-source" (mkTreeInfo None None None),
                  i)).

Definition plainInput : Input :=
  mkInput [("type", "git"); ("url", "https://example.org/repo")] None.

Definition evalState0 : Fetchers.EvalState := Fetchers.mkEvalState None.

Import Flake.

Definition attr (k : string) (i : Input) : option string :=
  StdMap.get k (inAttrs i).

Definition typeIs (t : string) (i : Input) : bool :=
  option_eqb String.eqb (attr "type" i) (Some t).

(** A git reference by URL, the same pinned to a revision, and a local
    path. *)
Definition gitRef (url : string) : FlakeRef :=
  mkFlakeRef (mkInput [("type", "git"); ("url", url)] None) "".

Definition gitRefAt (url rev : string) : FlakeRef :=
  mkFlakeRef (mkInput [("rev", rev); ("type", "git"); ("url", url)] None) "".

Definition pathRef (p : string) : FlakeRef :=
  mkFlakeRef (mkInput [("type", "path"); ("url", p)] None) "".

Definition isFetch (ev : Event) : bool :=
  match ev with EvFetch _ => true | _ => false end.

Definition fetchCount (tr : list Event) : nat := length (filter isFetch tr).

Definition isWrite (ev : Event) : bool :=
  match ev with EvWriteLock _ _ => true | _ => false end.

(** A world given by the manifests and lock files found in the source
    trees and by what an uninitialised [hasOverride] reads.  Every registry
    id [x] resolves to the git repository [x]; a fetch of URL [u] yields the
    tree [/src/u], pinned to revision [r1] (for the URL [moving]: to [r1] on
    the first fetch of the run and to [r2] afterwards), a local path being
    pinned by a NAR hash that changes once the run has written a lock file;
    a reference is immutable when it has a revision or a NAR hash. *)
Definition exampleWorld (files : Path -> Outcome Value)
    (locks : Path -> Outcome LockFile) (uninit : InputPath -> bool) : World :=
  mkWorld true true false
    (fun i => negb (typeIs "indirect" i))
    (fun i => StdMap.count "rev" (inAttrs i)
              || match narHash i with Some _ => true | None => false end)
    (fun i => attr "rev" i)
    (fun i => if typeIs "path" i then attr "url" i else None)
    (fun _ => "/nix/store/source")
    (fun r => match attr "id" (input r) with
              | Some id => Ok (gitRef id)
              | None => Throw UnknownRegistryEntry
              end)
    (fun tr r =>
       match attr "url" (input r) with
       | Some u =>
           let rev :=
             if String.eqb u "moving" && negb (Nat.eqb (fetchCount tr) 0)
             then "r2" else "r1" in
           Ok (mkTree ("/src/" ++ u)%string ("/src/" ++ u)%string
                 (mkTreeInfo (Some "sha256-h") None None),
               if typeIs "path" (input r)
               then mkFlakeRef
                      (mkInput (inAttrs (input r))
                         (Some (if existsb isWrite tr then "sha256-dirty"
                                else "sha256-clean")))
                      (subdir r)
               else gitRefAt u rev)
       | None => Throw FetchFailure
       end)
    (fun u => Ok (gitRef u))
    (fun a => Ok (mkFlakeRef (mkInput a None) ""))
    (fun r => match attr "url" (input r) with
              | Some u => u
              | None => match attr "id" (input r) with
                        | Some id => id
                        | None => "?"
                        end
              end)
    (fun s => Ok [s])
    (String.concat "/")
    locks
    (fun _ _ => "diff")
    (fun p => p)
    (fun _ _ => true)
    (fun _ => true)
    (fun s => s)
    files
    uninit.

Definition noLocks : Path -> Outcome LockFile := fun _ => Ok (mkLockFile []).

Definition neverSet : InputPath -> bool := fun _ => false.

(** A manifest with nothing but an [outputs] function of the given
    formals. *)
Definition manifestOf (formals : list string) : Value :=
  VAttrs [("outputs", VLambda true formals)].

Definition state0 : State := mkState [] None [] [] [].

Definition flags0 : LockFlags :=
  mkLockFlags false true true true true false [] [].

(** The source trees of the examples: flakes [a] and [b] import each other
    through the registry; [leaf] and [./tree] have no inputs; [app] declares
    the input [dep], fetched from the git repository [dep], which has no
    inputs of its own. *)
Definition files1 (p : Path) : Outcome Value :=
  if String.eqb p "/src/a//flake.nix" then Ok (manifestOf ["self"; "b"])
  else if String.eqb p "/src/b//flake.nix" then Ok (manifestOf ["self"; "a"])
  else if String.eqb p "/src/leaf//flake.nix" then Ok (manifestOf ["self"])
  else if String.eqb p "/src/./tree//flake.nix" then Ok (manifestOf ["self"])
  else if String.eqb p "/src/dep//flake.nix" then Ok (manifestOf ["self"])
  else if String.eqb p "/src/fork//flake.nix" then Ok (manifestOf ["self"])
  else if String.eqb p "/src/app//flake.nix" then
    Ok (VAttrs [("inputs", VAttrs [("dep", VAttrs [("url", VString "dep")])]);
                ("outputs", VLambda true ["self"; "dep"])])
  else if String.eqb p "/src/mid//flake.nix" then
    Ok (VAttrs [("inputs",
                 VAttrs [("foo", VAttrs [("follows", VString "nixpkgs")]);
                         ("nixpkgs", VAttrs [("url", VString "leaf")])]);
                ("outputs", VLambda true ["self"; "foo"; "nixpkgs"])])
  else if String.eqb p "/src/outer//flake.nix" then
    Ok (VAttrs [("inputs", VAttrs [("mid", VAttrs [("url", VString "mid")])]);
                ("outputs", VLambda true ["self"; "mid"])])
  else if String.eqb p "/src/root//flake.nix" then
    Ok (VAttrs [("inputs",
                 VAttrs [("foo", VAttrs [("follows", VString "nixpkgs")]);
                         ("nixpkgs", VAttrs [("url", VString "leaf")])]);
                ("outputs", VLambda true ["self"; "foo"; "nixpkgs"])])
  else Throw EvalError.

Definition world1 : World := exampleWorld files1 noLocks neverSet.

(** The same world, except that an uninitialised [hasOverride] reads as
    [true]. *)
Definition alwaysSet : InputPath -> bool := fun _ => true.

Definition staleWorld : World := exampleWorld files1 noLocks alwaysSet.

(** [--no-write-lock-file]. *)
Definition noWriteFlags : LockFlags :=
  mkLockFlags false true false true true false [] [].

(** The input [dep] as [app] declares it, and an old lock node that pins it
    to revision [r0]. *)
Definition depInput : FlakeInput :=
  mkFlakeInput (Some (gitRef "dep")) true None false [].

Definition depLockedAt (rev : string) : Edge :=
  ELocked (gitRefAt "dep" rev) (gitRef "dep") true [].

(** [app] comes with a lock file that pins [dep] to [r0]. *)
Definition locks1 (p : Path) : Outcome LockFile :=
  if String.eqb p "/src/app//flake.lock"
  then Ok (mkLockFile [("dep", depLockedAt "r0")])
  else Ok (mkLockFile []).

Definition lockedWorld : World := exampleWorld files1 locks1 neverSet.

(** The input [foo] of [mid]: [follows = "nixpkgs"], from a manifest. *)
Definition fooInput : FlakeInput :=
  mkFlakeInput None true (Some ["nixpkgs"]) false [].

(** [--override-input dep fork] with [--no-write-lock-file]. *)
Definition overrideFlags : LockFlags :=
  mkLockFlags false true false true true false
    [(["dep"], gitRef "fork")] [].

(** Pure mode: no new mutable lock entries. *)
Definition pureFlags : LockFlags :=
  mkLockFlags false true true true false false [] [].

End Examples.

(* ===================================================================== *)
(** ** Predicates the statements use *)

Module Behaviour.
Import Flake.

(** The outcome of a call that came back, by return or by exception. *)
Definition settled {A} (o : Outcome A) : Prop :=
  match o with
  | Ok _ | Throw _ => True
  | AssertFail | OutOfFuel => False
  end.

(** Events that leave the source tree of the top-level flake alone. *)
Definition quiet (ev : Event) : bool :=
  match ev with
  | EvFetch _ | EvWarn _ => true
  | EvWriteLock _ _ | EvMarkChangedFile _ _ _ => false
  end.

(** A computation that only appends to the fetch cache, only fetches and
    warns, and hands the [parents] stack back as it found it whenever it
    comes back. *)
Definition steady {A} (m : M A) : Prop :=
  forall st,
    (exists l, flakeCache (snd (m st)) = flakeCache st ++ l)
    /\ (exists evs, trace (snd (m st)) = trace st ++ evs
                    /\ forallb quiet evs = true)
    /\ (settled (fst (m st)) -> parents (snd (m st)) = parents st).

Definition steadyComputeLocks (rec : ComputeLocks) : Prop :=
  forall flakeInputs node prefix oldNode ovs,
    steady (rec flakeInputs node prefix oldNode ovs).

(** A cache entry from which [getFlake] succeeds. *)
Definition loadable (w : World) (r : FlakeRef) (fetched : FetchedFlake)
  : Prop :=
  match narHash (input r) with
  | None => True
  | Some _ => String.eqb (storePath (fst fetched))
                (computeStorePath w (input r)) = true
  end
  /\ exists fl, forall st, exists st',
        readFlake w r (fst fetched, r, snd fetched) st = (Ok fl, st').

(** Every reference on the [parents] stack got there past the mutability
    guard and is in the fetch cache with an entry its flake loads from. *)
Definition parentsLoaded (w : World) (flags : LockFlags) (st : State)
  : Prop :=
  forall r,
    In r (parents st) ->
    (allowMutable flags = true \/ isImmutable w (input r) = true)
    /\ exists fetched,
         lookupInFlakeCache (flakeCache st) r = Some fetched
         /\ loadable w r fetched.

(** A computation whose outcome does not depend on the state and which
    leaves the state alone. *)
Definition stateless {A} (m : M A) : Prop :=
  exists o, forall st, m st = (o, st).

(** How [printOverrides] writes one override that has a ref. *)
Definition render (w : World) (item : InputPath * FlakeRef) : string :=
  (printInputPath w (fst item) ++ "=" ++ showFlakeRef w (snd item))%string.

(** The overrides with a ref in the subtree of an entry, each with its input
    path, the entry itself first and its children in key order. *)
Fixpoint overrideRefs (path : InputPath) (ov : FlakeInput)
  : list (InputPath * FlakeRef) :=
  match ov with
  | mkFlakeInput oref _ _ _ children =>
      match oref with Some r => [(path, r)] | None => [] end
      ++ (fix go (m : list (FlakeId * FlakeInput)) :=
            match m with
            | [] => []
            | (id, c) :: m' => overrideRefs (path ++ [id]) c ++ go m'
            end) children
  end.

Fixpoint overridesRefs (prefix : InputPath) (m : FlakeInputs)
  : list (InputPath * FlakeRef) :=
  match m with
  | [] => []
  | (id, c) :: m' => overrideRefs (prefix ++ [id]) c ++ overridesRefs prefix m'
  end.

(** [carries m path r]: going down [path] from the overrides [m] leads to an
    entry whose ref is [r]. *)
Inductive carries : FlakeInputs -> InputPath -> FlakeRef -> Prop :=
| carries_here m id ov r :
    In (id, ov) m -> ref ov = Some r -> carries m [id] r
| carries_below m id ov path r :
    In (id, ov) m -> carries (overrides ov) path r ->
    carries m (id :: path) r.

(** Every override listed for an entry is the entry itself, with its ref,
    or is carried by the entry's children. *)
Definition listedIsCarried (ov : FlakeInput) : Prop :=
  forall path p r,
    In (p, r) (overrideRefs path ov) ->
    (p = path /\ ref ov = Some r)
    \/ exists sub, p = path ++ sub /\ carries (overrides ov) sub r.

(** One more piece on the stream of [printOverrides]. *)
Definition addItem (acc : string * bool) (piece : string) : string * bool :=
  (((if snd acc then fst acc else fst acc ++ ", ") ++ piece)%string, false).

End Behaviour.

(* ===================================================================== *)
(** ** [fetchers.cc]: the registry of input schemes *)

Module Schemes.

Section WithURL.

(** [struct ParsedURL] is declared in [url.hh]; the registry only hands it
    on to the schemes. *)
Variable ParsedURL : Type.

(** [struct InputScheme]: its two virtual constructors.  A scheme answers
    with no input when the URL or the attributes are not its own, and may
    throw when they are and are malformed. *)
Record InputScheme : Type := mkInputScheme {
  schemeFromURL : ParsedURL -> Outcome (option Input);
  schemeFromAttrs : Attrs -> Outcome (option Input)
}.

(** The global [inputSchemes]: a pointer, null until the first scheme is
    registered. *)
Definition Registry : Type := option (list InputScheme).

(** What a lookup in the registry comes to.  [NullRegistry] is the
    dereference of the null [inputSchemes], where the source has no defined
    behaviour. *)
Inductive Made : Type :=
| MadeInput (i : Input)
| Unsupported
| SchemeThrew (e : Error)
| SchemeAborted
| NullRegistry.

(** [void registerInputScheme(std::unique_ptr<InputScheme> &&)] *)
Definition registerInputScheme (inputScheme : InputScheme)
    (inputSchemes : Registry) : Registry :=
  match inputSchemes with
  | None => Some [inputScheme]
  | Some l => Some (l ++ [inputScheme])
  end.

(** The loop of [inputFromURL(const ParsedURL &)]. *)
Fixpoint fromURLLoop (l : list InputScheme) (url : ParsedURL) : Made :=
  match l with
  | [] => Unsupported
  | inputScheme :: rest =>
      match schemeFromURL inputScheme url with
      | Ok (Some res) => MadeInput res
      | Ok None => fromURLLoop rest url
      | Throw e => SchemeThrew e
      | AssertFail | OutOfFuel => SchemeAborted
      end
  end.

(** [std::unique_ptr<Input> inputFromURL(const ParsedURL & url)] *)
Definition inputFromURL (inputSchemes : Registry) (url : ParsedURL) : Made :=
  match inputSchemes with
  | None => NullRegistry
  | Some l => fromURLLoop l url
  end.

(** [Hash(const std::string &)], from [hash.hh]: parsing can throw. *)
Variable parseHash : string -> Outcome Hash.

(** The loop of [inputFromAttrs]; [attrs2] is [attrs] without [narHash]. *)
Fixpoint fromAttrsLoop (l : list InputScheme) (attrs attrs2 : Attrs) : Made :=
  match l with
  | [] => Unsupported
  | inputScheme :: rest =>
      match schemeFromAttrs inputScheme attrs2 with
      | Ok (Some res) =>
          match StdMap.get "narHash" attrs with
          | Some narHash =>
              match parseHash narHash with
              | Ok h => MadeInput (mkInput (inAttrs res) (Some h))
              | Throw e => SchemeThrew e
              | AssertFail | OutOfFuel => SchemeAborted
              end
          | None => MadeInput res
          end
      | Ok None => fromAttrsLoop rest attrs attrs2
      | Throw e => SchemeThrew e
      | AssertFail | OutOfFuel => SchemeAborted
      end
  end.

(** [std::unique_ptr<Input> inputFromAttrs(const Attrs & attrs)] *)
Definition inputFromAttrs (inputSchemes : Registry) (attrs : Attrs) : Made :=
  let attrs2 := StdMap.erase "narHash" attrs in
  match inputSchemes with
  | None => NullRegistry
  | Some l => fromAttrsLoop l attrs attrs2
  end.

(** The virtual [Input::toAttrsInternal] and [Input::type] of the scheme,
    and [Hash::to_string(SRI)]. *)
Variable toAttrsInternal : Input -> Attrs.
Variable type : Input -> string.
Variable hashToSRI : Hash -> string.

(** [Attrs Input::toAttrs() const] *)
Definition toAttrs (self : Input) : Attrs :=
  let attrs := toAttrsInternal self in
  let attrs :=
    match narHash self with
    | Some h => StdMap.emplace "narHash" (hashToSRI h) attrs
    | None => attrs
    end in
  StdMap.emplace "type" (type self) attrs.

End WithURL.

End Schemes.

(** Two schemes for the examples: [git] takes the attribute sets and URLs
    of type [git], [anything] takes them all. *)
Module SchemeExamples.
Import Schemes.

Definition typed (t : string) (a : Attrs) : bool :=
  option_eqb String.eqb (StdMap.get "type" a) (Some t).

Definition gitScheme : InputScheme Attrs :=
  mkInputScheme
    (fun url => if typed "git" url then Ok (Some (mkInput url None))
                else Ok None)
    (fun a => if typed "git" a then Ok (Some (mkInput a None)) else Ok None).

Definition anyScheme : InputScheme Attrs :=
  mkInputScheme
    (fun url => Ok (Some (mkInput [("type", "any")] None)))
    (fun a => Ok (Some (mkInput [("type", "any")] None))).

Definition gitAttrs : Attrs :=
  [("narHash", "sha256-abc"); ("type", "git"); ("url", "https://x/y")].

Definition sriHash : string -> Outcome Hash :=
  fun s => if String.prefix "sha256-" s then Ok s else Throw HashMismatch.

End SchemeExamples.

(* ===================================================================== *)
(** ** Notions the further facts are stated with *)

Module Laws.
Import Flake.

(** The references fetched by a list of events, in order. *)
Definition fetchedRefs (evs : list Event) : list FlakeRef :=
  flat_map (fun ev => match ev with EvFetch r => [r] | _ => [] end) evs.

(** The attribute names [getFlake] accepts in [flake.nix] (the chain of
    comparisons at lines 289-292). *)
Definition supportedAttrs : list string :=
  ["edition"; "description"; "inputs"; "outputs"].

(** [flake.nix] of a tree, as [getFlake] locates it (line 235). *)
Definition flakeFileOf (w : World) (tree : Tree) (lockedRef : FlakeRef)
  : Path :=
  canonPath w
    (actualPath tree ++ "/" ++ subdir lockedRef ++ "/flake.nix")%string.

(** A flake as a later [getFlake] for the same reference returns it: served
    from the cache, so nothing was resolved and the reference asked for
    is reported as the resolved one. *)
Definition servedFromCache (fl : Flake) : Flake :=
  mkFlake (flOriginalRef fl) (flOriginalRef fl) (flLockedRef fl)
    (sourceInfo fl) (description fl) (inputs fl) (vOutputs fl).

(** An input the loop at line 356 can lock: it follows another input or
    has a reference, so [assert(input.ref)] holds for it. *)
Definition lockable (i : FlakeInput) : Prop :=
  follows i <> None \/ ref i <> None.

(** The reference the overrides hold for an input path, if any. *)
Fixpoint refAt (overrides : FlakeInputs) (path : InputPath)
  : option FlakeRef :=
  match path with
  | [] => None
  | id :: rest =>
      match StdMap.get id overrides with
      | None => None
      | Some ov =>
          match rest with
          | [] => ref ov
          | _ :: _ => refAt (Flake.overrides ov) rest
          end
      end
  end.

(** The overrides [lockFlake] starts from (lines 328-330). *)
Definition overridesOf (lockFlags : LockFlags) : FlakeInputs :=
  fold_left (fun ovs kv => setOverride ovs (fst kv) (snd kv))
    (inputOverrides lockFlags) [].

(** No key occurs twice in the overrides of an entry, at any depth, as in
    the [std::map]s of the source. *)
Fixpoint uniqueKeys (i : FlakeInput) : bool :=
  match i with
  | mkFlakeInput _ _ _ _ children =>
      (fix go (m : list (FlakeId * FlakeInput)) : bool :=
         match m with
         | [] => true
         | (id, c) :: m' =>
             negb (StdMap.count id m') && uniqueKeys c && go m'
         end) children
  end.

Fixpoint allUniqueKeys (m : FlakeInputs) : bool :=
  match m with
  | [] => true
  | (id, c) :: m' =>
      negb (StdMap.count id m') && uniqueKeys c && allUniqueKeys m'
  end.

(** What merging a new entry into an existing one gives: the new ref where
    there is one, and below it the new overrides before the existing
    ones. *)
Definition merges (child : FlakeInput) : Prop :=
  uniqueKeys child = true ->
  forall existing,
    ref (mergeExisting child existing)
    = match ref child with Some r => Some r | None => ref existing end
    /\ forall q,
         refAt (overrides (mergeExisting child existing)) q
         = match refAt (overrides child) q with
           | Some r => Some r
           | None => refAt (overrides existing) q
           end.

(** A computation that adds only fetches and warnings to the events. *)
Definition quietly {A} (m : M A) : Prop :=
  forall st, exists evs,
    trace (snd (m st)) = trace st ++ evs /\ forallb Behaviour.quiet evs = true.

(** A computation that writes no lock file other than those [P] admits. *)
Definition writesOnly {A} (P : Path -> LockFile -> Prop) (m : M A) : Prop :=
  forall st p l,
    In (EvWriteLock p l) (trace (snd (m st))) ->
    In (EvWriteLock p l) (trace st) \/ P p l.

(** Where [lockFlake] writes the lock file of [topRef] (lines 544-546). *)
Definition lockFilePathOf (topRef : FlakeRef) (sourcePath : Path) : Path :=
  (sourcePath ++ "/"
   ++ ((if String.eqb (subdir topRef) "" then "" else subdir topRef ++ "/")
       ++ "flake.lock"))%string.

(** What holds of every lock file [lockFlake] writes. *)
Definition writable (w : World) (topRef : FlakeRef) (lockFlags : LockFlags)
    (p : Path) (l : LockFile) : Prop :=
  lockIsImmutable w l = true
  /\ lockCheck l = Ok tt
  /\ writeLockFile lockFlags = true
  /\ updateLockFile lockFlags = true
  /\ exists sourcePath,
       getSourcePath w (input topRef) = Some sourcePath
       /\ p = lockFilePathOf topRef sourcePath.

(** The elements of a [std::set<InputPath>], as iteration meets them. *)
Fixpoint increasingPaths (s : list InputPath) : bool :=
  match s with
  | [] => true
  | p :: s' => forallb (InputPath_ltb p) s' && increasingPaths s'
  end.

(** The overrides with the entries for the given ids taken out. *)
Definition eraseAll (ids : list FlakeId) (overrides : FlakeInputs)
  : FlakeInputs :=
  fold_left (fun o id => StdMap.erase id o) ids overrides.

(** The lock entry an input gets is a [follows] path exactly when the input
    has [follows]. *)
Definition sameKind (e : Edge) (i : FlakeInput) : Prop :=
  match e with
  | EFollows _ => follows i <> None
  | ELocked _ _ _ _ => follows i = None
  end.

(** [flake.lock] of a loaded flake, as [lockFlake] locates it (line 321). *)
Definition lockFileOf (fl : Flake) : Path :=
  (actualPath (sourceInfo fl) ++ "/" ++ subdir (flLockedRef fl)
   ++ "/flake.lock")%string.

(** The state [lockFlake] starts from: its own cache, [parents] and
    [updatesUsed], all empty. *)
Definition fresh (st : State) : State :=
  withUpdatesUsed [] (withParents [] (withFlakeCache [] st)).

(** A computation that drops no path from [updatesUsed]. *)
Definition keepsUsed {A} (m : M A) : Prop :=
  forall st p,
    pathCount p (updatesUsed st) = true ->
    pathCount p (updatesUsed (snd (m st))) = true.

End Laws.

(* ===================================================================== *)
(** ** [db.cc]: the keys of the state tables *)

Module Db.

(** What the state functions of [db.cc] throw: the two [Error]s of their own
    and whatever Berkeley DB reports ([rethrow]). *)
Inductive DbError : Type :=
| MalformedRevision (revisionedStatePath : string)
| InvalidRevision
| BerkeleyDb (what : string).

(** [OutOfRange] is the [std::out_of_range] of [std::string::substr]; it is
    not an [Error] and no [catch] of the file sees it. *)
Inductive Res (A : Type) : Type :=
| Ret (a : A)
| Err (e : DbError)
| OutOfRange.
Arguments Ret {A} a.
Arguments Err {A} e.
Arguments OutOfRange {A}.

Definition rbind {A B} (r : Res A) (k : A -> Res B) : Res B :=
  match r with
  | Ret a => k a
  | Err e => Err e
  | OutOfRange => OutOfRange
  end.

Notation "'let!' x ':=' r 'in' k" := (rbind r (fun x => k))
  (at level 10, x pattern, r at level 100, k at level 200).

(** [string prefix = "-REV-";] in both functions. *)
Definition prefix : string := "-REV-".

(** Whether [c] is one of the characters of [set]. *)
Fixpoint occurs (c : ascii) (set : string) : bool :=
  match set with
  | EmptyString => false
  | String d set' => Ascii.eqb c d || occurs c set'
  end.

Fixpoint find_last_not_of_from (set s : string) (i : nat)
    (found : option nat) : option nat :=
  match s with
  | EmptyString => found
  | String c s' =>
      find_last_not_of_from set s' (S i)
        (if occurs c set then found else Some i)
  end.

(** [s.find_last_not_of(set)]: the index of the last character of [s] that
    is none of the characters of [set]; [None] is [npos]. *)
Definition find_last_not_of (s set : string) : option nat :=
  find_last_not_of_from set s 0 None.

(** A value as a [size_t] (64 bits) and as an [int] (32 bits, two's
    complement), which is what a conversion to the type leaves of it. *)
Definition size_t (z : Z) : Z := (z mod 2 ^ 64)%Z.

Definition int (z : Z) : Z := ((z + 2 ^ 31) mod 2 ^ 32 - 2 ^ 31)%Z.

(** The values of type [int]. *)
Definition isInt (z : Z) : Prop := (- 2 ^ 31 <= z < 2 ^ 31)%Z.

(** [std::string::npos], the largest [size_t]. *)
Definition npos : Z := (2 ^ 64 - 1)%Z.

(** [s.substr(pos, n)] for [size_t] arguments: [std::out_of_range] when
    [pos] is beyond the end, otherwise at most [n] characters from [pos]. *)
Definition substr (s : string) (pos n : Z) : Res string :=
  if (Z.of_nat (String.length s) <? pos)%Z then OutOfRange
  else
    Ret (String.substring (Z.to_nat pos)
           (Z.to_nat (Z.min n (Z.of_nat (String.length s) - pos))) s).

Section WithUtil.

(** [int2String] and [string2Int] of [util.hh]; the latter answers whether
    all of the string is a number.  Revisions are [int]s. *)
Variable int2String : Z -> string.
Variable string2Int : string -> option Z.

(** [Path Database::makeStatePathRevision(const Path &, const int)] *)
Definition makeStatePathRevision (statePath : string) (revision : Z)
  : string :=
  (statePath ++ prefix ++ int2String revision)%string.

(** [void Database::splitStatePathRevision(const Path &, Path &, int &)];
    the result is [(statePath, revision)].  [find_last_not_of] returns a
    [size_t] that is stored in [int pos]: [npos] becomes -1, and an index
    from 2^31 on does not fit and wraps.  [pos - prefix.length()] is
    computed as [size_t], as is the [pos] handed to [substr]. *)
Definition splitStatePathRevision (revisionedStatePath : string)
  : Res (string * Z) :=
  let pos : Z :=
    int match find_last_not_of revisionedStatePath prefix with
        | Some i => Z.of_nat i
        | None => npos
        end in
  let! statePath :=
    substr revisionedStatePath 0
      (size_t (pos - Z.of_nat (String.length prefix))) in
  let! r :=
    substr revisionedStatePath (size_t pos)
      (Z.of_nat (String.length revisionedStatePath)) in
  match string2Int r with
  | Some revision => Ret (statePath, revision)
  | None => Err (MalformedRevision revisionedStatePath)
  end.

(** The loop of [queryStateReferences] (lines 507-524) from the key at hand
    on; the pair is [key] and [highestRev], and finding the wanted revision
    leaves the loop. *)
Fixpoint selectKey (statePath : string) (revision : Z) (keys : list string)
    (key : string) (highestRev : Z) : Res (string * Z) :=
  match keys with
  | [] => Ret (key, highestRev)
  | i :: rest =>
      let! (getStatePath, getRevision) := splitStatePathRevision i in
      if String.eqb getStatePath statePath then
        if (revision =? -1)%Z then
          selectKey statePath revision rest key
            (if (getRevision >? highestRev)%Z then getRevision
             else highestRev)
        else if (revision =? getRevision)%Z then Ret (i, highestRev)
        else selectKey statePath revision rest key highestRev
      else selectKey statePath revision rest key highestRev
  end.

(** Berkeley DB behind one table and one transaction: [enumTable] without
    key prefix, and [queryStrings], which answers [None] where the source
    returns [false]. *)
Variable enumTable : Res (list string).
Variable queryStrings : string -> Res (option (list string)).

(** [bool Database::queryStateReferences(...)], lines 493-534; [None] is
    [false], otherwise the references. *)
Definition queryStateReferences (statePath : string) (revision : Z)
  : Res (option (list string)) :=
  let! keys := enumTable in
  let! (key, highestRev) := selectKey statePath revision keys "" (-1)%Z in
  if String.eqb key "" && (highestRev =? -1)%Z then Ret None
  else
    let key :=
      if (revision =? -1)%Z then makeStatePathRevision statePath highestRev
      else key in
    queryStrings key.

End WithUtil.

End Db.

(** Decimal digits for the examples: one-digit numbers print as their
    digit, the others here as ["10"]. *)
Module DbExamples.

Definition digit (z : Z) : string :=
  String (Ascii.ascii_of_nat (48 + Z.to_nat z)) EmptyString.

Definition int2String (z : Z) : string :=
  if ((0 <=? z) && (z <? 10))%Z then digit z else "10".

Definition string2Int (s : string) : option Z :=
  match s with
  | String c EmptyString =>
      let n := Ascii.nat_of_ascii c in
      if Nat.leb 48 n && Nat.leb n 57 then Some (Z.of_nat (n - 48)) else None
  | "10" => Some 10%Z
  | _ => None
  end.

End DbExamples.

(* ===================================================================== *)
(** ** How a run comes to a turn of the loop *)

Module Runs.
Import Flake Behaviour.

Section ComesTo.
Variable w : World.
Variable flags : LockFlags.

(** What holds of the turn that is come to: of the input after its
    override, of its reference, and of the state in which line 459 is
    reached. *)
Variable Q : FlakeInput -> FlakeRef -> State -> Prop.

(** [comesTo fuel flakeInputs node prefix oldNode overrides st]: the call
    of [computeLocks] with these arguments in state [st] comes, in its own
    loop or in a call nested below it, to a turn that needs a new lock entry
    (the [else] at line 457) and of which [Q] holds.  The inputs before
    that turn have been locked; where the turn is in a nested call, the
    turn around that call has got as far as the call: on the way of a new
    entry (lines 459-498) it has passed the mutability test, loaded the
    flake, found its reference absent from [parents] and pushed it, and
    read the flake's own lock file where there is no old entry; on the way
    of a kept entry (lines 410-455) it has loaded the flake where an update
    below it is asked for. *)
Inductive comesTo
  : nat -> FlakeInputs -> NodeInputs -> InputPath -> option NodeInputs ->
    FlakeInputs -> State -> Prop :=
| comesTo_here fuel before id originalInput after node prefix oldNode ovs st
    before' node1 ovs1 st1 input hasOverride ovs2 inputRef :
    lockInputs w flags (computeLocks w flags fuel) before node prefix oldNode
      ovs st = (Ok (before', node1, ovs1), st1) ->
    applyOverride w (prefix ++ [id]) id originalInput ovs1
      = (input, hasOverride, ovs2) ->
    follows input = None ->
    ref input = Some inputRef ->
    keepOldLock (findOldLock flags oldNode (prefix ++ [id]) id) inputRef
      hasOverride = false ->
    Q input inputRef
      (withUpdatesUsed (pathInsert (prefix ++ [id]) (updatesUsed st1)) st1) ->
    comesTo (S fuel) (before ++ (id, originalInput) :: after) node prefix
      oldNode ovs st
| comesTo_below_new fuel before id originalInput after node prefix oldNode ovs
    st before' node1 ovs1 st1 input hasOverride ovs2 inputRef inputFlake st2
    oldBase :
    lockInputs w flags (computeLocks w flags fuel) before node prefix oldNode
      ovs st = (Ok (before', node1, ovs1), st1) ->
    applyOverride w (prefix ++ [id]) id originalInput ovs1
      = (input, hasOverride, ovs2) ->
    follows input = None ->
    ref input = Some inputRef ->
    keepOldLock (findOldLock flags oldNode (prefix ++ [id]) id) inputRef
      hasOverride = false ->
    allowMutable flags = true \/ isImmutable w (Flake.input inputRef) = true ->
    isFlake input = true ->
    getFlake w inputRef (useRegistries flags)
      (withUpdatesUsed (pathInsert (prefix ++ [id]) (updatesUsed st1)) st1)
      = (Ok inputFlake, st2) ->
    existsb (fun parent => FlakeRef_eqb parent inputRef) (parents st2)
      = false ->
    match findOldLock flags oldNode (prefix ++ [id]) id with
    | Some ol => lnInputs ol = oldBase
    | None =>
        exists lf,
          readLockFile w
            (actualPath (sourceInfo inputFlake) ++ "/"
             ++ subdir (flLockedRef inputFlake) ++ "/flake.lock")%string
          = Ok lf
          /\ root lf = oldBase
    end ->
    comesTo fuel (inputs inputFlake) [] (prefix ++ [id]) (Some oldBase)
      (overrides input) (withParents (parents st2 ++ [inputRef]) st2) ->
    comesTo (S fuel) (before ++ (id, originalInput) :: after) node prefix
      oldNode ovs st
| comesTo_below_kept fuel before id originalInput after node prefix oldNode
    ovs st before' node1 ovs1 st1 input hasOverride ovs2 inputRef ol
    childFlakeInputs st2 :
    lockInputs w flags (computeLocks w flags fuel) before node prefix oldNode
      ovs st = (Ok (before', node1, ovs1), st1) ->
    applyOverride w (prefix ++ [id]) id originalInput ovs1
      = (input, hasOverride, ovs2) ->
    follows input = None ->
    ref input = Some inputRef ->
    findOldLock flags oldNode (prefix ++ [id]) id = Some ol ->
    keepOldLock (Some ol) inputRef hasOverride = true ->
    (if hasChildUpdate flags (prefix ++ [id])
     then exists inputFlake,
            getFlake w (lockedRef ol) false
              (withUpdatesUsed (pathInsert (prefix ++ [id]) (updatesUsed st1))
                 st1)
            = (Ok inputFlake, st2)
            /\ childFlakeInputs = inputs inputFlake
     else childFlakeInputs = fakeInputsOf (lnInputs ol) []
          /\ st2 = withUpdatesUsed
                     (pathInsert (prefix ++ [id]) (updatesUsed st1)) st1) ->
    comesTo fuel childFlakeInputs [] (prefix ++ [id]) (Some (lnInputs ol))
      (overrides input) st2 ->
    comesTo (S fuel) (before ++ (id, originalInput) :: after) node prefix
      oldNode ovs st.

End ComesTo.

(** The turn needs a new lock entry for a mutable reference. *)
Definition mutableRef (w : World) (input : FlakeInput) (inputRef : FlakeRef)
    (st : State) : Prop :=
  isImmutable w (Flake.input inputRef) = false.

(** The turn needs a new lock entry for a flake whose reference is on the
    [parents] stack. *)
Definition onParents (input : FlakeInput) (inputRef : FlakeRef) (st : State)
  : Prop :=
  isFlake input = true
  /\ existsb (fun parent => FlakeRef_eqb parent inputRef) (parents st) = true.

(** [lockFlakeComesTo w fuel topRef flags Q st]: the call of [lockFlake]
    for [topRef] in state [st] loads the top-level flake and reads its lock
    file, and its call of [computeLocks] (line 516) comes to a turn of which
    [Q] holds. *)
Definition lockFlakeComesTo (w : World) (fuel : nat) (topRef : FlakeRef)
    (flags : LockFlags) (Q : FlakeInput -> FlakeRef -> State -> Prop)
    (st : State) : Prop :=
  flakesEnabled w = true
  /\ exists flake0 st1 oldLockFile,
       getFlake w topRef (useRegistries flags) (Laws.fresh st)
       = (Ok flake0, st1)
       /\ readLockFile w (Laws.lockFileOf flake0) = Ok oldLockFile
       /\ comesTo w flags Q fuel (inputs flake0) [] []
            (if recreateLockFile flags then None
             else Some (root oldLockFile))
            (Laws.overridesOf flags) st1.

End Runs.

(* ===================================================================== *)
(** ** Facts *)


(** *** Boolean equalities decide equality *)

Lemma option_eqb_string_true (a b : option string) :
  option_eqb String.eqb a b = true -> a = b.
Proof.
  destruct a as [x|], b as [y|]; simpl; try discriminate; auto.
  intros H. apply String.eqb_eq in H. now subst.
Qed.

Lemma option_eqb_string_refl (a : option string) :
  option_eqb String.eqb a a = true.
Proof. destruct a; simpl; auto using String.eqb_refl. Qed.

Module StdMapFacts.
Import StdMap.

Section Lookup.
Variable V : Type.
Implicit Types (m : StdMap.t V) (k : string) (v : V).

Lemma get_insertSorted_same k v m :
  get k m = None -> get k (insertSorted k v m) = Some v.
Proof.
  induction m as [|[k' v'] m IH]; simpl; intros H.
  - now rewrite String.eqb_refl.
  - destruct (String.eqb k k') eqn:E; [discriminate|].
    destruct (String.ltb k k'); simpl.
    + now rewrite String.eqb_refl.
    + rewrite E. auto.
Qed.

Lemma get_insertSorted_other k k' v m :
  k' <> k -> get k' (insertSorted k v m) = get k' m.
Proof.
  intros Hne. induction m as [|[k0 v0] m IH]; simpl.
  - apply String.eqb_neq in Hne. now rewrite Hne.
  - destruct (String.ltb k k0); simpl.
    + apply String.eqb_neq in Hne. now rewrite Hne.
    + now rewrite IH.
Qed.

Lemma get_adjust_same f k m :
  get k (adjust f k m) = option_map f (get k m).
Proof.
  induction m as [|[k' v'] m IH]; simpl; [reflexivity|].
  destruct (String.eqb k k') eqn:E; simpl; rewrite E; auto.
Qed.

Lemma get_adjust_other f k k' m :
  k' <> k -> get k' (adjust f k m) = get k' m.
Proof.
  intros Hne. induction m as [|[k0 v0] m IH]; simpl; [reflexivity|].
  destruct (String.eqb k k0) eqn:E; simpl.
  - apply String.eqb_eq in E. subst k0.
    apply String.eqb_neq in Hne. now rewrite Hne.
  - now rewrite IH.
Qed.

Lemma get_insert_or_assign_same k v m :
  get k (insert_or_assign k v m) = Some v.
Proof.
  unfold insert_or_assign, count.
  destruct (get k m) eqn:E.
  - now rewrite get_adjust_same, E.
  - now apply get_insertSorted_same.
Qed.

Lemma get_insert_or_assign_other k k' v m :
  k' <> k -> get k' (insert_or_assign k v m) = get k' m.
Proof.
  intros Hne. unfold insert_or_assign.
  destruct (count k m); auto using get_adjust_other, get_insertSorted_other.
Qed.

Lemma get_emplace_absent k v m :
  get k m = None -> get k (emplace k v m) = Some v.
Proof.
  intros H. unfold emplace, count. rewrite H.
  now apply get_insertSorted_same.
Qed.

Lemma get_emplace_present k v v0 m :
  get k m = Some v0 -> emplace k v m = m.
Proof. intros H. unfold emplace, count. now rewrite H. Qed.

Lemma get_emplace_other k k' v m :
  k' <> k -> get k' (emplace k v m) = get k' m.
Proof.
  intros Hne. unfold emplace.
  destruct (count k m); auto using get_insertSorted_other.
Qed.

Lemma get_erase_same_absent k m :
  get k m = None -> erase k m = m.
Proof.
  induction m as [|[k' v'] m IH]; simpl; [reflexivity|].
  destruct (String.eqb k k'); [discriminate|].
  intros H. now rewrite IH.
Qed.

End Lookup.
End StdMapFacts.

Module FetchersFacts.
Import Fetchers.

Lemma substituteTree_ok store self st tree st' :
  substituteTree store self st = (Ok tree, st') ->
  infoNarHash (info tree) = narHash self /\ narHash self <> None.
Proof.
  unfold substituteTree.
  destruct (narHash self) as [h|]; [|discriminate].
  destruct (ensurePath store _); try discriminate.
  intros H. injection H as <- _. simpl. split; [reflexivity|discriminate].
Qed.

Lemma fetchTree_backend_ok store self st tree oi st' :
  fetchTree_backend store self st = (Ok (tree, oi), st') ->
  exists t0 i0,
    fetchTreeInternal store self = Ok (t0, i0)
    /\ oi = Some i0
    /\ storePath tree = storePath t0
    /\ (narHash self <> None -> narHash i0 = narHash self)
    /\ (narHash i0 <> None -> infoNarHash (info tree) = narHash i0)
    /\ match infoNarHash (info t0) with
       | Some h => infoNarHash (info tree) = Some h
       | None =>
           exists h, queryPathInfo_narHash store (storePath t0) = Ok h
                     /\ infoNarHash (info tree) = Some h
       end.
Proof.
  unfold fetchTree_backend.
  destruct (fetchTreeInternal store self) as [[t0 i0]| | |]; try discriminate.
  set (tree1 := if String.eqb (actualPath t0) "" then _ else t0).
  assert (Hsp : storePath tree1 = storePath t0)
    by (unfold tree1; destruct (String.eqb _ _); reflexivity).
  assert (Hinfo : info tree1 = info t0)
    by (unfold tree1; destruct (String.eqb _ _); reflexivity).
  rewrite Hinfo, Hsp.
  intros H. exists t0, i0. split; [reflexivity|].
  destruct (infoNarHash (info t0)) as [h0|] eqn:Hh0.
  - (* the backend gave a hash *)
    destruct (narHash i0) as [hi|] eqn:Hi; simpl in H.
    + rewrite Hinfo, Hh0 in H. simpl in H.
      destruct (String.eqb hi h0) eqn:E; simpl in H; [|discriminate].
      apply String.eqb_eq in E; subst hi.
      destruct (narHash self) as [hs|] eqn:Hs; simpl in H.
      * destruct (String.eqb hs h0) eqn:E2; simpl in H; [|discriminate].
        apply String.eqb_eq in E2; subst hs.
        injection H as <- <- _. rewrite Hinfo, Hh0.
        repeat split; auto.
      * injection H as <- <- _. rewrite Hinfo, Hh0.
        repeat split; auto. intros C; now elim C.
    + destruct (narHash self) as [hs|] eqn:Hs; simpl in H; [discriminate|].
      injection H as <- <- _. rewrite Hinfo, Hh0.
      repeat split; auto; intros C; now elim C.
  - (* the hash comes from the store *)
    destruct (queryPathInfo_narHash store (storePath t0)) as [h| | |] eqn:Hq;
      try discriminate.
    destruct (narHash i0) as [hi|] eqn:Hi; simpl in H.
    + destruct (String.eqb hi h) eqn:E; simpl in H; [|discriminate].
      apply String.eqb_eq in E; subst hi.
      destruct (narHash self) as [hs|] eqn:Hs; simpl in H.
      * destruct (String.eqb hs h) eqn:E2; simpl in H; [|discriminate].
        apply String.eqb_eq in E2; subst hs.
        injection H as <- <- _. simpl.
        repeat split; eauto.
      * injection H as <- <- _. simpl.
        repeat split; eauto. intros C; now elim C.
    + destruct (narHash self) as [hs|] eqn:Hs; simpl in H; [discriminate|].
      injection H as <- <- _. simpl.
      repeat split; eauto; intros C; now elim C.
Qed.

(** C9.  Whenever [Input::fetchTree] returns a tree, the tree's NAR hash is
    set; if the tree came from the scheme's backend without one, the hash is
    the one the store's path info gives for the fetched store path; and if
    the input declared an expected NAR hash, the tree's hash is that one. *)
Theorem fetchTree_narHash_populated store self st tree oi st' :
  fetchTree store self st = (Ok (tree, oi), st') ->
  (exists h, infoNarHash (info tree) = Some h)
  /\ (forall t0 i0,
        oi <> None ->
        fetchTreeInternal store self = Ok (t0, i0) ->
        infoNarHash (info t0) = None ->
        exists h, queryPathInfo_narHash store (storePath t0) = Ok h
                  /\ infoNarHash (info tree) = Some h)
  /\ (forall h, narHash self = Some h -> infoNarHash (info tree) = Some h).
Proof.
  unfold fetchTree. intros H.
  assert (Hback : forall st0,
    fetchTree_backend store self st0 = (Ok (tree, oi), st') ->
    (exists h, infoNarHash (info tree) = Some h)
    /\ (forall t0 i0,
          oi <> None ->
          fetchTreeInternal store self = Ok (t0, i0) ->
          infoNarHash (info t0) = None ->
          exists h, queryPathInfo_narHash store (storePath t0) = Ok h
                    /\ infoNarHash (info tree) = Some h)
    /\ (forall h, narHash self = Some h -> infoNarHash (info tree) = Some h)).
  { intros st0 Hb.
    apply fetchTree_backend_ok in Hb.
    destruct Hb as (t0 & i0 & Hf & -> & Hsp & Hself & Hin & Hfill).
    split; [|split].
    - destruct (infoNarHash (info t0)); [eauto|].
      destruct Hfill as (h & _ & ->). eauto.
    - intros t1 i1 _ Hf1 Hnone. rewrite Hf in Hf1. injection Hf1 as <- <-.
      rewrite Hnone in Hfill. exact Hfill.
    - intros h Hh.
      assert (Hi : narHash i0 = Some h)
        by (rewrite <- Hh; apply Hself; rewrite Hh; discriminate).
      rewrite <- Hi. apply Hin. rewrite Hi. discriminate. }
  destruct (narHash self) as [hs|] eqn:Hs.
  - destruct (substituteTree store self st) as [[t| e | |] st1] eqn:Hsub;
      try discriminate.
    + injection H as <- <- <-.
      apply substituteTree_ok in Hsub. destruct Hsub as [Hi _].
      rewrite Hi, Hs. split; [eauto|]. split.
      * intros ? ? C. now elim C.
      * intros h Hh. now rewrite Hh.
    + eapply Hback; eauto.
  - eapply Hback; eauto.
Qed.

(** The theorem at [store1]: nothing can be substituted, the backend leaves
    the hash unset and the store supplies it. *)
Lemma fetchTree_narHash_populated_witness :
  fetchTree Examples.store1 Examples.plainInput Examples.evalState0
  = (Ok (mkTree "/nix/store/abc-source" "/nix/store/abc-source"
           (mkTreeInfo (Some "sha256-tree") None None),
         Some Examples.plainInput), Examples.evalState0)
  /\ (exists h,
        infoNarHash
          (info (mkTree "/nix/store/abc-source" "/nix/store/abc-source"
                   (mkTreeInfo (Some "sha256-tree") None None))) = Some h).
Proof.
  split; [reflexivity|].
  exact (proj1 (@fetchTree_narHash_populated Examples.store1
                  Examples.plainInput Examples.evalState0 _ _ _ eq_refl)).
Defined.

End FetchersFacts.

Module FlakeFacts.
Import Flake.

(** *** Running computations *)

Lemma bind_Ok {A B} (m : M A) (k : A -> M B) st b st' :
  bind m k st = (Ok b, st') ->
  exists a st1, m st = (Ok a, st1) /\ k a st1 = (Ok b, st').
Proof.
  unfold bind. destruct (m st) as [[a|e| |] st1]; try discriminate.
  intros H. eauto.
Qed.

Lemma bind_run {A B} (m : M A) (k : A -> M B) st a st1 :
  m st = (Ok a, st1) -> bind m k st = k a st1.
Proof. unfold bind. now intros ->. Qed.

Lemma bind_Throw {A B} (m : M A) (k : A -> M B) st e st1 :
  m st = (Throw e, st1) -> bind m k st = (Throw e, st1).
Proof. unfold bind. now intros ->. Qed.

Lemma finally_Ok {A} (body : M A) (cleanup : M unit) st a st' :
  finally body cleanup st = (Ok a, st') ->
  exists st1, body st = (Ok a, st1) /\ snd (cleanup st1) = st'.
Proof.
  unfold finally. destruct (body st) as [[x|e| |] st1]; try discriminate.
  destruct (cleanup st1) as [[u|e| |] st2] eqn:Hc; try discriminate.
  intros H. injection H as <- <-. exists st1. now rewrite Hc.
Qed.

Lemma throwIf_Ok c e st u st' :
  throwIf c e st = (Ok u, st') -> c = false /\ st' = st.
Proof.
  unfold throwIf, throw, lift, ret. destruct c; [discriminate|].
  intros H. injection H as _ <-. auto.
Qed.

(** *** Structural equality of references *)

Lemma list_eqb_eq {A} (eqb : A -> A -> bool) :
  (forall a b, eqb a b = true -> a = b) ->
  forall x y, list_eqb eqb x y = true -> x = y.
Proof.
  intros Heq. induction x as [|a x IH]; destruct y as [|b y]; simpl;
    try discriminate; auto.
  intros H. apply andb_true_iff in H. destruct H as [H1 H2].
  f_equal; auto.
Qed.

Lemma list_eqb_refl {A} (eqb : A -> A -> bool) :
  (forall a, eqb a a = true) -> forall x, list_eqb eqb x x = true.
Proof.
  intros Hr. induction x as [|a x IH]; simpl; auto.
  now rewrite Hr, IH.
Qed.

Lemma Attrs_eqb_eq a b : Attrs_eqb a b = true -> a = b.
Proof.
  apply list_eqb_eq. intros [k1 v1] [k2 v2]. unfold pair_eqb. simpl.
  intros H. apply andb_true_iff in H. destruct H as [H1 H2].
  apply String.eqb_eq in H1, H2. now subst.
Qed.

Lemma Attrs_eqb_refl a : Attrs_eqb a a = true.
Proof.
  apply list_eqb_refl. intros [k v]. unfold pair_eqb. simpl.
  now rewrite !String.eqb_refl.
Qed.

Lemma Input_eqb_eq a b : Input_eqb a b = true -> a = b.
Proof.
  destruct a as [a1 h1], b as [a2 h2]. unfold Input_eqb. simpl.
  intros H. apply andb_true_iff in H. destruct H as [H1 H2].
  apply Attrs_eqb_eq in H1. apply option_eqb_string_true in H2. now subst.
Qed.

Lemma Input_eqb_refl a : Input_eqb a a = true.
Proof.
  unfold Input_eqb. now rewrite Attrs_eqb_refl, option_eqb_string_refl.
Qed.

Lemma FlakeRef_eqb_eq a b : FlakeRef_eqb a b = true -> a = b.
Proof.
  destruct a as [i1 s1], b as [i2 s2]. unfold FlakeRef_eqb. simpl.
  intros H. apply andb_true_iff in H. destruct H as [H1 H2].
  apply Input_eqb_eq in H1. apply String.eqb_eq in H2. now subst.
Qed.

Lemma FlakeRef_eqb_refl a : FlakeRef_eqb a a = true.
Proof.
  unfold FlakeRef_eqb. now rewrite Input_eqb_refl, String.eqb_refl.
Qed.

(** *** Structural equality of lock files *)

Lemma Edge_nested_ind (P : Edge -> Prop) :
  (forall l o f children,
      Forall (fun kv => P (snd kv)) children -> P (ELocked l o f children)) ->
  (forall target, P (EFollows target)) ->
  forall e, P e.
Proof.
  intros HL HF. fix IH 1. intros [l o f children|target]; [|apply HF].
  apply HL. induction children as [|kv m IHm]; constructor;
    [apply IH | exact IHm].
Qed.

Lemma Edge_eqb_unfold l1 o1 f1 i1 l2 o2 f2 i2 :
  Edge_eqb (ELocked l1 o1 f1 i1) (ELocked l2 o2 f2 i2)
  = FlakeRef_eqb l1 l2 && FlakeRef_eqb o1 o2 && Bool.eqb f1 f2
    && NodeInputs_eqb i1 i2.
Proof.
  simpl. f_equal. unfold NodeInputs_eqb. revert i2.
  induction i1 as [|[k1 e1] x IHx]; intros [|[k2 e2] y]; simpl; auto.
  unfold pair_eqb at 1. simpl. now rewrite IHx.
Qed.

Lemma Edge_eqb_eq a : forall b, Edge_eqb a b = true -> a = b.
Proof.
  induction a as [l1 o1 f1 i1 IH|p1] using Edge_nested_ind;
    intros [l2 o2 f2 i2|p2]; try discriminate.
  - rewrite Edge_eqb_unfold. intros H.
    apply andb_true_iff in H. destruct H as [H Hi].
    apply andb_true_iff in H. destruct H as [H Hf].
    apply andb_true_iff in H. destruct H as [Hl Ho].
    apply FlakeRef_eqb_eq in Hl, Ho. apply Bool.eqb_prop in Hf. subst.
    f_equal. revert i2 Hi. unfold NodeInputs_eqb.
    induction IH as [|[k1 e1] x He Hx IHx]; intros [|[k2 e2] y]; simpl;
      try discriminate; auto.
    unfold pair_eqb at 1. simpl. intros H.
    apply andb_true_iff in H. destruct H as [H Hy].
    apply andb_true_iff in H. destruct H as [Hk He2].
    apply String.eqb_eq in Hk. apply He in He2. subst.
    f_equal. now apply IHx.
  - simpl. intros H. f_equal.
    apply (list_eqb_eq String.eqb); auto.
    intros x y E. now apply String.eqb_eq.
Qed.

Lemma Edge_eqb_refl a : Edge_eqb a a = true.
Proof.
  induction a as [l o f i IH|p] using Edge_nested_ind.
  - rewrite Edge_eqb_unfold, !FlakeRef_eqb_refl, Bool.eqb_reflx. simpl.
    unfold NodeInputs_eqb.
    induction IH as [|[k e] x He Hx IHx]; simpl; auto.
    unfold pair_eqb at 1. simpl in *. now rewrite String.eqb_refl, He, IHx.
  - simpl. apply list_eqb_refl. apply String.eqb_refl.
Qed.

(** [LockFile_eqb] decides equality of lock files. *)
Lemma LockFile_eqb_iff a b : LockFile_eqb a b = true <-> a = b.
Proof.
  destruct a as [x], b as [y]. unfold LockFile_eqb, NodeInputs_eqb. simpl.
  split.
  - intros H. f_equal. revert H. apply list_eqb_eq.
    intros [k1 e1] [k2 e2]. unfold pair_eqb. simpl. intros H.
    apply andb_true_iff in H. destruct H as [Hk He].
    apply String.eqb_eq in Hk. apply Edge_eqb_eq in He. now subst.
  - intros H. injection H as ->. apply list_eqb_refl.
    intros [k e]. unfold pair_eqb. simpl.
    now rewrite String.eqb_refl, Edge_eqb_refl.
Qed.

(** *** What [applyOverride] leaves in the input *)

Lemma setOverrides_fields self newOverrides :
  ref (setOverrides self newOverrides) = ref self
  /\ isFlake (setOverrides self newOverrides) = isFlake self
  /\ follows (setOverrides self newOverrides) = follows self
  /\ absolute (setOverrides self newOverrides) = absolute self.
Proof. unfold setOverrides, set_overrides. simpl. auto. Qed.

Lemma applyOverride_ref_overridden w inputPath id originalInput ovs mo r :
  StdMap.get id ovs = Some mo ->
  ref mo = Some r ->
  exists input ovs',
    applyOverride w inputPath id originalInput ovs = (input, true, ovs')
    /\ ref input = Some r
    /\ isFlake input = isFlake originalInput
    /\ follows input = follows originalInput
    /\ absolute input = absolute originalInput.
Proof.
  intros Hget Href. unfold applyOverride, StdMap.extract. rewrite Hget, Href.
  eexists _, _. split; [reflexivity|].
  unfold setOverrides, set_overrides, set_ref. simpl. auto.
Qed.

Lemma applyOverride_not_overridden w inputPath id originalInput ovs :
  (forall mo, StdMap.get id ovs = Some mo -> ref mo = None) ->
  exists input ovs',
    applyOverride w inputPath id originalInput ovs
    = (input, uninitialized_hasOverride w inputPath, ovs')
    /\ ref input = ref originalInput
    /\ isFlake input = isFlake originalInput
    /\ follows input = follows originalInput
    /\ absolute input = absolute originalInput.
Proof.
  intros Hno. unfold applyOverride, StdMap.extract.
  destruct (StdMap.get id ovs) as [mo|] eqn:Hget.
  - rewrite (Hno mo eq_refl). eexists _, _. split; [reflexivity|].
    unfold setOverrides, set_overrides. simpl. auto.
  - eexists _, _. split; [reflexivity|]. auto.
Qed.

(** *** The "original" field of a new lock entry (lines 476-479) *)

Lemma lockFreshFlake_entry w rec id input originalInput inputRef
    inputFlake oldLock node inputPath ovs st input' node' ovs' st' :
  lockFreshFlake w rec id input originalInput inputRef inputFlake oldLock node
    inputPath ovs st = (Ok (input', node', ovs'), st') ->
  exists children,
    StdMap.get id node'
    = Some (ELocked (flLockedRef inputFlake)
              match ref originalInput with Some r => r | None => inputRef end
              true children).
Proof.
  unfold lockFreshFlake. intros H.
  apply bind_Ok in H. destruct H as (st1 & s1 & _ & H).
  apply bind_Ok in H. destruct H as (u1 & s2 & _ & H).
  apply bind_Ok in H. destruct H as (u2 & s3 & _ & H).
  apply finally_Ok in H. destruct H as (s4 & H & _).
  apply bind_Ok in H. destruct H as (oldBase & s5 & _ & H).
  apply bind_Ok in H. destruct H as ([[fi ci] io] & s6 & _ & H).
  unfold ret in H. injection H as _ <- _ _.
  eexists. apply StdMapFacts.get_insert_or_assign_same.
Qed.


Lemma lockInput_fresh_flake_entry w flags rec id originalInput node prefix
    oldNode ovs st input hasOverride ovs1 inputRef input' node' ovs' st' :
  applyOverride w (prefix ++ [id]) id originalInput ovs
    = (input, hasOverride, ovs1) ->
  follows input = None ->
  ref input = Some inputRef ->
  isFlake input = true ->
  keepOldLock (findOldLock flags oldNode (prefix ++ [id]) id) inputRef
    hasOverride = false ->
  lockInput w flags rec id originalInput node prefix oldNode ovs st
    = (Ok (input', node', ovs'), st') ->
  exists lref children,
    StdMap.get id node' = Some (ELocked lref inputRef true children).
Proof.
  intros Hov Hfol Href Hfl Hkeep H.
  unfold lockInput in H. rewrite Hov, Hfol, Href in H.
  apply bind_Ok in H. destruct H as (s0 & s1 & _ & H).
  apply bind_Ok in H. destruct H as (u & s2 & _ & H).
  assert (Hfresh :
    lockFresh w flags rec id input input inputRef
      (findOldLock flags oldNode (prefix ++ [id]) id) node (prefix ++ [id])
      ovs1 s2 = (Ok (input', node', ovs'), st')).
  { destruct (findOldLock flags oldNode (prefix ++ [id]) id) as [ol|];
      [rewrite Hkeep in H|]; exact H. }
  clear H. unfold lockFresh in Hfresh. rewrite Hfl in Hfresh.
  apply bind_Ok in Hfresh. destruct Hfresh as (u1 & s3 & _ & H).
  apply bind_Ok in H. destruct H as (inputFlake & s4 & _ & H).
  apply lockFreshFlake_entry in H. rewrite Href in H.
  destruct H as (children & H). eauto.
Qed.

(** C1 fails on the code.  [app] declares its input [dep] as the git
    repository [dep]; the run overrides it by the repository [fork] and has
    no old lock file, so [dep] is locked afresh, as a flake.  The entry
    recorded for it has the overriding reference [fork] in its "original"
    field, not the declared [dep]: the names [input] and [originalInput] of
    [computeLocks] denote one object, so the assignment of the override to
    [input.ref] is what [originalInput.ref] reads at line 477. *)
Theorem override_recorded_as_original_ref :
  (exists fl st,
      getFlake Examples.world1 (Examples.gitRef "app") true Examples.state0
        = (Ok fl, st)
      /\ StdMap.get "dep" (inputs fl)
         = Some (mkFlakeInput (Some (Examples.gitRef "dep")) true None false
                   []))
  /\ (exists fl st,
         lockFlake Examples.world1 2 (Examples.gitRef "app")
           Examples.overrideFlags Examples.state0
         = (Ok (mkLockedFlake fl
                  (mkLockFile
                     [("dep",
                       ELocked (Examples.gitRefAt "fork" "r1")
                         (Examples.gitRef "fork") true [])])), st))
  /\ Examples.gitRef "fork" <> Examples.gitRef "dep".
Proof.
  split; [|split].
  - eexists _, _. split; vm_compute; reflexivity.
  - eexists _, _. vm_compute. reflexivity.
  - discriminate.
Qed.

(** With an override that carries a ref, the new entry of a flake input
    has that ref in its "original" field, whatever the manifest declared. *)
Lemma fresh_flake_original_is_override w flags rec id originalInput node
    prefix oldNode ovs st mo r' input' node' ovs' st' :
  StdMap.get id ovs = Some mo ->
  ref mo = Some r' ->
  follows originalInput = None ->
  isFlake originalInput = true ->
  lockInput w flags rec id originalInput node prefix oldNode ovs st
    = (Ok (input', node', ovs'), st') ->
  exists lref children,
    StdMap.get id node' = Some (ELocked lref r' true children).
Proof.
  intros Hget Href Hfol Hfl H.
  destruct (applyOverride_ref_overridden w (prefix ++ [id]) id originalInput
              ovs Hget Href) as (input & ovs1 & Hov & Hr & Hf & Hfo & _).
  eapply lockInput_fresh_flake_entry with (inputRef := r')
    (hasOverride := true);
    [exact Hov | congruence | exact Hr | congruence | | exact H].
  unfold keepOldLock.
  match goal with |- match ?x with _ => _ end = _ => destruct x end;
    [apply andb_false_r | reflexivity].
Qed.

(** *** [hasOverride] (lines 364-371) *)

(** What [hasOverride] holds after line 373: [true] when the extracted
    override has a ref, and otherwise whatever the unassigned variable
    reads. *)
Lemma applyOverride_hasOverride w inputPath id originalInput ovs :
  snd (fst (applyOverride w inputPath id originalInput ovs))
  = match StdMap.get id ovs with
    | Some mo =>
        match ref mo with
        | Some _ => true
        | None => uninitialized_hasOverride w inputPath
        end
    | None => uninitialized_hasOverride w inputPath
    end.
Proof.
  unfold applyOverride, StdMap.extract.
  destruct (StdMap.get id ovs) as [mo|]; [|reflexivity].
  destruct (ref mo); reflexivity.
Qed.

(** Where the unassigned variable happens to read [false], an input
    without matching override is treated as the specification has it. *)
Lemma lockInput_follows_not_overridden w flags rec id originalInput node
    prefix oldNode ovs st target :
  uninitialized_hasOverride w (prefix ++ [id]) = false ->
  StdMap.get id ovs = None ->
  follows originalInput = Some target ->
  lockInput w flags rec id originalInput node prefix oldNode ovs st
  = (Ok (originalInput,
         StdMap.insert_or_assign id
           (EFollows (if absolute originalInput then target
                      else prefix ++ target)) node,
         StdMap.erase id ovs), st).
Proof.
  intros Hu Hget Hfol. unfold lockInput, applyOverride, StdMap.extract.
  rewrite Hget, Hfol, Hu. unfold followsTarget. reflexivity.
Qed.

(** C3 fails on the code.  No override is given; the old lock node pins
    [dep] to revision [r0] and its "original" field equals the declared
    reference.  Where the unassigned [hasOverride] reads [false] the old
    node is reused and nothing is fetched; where it reads [true] the old
    node is dropped, [dep] is fetched and pinned anew to [r1]. *)
Theorem unassigned_hasOverride_defeats_reuse :
  let oldNode := Some [("dep", Examples.depLockedAt "r0")] in
  StdMap.get "dep" ([] : FlakeInputs) = None
  /\ lockInput Examples.world1 Examples.flags0
       (computeLocks Examples.world1 Examples.flags0 3) "dep"
       Examples.depInput [] [] oldNode [] Examples.state0
     = (Ok (Examples.depInput, [("dep", Examples.depLockedAt "r0")], []),
        withUpdatesUsed [["dep"]] Examples.state0)
  /\ (exists st,
         lockInput Examples.staleWorld Examples.flags0
           (computeLocks Examples.staleWorld Examples.flags0 3) "dep"
           Examples.depInput [] [] oldNode [] Examples.state0
         = (Ok (Examples.depInput, [("dep", Examples.depLockedAt "r1")], []),
            st)
         /\ trace st = [EvFetch (Examples.gitRef "dep")]).
Proof.
  cbv zeta. split; [reflexivity|]. split.
  - vm_compute. reflexivity.
  - eexists. split; vm_compute; reflexivity.
Qed.

(** C6 fails on the code.  The flake [mid] declares [foo.follows =
    "nixpkgs"]; no override is given and the input is not absolute, so the
    target should be [mid/nixpkgs].  Where the unassigned [hasOverride]
    reads [true], the edge recorded is [foo -> nixpkgs], and locking [outer],
    which has [mid] as its input, ends in [DanglingFollows]. *)
Theorem follows_target_with_unassigned_hasOverride :
  let rec := computeLocks Examples.staleWorld Examples.flags0 3 in
  lockInput Examples.staleWorld Examples.flags0 rec "foo" Examples.fooInput
    [] ["mid"] None [] Examples.state0
  = (Ok (Examples.fooInput, [("foo", EFollows ["nixpkgs"])], []),
     Examples.state0)
  /\ ["mid"] ++ ["nixpkgs"] <> ["nixpkgs"]
  /\ fst (lockFlake Examples.staleWorld 3 (Examples.gitRef "outer")
            Examples.noWriteFlags Examples.state0)
     = Throw DanglingFollows.
Proof.
  cbv zeta. split; [|split].
  - vm_compute. reflexivity.
  - discriminate.
  - vm_compute. reflexivity.
Qed.

(** At the root the prefix is empty, so [foo.follows = "nixpkgs"] is
    recorded as [foo -> nixpkgs] whatever the unassigned [hasOverride]
    reads. *)
Lemma lockInput_follows_at_root w flags rec id originalInput node ovs st
    target :
  StdMap.get id ovs = None ->
  follows originalInput = Some target ->
  lockInput w flags rec id originalInput node [] None ovs st
  = (Ok (originalInput,
         StdMap.insert_or_assign id (EFollows target) node,
         StdMap.erase id ovs), st).
Proof.
  intros Hget Hfol. unfold lockInput, applyOverride, StdMap.extract.
  rewrite Hget, Hfol. unfold followsTarget.
  destruct (_ || _); reflexivity.
Qed.

(** *** Inputs taken from the formals of [outputs] (lines 270-284) *)

Lemma injectFormals_keeps formals : forall inputs k i,
  StdMap.get k inputs = Some i ->
  StdMap.get k (injectFormals formals inputs) = Some i.
Proof.
  induction formals as [|name rest IH]; simpl; intros inputs k i H; auto.
  apply IH. destruct (negb (String.eqb name "self")); auto.
  destruct (String.eqb_spec k name) as [->|Hne].
  - erewrite StdMapFacts.get_emplace_present by eassumption. assumption.
  - now rewrite StdMapFacts.get_emplace_other.
Qed.

Lemma injectFormals_adds formals : forall inputs f,
  In f formals ->
  f <> "self" ->
  StdMap.get f inputs = None ->
  StdMap.get f (injectFormals formals inputs)
  = Some (mkFlakeInput (Some (indirectRef f)) true None false []).
Proof.
  induction formals as [|name rest IH]; simpl; intros inputs f Hin Hself Hno;
    [contradiction|].
  destruct (String.eqb_spec name f) as [->|Hne].
  - apply String.eqb_neq in Hself. rewrite Hself. simpl.
    apply injectFormals_keeps. now apply StdMapFacts.get_emplace_absent.
  - destruct Hin as [->|Hin]; [congruence|].
    apply IH; auto.
    destruct (negb (String.eqb name "self")); auto.
    rewrite StdMapFacts.get_emplace_other; auto.
Qed.

(** What a successful [readFlake] has read. *)
Lemma readFlake_Ok w originalRef fetched st fl st' :
  readFlake w originalRef fetched st = (Ok fl, st') ->
  exists path attrs declared matchAttrs formals,
    evalFile w path = Ok (VAttrs attrs)
    /\ match StdMap.get "inputs" attrs with
       | Some v => parseFlakeInputs w v true = Ok declared
       | None => declared = []
       end
    /\ StdMap.get "outputs" attrs = Some (VLambda matchAttrs formals)
    /\ inputs fl
       = if matchAttrs then injectFormals formals declared else declared.
Proof.
  destruct fetched as [[tree rr] lr]. unfold readFlake. intros H.
  apply bind_Ok in H. destruct H as (u1 & s1 & _ & H).
  apply bind_Ok in H. destruct H as (u2 & s2 & _ & H).
  apply bind_Ok in H. destruct H as (vInfo & s3 & Hev & H).
  unfold lift in Hev. injection Hev as Hev _.
  destruct vInfo as [ | |attrs| | | ]; try discriminate.
  apply bind_Ok in H. destruct H as (u3 & s4 & _ & H).
  apply bind_Ok in H. destruct H as (descr & s5 & _ & H).
  apply bind_Ok in H. destruct H as (declared & s6 & Hdecl & H).
  apply bind_Ok in H. destruct H as ([vOut inputs1] & s7 & Hout & H).
  apply bind_Ok in H. destruct H as (u4 & s8 & _ & H).
  unfold ret in H. injection H as <- _.
  destruct (StdMap.get "outputs" attrs) as [[ | | |ma fs| | ]|] eqn:Ho;
    try discriminate.
  unfold ret in Hout. injection Hout as _ <- _.
  eexists _, attrs, declared, ma, fs. simpl.
  split; [exact Hev|]. split; [|split; [exact Ho|reflexivity]].
  destruct (StdMap.get "inputs" attrs) as [v|].
  - unfold lift in Hdecl. now injection Hdecl as -> _.
  - unfold ret in Hdecl. now injection Hdecl as <- _.
Qed.

(** C7.  When [getFlake] returns a flake, its manifest is an attribute set
    with an [outputs] function; every input declared in the [inputs] block
    is in the flake's inputs as parsed, and every formal of [outputs] other
    than [self] that the block does not declare is in the flake's inputs
    with the indirect reference of its own name, as a flake, without
    [follows] or overrides. *)
Theorem getFlake_injects_formals w originalRef allowLookup st fl st' :
  getFlake w originalRef allowLookup st = (Ok fl, st') ->
  exists path attrs declared matchAttrs formals,
    evalFile w path = Ok (VAttrs attrs)
    /\ match StdMap.get "inputs" attrs with
       | Some v => parseFlakeInputs w v true = Ok declared
       | None => declared = []
       end
    /\ StdMap.get "outputs" attrs = Some (VLambda matchAttrs formals)
    /\ (forall k i,
          StdMap.get k declared = Some i ->
          StdMap.get k (inputs fl) = Some i)
    /\ (matchAttrs = true ->
        forall f,
          In f formals ->
          f <> "self" ->
          StdMap.get f declared = None ->
          StdMap.get f (inputs fl)
          = Some (mkFlakeInput (Some (indirectRef f)) true None false [])).
Proof.
  unfold getFlake. intros H.
  apply bind_Ok in H. destruct H as (fetched & s1 & _ & H).
  apply readFlake_Ok in H.
  destruct H as (path & attrs & declared & ma & fs & Hev & Hdecl & Hout & Hin).
  exists path, attrs, declared, ma, fs.
  repeat split; auto.
  - intros k i Hk. rewrite Hin. destruct ma; auto.
    now apply injectFormals_keeps.
  - intros -> f Hf Hself Hno. rewrite Hin. now apply injectFormals_adds.
Qed.

(** The theorem at [world1]: [app] declares [dep]; [a] declares nothing
    and takes [b] as a formal of [outputs]. *)
Lemma getFlake_injects_formals_witness :
  exists fl st,
    getFlake Examples.world1 (Examples.gitRef "a") true Examples.state0
      = (Ok fl, st)
    /\ inputs fl
       = [("b", mkFlakeInput (Some (indirectRef "b")) true None false [])]
    /\ exists path attrs declared matchAttrs formals,
         evalFile Examples.world1 path = Ok (VAttrs attrs)
         /\ match StdMap.get "inputs" attrs with
            | Some v => parseFlakeInputs Examples.world1 v true = Ok declared
            | None => declared = []
            end
         /\ StdMap.get "outputs" attrs = Some (VLambda matchAttrs formals)
         /\ (forall k i,
               StdMap.get k declared = Some i ->
               StdMap.get k (inputs fl) = Some i)
         /\ (matchAttrs = true ->
             forall f,
               In f formals ->
               f <> "self" ->
               StdMap.get f declared = None ->
               StdMap.get f (inputs fl)
               = Some (mkFlakeInput (Some (indirectRef f)) true None false
                         [])).
Proof.
  eexists _, _. split; [vm_compute; reflexivity|].
  split; [reflexivity|].
  exact (@getFlake_injects_formals Examples.world1 (Examples.gitRef "a")
           true Examples.state0 _ _ eq_refl).
Defined.

(** *** The fetch cache (lines 73-127) *)

(** For an indirect reference that is not cached, the resolved reference
    is fetched whether or not the cache has it: the second lookup, line
    104, is made under [originalRef], for which the first has just
    failed. *)
Lemma fetchOrSubstituteTree_indirect_miss w originalRef resolvedRef st :
  lookupInFlakeCache (flakeCache st) originalRef = None ->
  isDirect w (input originalRef) = false ->
  resolve w originalRef = Ok resolvedRef ->
  trace (snd (fetchOrSubstituteTree w originalRef true st))
  = trace st ++ [EvFetch resolvedRef].
Proof.
  intros Hmiss Hind Hres.
  unfold fetchOrSubstituteTree, bind, getState, lift, doFetch, cachePush,
    allowPath, assert, ret.
  rewrite Hmiss, Hind, Hres. simpl. rewrite Hmiss. simpl.
  destruct (fetchTree w (trace st) resolvedRef) as [[tree lref]|e| |];
    simpl; try reflexivity.
  destruct (allowedPaths st); simpl;
    destruct (narHash (input originalRef)); simpl;
    try destruct (String.eqb _ _); reflexivity.
Qed.

(** C4 fails on the code.  The git repository [moving] is fetched, which
    puts it into the cache; then the registry id [moving], which resolves to
    that repository, is asked for.  The cache is not consulted under the
    resolved reference: the repository is fetched a second time, and the
    request is answered with revision [r2] while the cache holds [r1] for
    the repository. *)
Theorem resolved_reference_fetched_twice :
  let D := Examples.gitRef "moving" in
  let I := indirectRef "moving" in
  let st1 := snd (fetchOrSubstituteTree Examples.world1 D true
                    Examples.state0) in
  resolve Examples.world1 I = Ok D
  /\ trace st1 = [EvFetch D]
  /\ option_map snd (lookupInFlakeCache (flakeCache st1) D)
     = Some (Examples.gitRefAt "moving" "r1")
  /\ (exists tree st2,
         fetchOrSubstituteTree Examples.world1 I true st1
         = (Ok (tree, D, Examples.gitRefAt "moving" "r2"), st2)
         /\ trace st2 = [EvFetch D; EvFetch D]
         /\ option_map snd (lookupInFlakeCache (flakeCache st2) D)
            = Some (Examples.gitRefAt "moving" "r1")).
Proof.
  cbv zeta. split; [reflexivity|]. split; [reflexivity|].
  split; [reflexivity|].
  eexists _, _. split; [vm_compute; reflexivity|].
  split; reflexivity.
Qed.

(** *** The mutability guard (lines 463-464 and 631-632) *)

Lemma lockFresh_mutable w flags rec id input originalInput inputRef oldLock
    node inputPath ovs st :
  allowMutable flags = false ->
  isImmutable w (Flake.input inputRef) = false ->
  lockFresh w flags rec id input originalInput inputRef oldLock node inputPath
    ovs st = (Throw MutableInPureMode, st).
Proof.
  intros Ha Hi. unfold lockFresh, bind, throwIf, throw, lift.
  now rewrite Ha, Hi.
Qed.

(** *** Steady computations *)

Import Behaviour.

Lemma steady_same {A} (m : M A) :
  (forall st, snd (m st) = st) -> steady m.
Proof.
  intros H st. rewrite H. repeat split.
  - exists []. now rewrite app_nil_r.
  - exists []. now rewrite app_nil_r.
Qed.

Lemma steady_ret {A} (a : A) : steady (ret a).
Proof. now apply steady_same. Qed.

Lemma steady_lift {A} (o : Outcome A) : steady (lift o).
Proof. now apply steady_same. Qed.

Lemma steady_throw {A} e : steady (@throw A e).
Proof. now apply steady_same. Qed.

Lemma steady_throwIf c e : steady (throwIf c e).
Proof. apply steady_same. intros st. unfold throwIf. now destruct c. Qed.

Lemma steady_assert c : steady (assert c).
Proof. apply steady_same. intros st. unfold assert. now destruct c. Qed.

Lemma steady_getState : steady getState.
Proof. now apply steady_same. Qed.

Lemma steady_setUpdatesUsed u : steady (setUpdatesUsed u).
Proof.
  intros st. simpl. repeat split; exists []; now rewrite app_nil_r.
Qed.

Lemma steady_allowPath p : steady (allowPath p).
Proof.
  intros st. unfold allowPath. simpl.
  destruct (allowedPaths st); simpl; repeat split; exists [];
    now rewrite app_nil_r.
Qed.

Lemma steady_cachePush k v : steady (cachePush k v).
Proof.
  intros st. simpl. repeat split.
  - eauto.
  - exists []. now rewrite app_nil_r.
Qed.

Lemma steady_emit ev : quiet ev = true -> steady (emit ev).
Proof.
  intros Hq st. simpl. repeat split.
  - exists []. now rewrite app_nil_r.
  - exists [ev]. simpl. now rewrite Hq.
Qed.

Lemma steady_warn msg : steady (warn msg).
Proof. now apply steady_emit. Qed.

Lemma steady_doFetch w r : steady (doFetch w r).
Proof.
  intros st. simpl. repeat split.
  - exists []. now rewrite app_nil_r.
  - exists [EvFetch r]. auto.
Qed.

Lemma steady_bind {A B} (m : M A) (k : A -> M B) :
  steady m -> (forall a, steady (k a)) -> steady (bind m k).
Proof.
  intros Hm Hk st. unfold bind.
  destruct (Hm st) as ((l1 & Hc1) & (e1 & Ht1 & Hq1) & Hp1).
  destruct (m st) as [[a|e| |] st1]; simpl in *;
    try (repeat split; eauto; fail).
  destruct (Hk a st1) as ((l2 & Hc2) & (e2 & Ht2 & Hq2) & Hp2).
  repeat split.
  - exists (l1 ++ l2). now rewrite Hc2, Hc1, app_assoc.
  - exists (e1 ++ e2). rewrite Ht2, Ht1, app_assoc. split; auto.
    rewrite forallb_app. now rewrite Hq1, Hq2.
  - intros Hs. rewrite (Hp2 Hs). now apply Hp1.
Qed.

(** The block of lines 482-498: the stack is pushed, the body runs, the
    stack is popped. *)
Lemma steady_pushed {A} (r : FlakeRef) (body : M A) :
  steady body ->
  steady (let* st1 := getState in
          throwIf (existsb (fun parent => FlakeRef_eqb parent r)
                     (parents st1)) CircularImport ;;
          setParents (parents st1 ++ [r]) ;;
          finally body
            (let* st2 := getState in setParents (removelast (parents st2)))).
Proof.
  intros Hb st.
  match goal with |- context [snd (?m st)] => set (res := m st) end.
  assert (E : res =
    if existsb (fun parent => FlakeRef_eqb parent r) (parents st)
    then (Throw CircularImport, st)
    else finally body
           (let* st2 := getState in setParents (removelast (parents st2)))
           (withParents (parents st ++ [r]) st)).
  { unfold res, bind, getState, throwIf, throw, lift, ret, setParents.
    destruct (existsb _ (parents st)); reflexivity. }
  rewrite E. clear E res.
  destruct (existsb _ (parents st)).
  - simpl. split; [|split].
    + exists []. now rewrite app_nil_r.
    + exists []. now rewrite app_nil_r.
    + reflexivity.
  - unfold finally.
    destruct (Hb (withParents (parents st ++ [r]) st))
      as ((l1 & Hc1) & (e1 & Ht1 & Hq1) & Hp1).
    destruct (body (withParents (parents st ++ [r]) st))
      as [[a|e| |] st1]; simpl in *;
      (split; [|split]; [eauto | eauto | ]);
      try contradiction; intros _;
      rewrite Hp1 by exact I; apply removelast_last.
Qed.

Ltac steady_step :=
  match goal with
  | |- steady (bind _ _) => apply steady_bind; [|intros]
  | |- steady (ret _) => apply steady_ret
  | |- steady (lift _) => apply steady_lift
  | |- steady (throw _) => apply steady_throw
  | |- steady (throwIf _ _) => apply steady_throwIf
  | |- steady (assert _) => apply steady_assert
  | |- steady getState => apply steady_getState
  | |- steady (setUpdatesUsed _) => apply steady_setUpdatesUsed
  | |- steady (allowPath _) => apply steady_allowPath
  | |- steady (cachePush _ _) => apply steady_cachePush
  | |- steady (warn _) => apply steady_warn
  | |- steady (doFetch _ _) => apply steady_doFetch
  | |- steady (match ?x with _ => _ end) => destruct x
  | |- steady (if ?c then _ else _) => destruct c
  end.

Lemma steady_fetchOrSubstituteTree w originalRef allowLookup :
  steady (fetchOrSubstituteTree w originalRef allowLookup).
Proof. unfold fetchOrSubstituteTree. repeat steady_step. Qed.

Lemma steady_readFlake w originalRef fetched :
  steady (readFlake w originalRef fetched).
Proof. unfold readFlake. repeat steady_step. Qed.

Lemma steady_getFlake w originalRef allowLookup :
  steady (getFlake w originalRef allowLookup).
Proof.
  unfold getFlake. apply steady_bind.
  - apply steady_fetchOrSubstituteTree.
  - intros. apply steady_readFlake.
Qed.

Section SteadyLocks.
Variable w : World.
Variable flags : LockFlags.
Variable rec : ComputeLocks.
Hypothesis steady_rec : steadyComputeLocks rec.

Lemma steady_lockKept id input ol node inputPath ovs :
  steady (lockKept w flags rec id input ol node inputPath ovs).
Proof.
  unfold lockKept. apply steady_bind.
  - destruct (hasChildUpdate flags inputPath).
    + apply steady_bind; [apply steady_getFlake|intros; apply steady_ret].
    + apply steady_ret.
  - intros. apply steady_bind; [apply steady_rec|].
    intros. repeat steady_step.
Qed.

Lemma steady_lockFreshFlake id input originalInput inputRef inputFlake oldLock
    node inputPath ovs :
  steady (lockFreshFlake w rec id input originalInput inputRef inputFlake
            oldLock node inputPath ovs).
Proof.
  unfold lockFreshFlake. apply steady_pushed.
  apply steady_bind.
  - repeat steady_step.
  - intros. apply steady_bind; [apply steady_rec|].
    intros. repeat steady_step.
Qed.

Lemma steady_lockFresh id input originalInput inputRef oldLock node inputPath
    ovs :
  steady (lockFresh w flags rec id input originalInput inputRef oldLock node
            inputPath ovs).
Proof.
  unfold lockFresh. apply steady_bind; [apply steady_throwIf|]. intros _.
  destruct (isFlake input).
  - apply steady_bind; [apply steady_getFlake|].
    intros. apply steady_lockFreshFlake.
  - apply steady_bind; [apply steady_fetchOrSubstituteTree|].
    intros. repeat steady_step.
Qed.

Lemma steady_lockInput id originalInput node prefix oldNode ovs :
  steady (lockInput w flags rec id originalInput node prefix oldNode ovs).
Proof.
  unfold lockInput.
  destruct (applyOverride w (prefix ++ [id]) id originalInput ovs)
    as [[input hasOverride] ovs1].
  destruct (follows input); [apply steady_ret|].
  destruct (ref input) as [inputRef|]; [|apply steady_lift].
  apply steady_bind; [apply steady_getState|]. intros st0.
  apply steady_bind; [apply steady_setUpdatesUsed|]. intros _.
  destruct (findOldLock flags oldNode (prefix ++ [id]) id) as [ol|].
  - destruct (keepOldLock _ _ _).
    + apply steady_lockKept.
    + apply steady_lockFresh.
  - apply steady_lockFresh.
Qed.

Lemma steady_lockInputs entries : forall node prefix oldNode ovs,
  steady (lockInputs w flags rec entries node prefix oldNode ovs).
Proof.
  induction entries as [|[id oi] rest IH]; intros; simpl.
  - apply steady_ret.
  - apply steady_bind; [apply steady_lockInput|].
    intros [[i1 n1] o1]. apply steady_bind; [apply IH|].
    intros [[r1 n2] o2]. apply steady_ret.
Qed.

Lemma steady_computeLocksBody :
  steadyComputeLocks (computeLocksBody w flags rec).
Proof.
  intros fi node prefix oldNode ovs. unfold computeLocksBody.
  apply steady_bind; [apply steady_lockInputs|].
  intros [[f1 n1] o1]. repeat steady_step.
Qed.

End SteadyLocks.

(** Whatever the nesting, [computeLocks] only appends to the fetch cache,
    only fetches and warns, and leaves the [parents] stack as it found it
    when it returns or throws. *)
Lemma steady_computeLocks w flags fuel :
  steadyComputeLocks (computeLocks w flags fuel).
Proof.
  induction fuel as [|fuel IH]; simpl.
  - intros fi node prefix oldNode ovs. apply steady_lift.
  - now apply steady_computeLocksBody.
Qed.

(** *** Nothing to persist (lines 521-592) *)

Lemma withTrace_same st : withTrace (trace st ++ []) st = st.
Proof. destruct st. unfold withTrace. simpl. now rewrite app_nil_r. Qed.

Lemma warnUnusedUpdates_run w updates used : forall st,
  warnUnusedUpdates w updates used st
  = (Ok tt,
     withTrace
       (trace st
        ++ map (fun i => EvWarn (WUnusedUpdateInput (printInputPath w i)))
             (filter (fun i => negb (pathCount i used)) updates)) st).
Proof.
  induction updates as [|i rest IH]; intros st; simpl.
  - unfold ret. now rewrite withTrace_same.
  - unfold bind at 1.
    destruct (negb (pathCount i used)); simpl.
    + rewrite IH. simpl. unfold withTrace. simpl.
      now rewrite <- app_assoc.
    + now rewrite IH.
Qed.

Lemma persist_equal w topRef flags fl old new st :
  LockFile_eqb new old = true ->
  persist w topRef flags fl old new st = (Ok fl, st).
Proof. intros H. unfold persist. now rewrite H. Qed.

(** C8.  Suppose a run of [lockFlake] has loaded the top flake, read the
    old lock file and computed the new lock, and the new lock equals the
    old one.  Then all the run does afterwards is warn about unused
    [--update-input] flags: from its start it has only fetched and warned
    (no lock file is written, no file of the source is marked as changed),
    nothing is fetched after the lock has been computed, and the flake it
    returns is the one loaded at the start. *)
Theorem lockFlake_equal_lock_persists_nothing w fuel topRef flags st
    flake0 st1 old fi newRoot ovs st2 :
  flakesEnabled w = true ->
  getFlake w topRef (useRegistries flags)
    (withUpdatesUsed [] (withParents [] (withFlakeCache [] st)))
    = (Ok flake0, st1) ->
  readLockFile w
    (actualPath (sourceInfo flake0) ++ "/" ++ subdir (flLockedRef flake0)
     ++ "/flake.lock")%string = Ok old ->
  computeLocks w flags fuel (inputs flake0) [] []
    (if recreateLockFile flags then None else Some (root old))
    (fold_left (fun o kv => setOverride o (fst kv) (snd kv))
       (inputOverrides flags) []) st1
    = (Ok (fi, newRoot, ovs), st2) ->
  LockFile_eqb (mkLockFile newRoot) old = true ->
  exists unused,
    trace (snd (lockFlake w fuel topRef flags st))
    = trace st2
      ++ map (fun i => EvWarn (WUnusedUpdateInput (printInputPath w i)))
           unused
    /\ (exists evs,
          trace (snd (lockFlake w fuel topRef flags st)) = trace st ++ evs
          /\ forallb quiet evs = true)
    /\ fst (lockFlake w fuel topRef flags st)
       = match lockCheck (mkLockFile newRoot) with
         | Ok _ =>
             Ok (mkLockedFlake (withInputs fi flake0) (mkLockFile newRoot))
         | Throw e => Throw e
         | AssertFail => AssertFail
         | OutOfFuel => OutOfFuel
         end.
Proof.
  intros Hen Hget Hold Hcl Heq.
  set (unused := filter (fun i => negb (pathCount i (updatesUsed st2)))
                   (inputUpdates flags)).
  set (st3 := withTrace
                (trace st2
                 ++ map (fun i =>
                           EvWarn (WUnusedUpdateInput (printInputPath w i)))
                      unused) st2).
  assert (E : lockFlake w fuel topRef flags st
              = (match lockCheck (mkLockFile newRoot) with
                 | Ok _ =>
                     Ok (mkLockedFlake (withInputs fi flake0)
                           (mkLockFile newRoot))
                 | Throw e => Throw e
                 | AssertFail => AssertFail
                 | OutOfFuel => OutOfFuel
                 end, st3)).
  { unfold lockFlake.
    erewrite bind_run by (unfold throwIf; rewrite Hen; reflexivity).
    do 3 (erewrite bind_run by reflexivity).
    erewrite bind_run by exact Hget.
    erewrite bind_run by (unfold lift; rewrite Hold; reflexivity).
    erewrite bind_run by exact Hcl. cbv beta iota.
    erewrite bind_run by reflexivity.
    erewrite bind_run by apply warnUnusedUpdates_run.
    fold unused. fold st3.
    unfold bind at 1. unfold lift at 1.
    destruct (lockCheck (mkLockFile newRoot)) as [[]|e| |]; try reflexivity.
    erewrite bind_run by (apply persist_equal; exact Heq).
    reflexivity. }
  rewrite E. simpl fst. simpl snd.
  exists unused. split; [reflexivity|]. split; [|reflexivity].
  destruct (steady_getFlake w topRef (useRegistries flags)
              (withUpdatesUsed [] (withParents [] (withFlakeCache [] st))))
    as (_ & (e1 & Ht1 & Hq1) & _).
  rewrite Hget in Ht1. simpl in Ht1.
  destruct (steady_computeLocks w flags fuel (inputs flake0) [] []
              (if recreateLockFile flags then None else Some (root old))
              (fold_left (fun o kv => setOverride o (fst kv) (snd kv))
                 (inputOverrides flags) []) st1)
    as (_ & (e2 & Ht2 & Hq2) & _).
  rewrite Hcl in Ht2. simpl in Ht2.
  exists (e1 ++ e2 ++ map (fun i =>
                             EvWarn (WUnusedUpdateInput (printInputPath w i)))
                        unused).
  split.
  - unfold st3. simpl. rewrite Ht2, Ht1. now rewrite !app_assoc.
  - rewrite !forallb_app, Hq1, Hq2. simpl.
    clear. induction unused; simpl; auto.
Qed.

(** The theorem at [lockedWorld]: [app] is locked with its lock file in
    place and up to date; the run fetches [app] and does nothing else. *)
Lemma lockFlake_equal_lock_persists_nothing_witness :
  exists flake0 st1 old fi newRoot ovs st2,
    getFlake Examples.lockedWorld (Examples.pathRef "app") true
      (withUpdatesUsed [] (withParents [] (withFlakeCache []
                                             Examples.state0)))
      = (Ok flake0, st1)
    /\ computeLocks Examples.lockedWorld Examples.flags0 2 (inputs flake0)
         [] [] (Some (root old)) [] st1
       = (Ok (fi, newRoot, ovs), st2)
    /\ LockFile_eqb (mkLockFile newRoot) old = true
    /\ trace st2 = [EvFetch (Examples.pathRef "app")]
    /\ exists unused,
         trace (snd (lockFlake Examples.lockedWorld 2
                       (Examples.pathRef "app") Examples.flags0
                       Examples.state0))
         = trace st2
           ++ map (fun i =>
                     EvWarn (WUnusedUpdateInput
                               (printInputPath Examples.lockedWorld i)))
                unused
         /\ (exists evs,
               trace (snd (lockFlake Examples.lockedWorld 2
                             (Examples.pathRef "app") Examples.flags0
                             Examples.state0))
               = trace Examples.state0 ++ evs
               /\ forallb quiet evs = true)
         /\ fst (lockFlake Examples.lockedWorld 2 (Examples.pathRef "app")
                   Examples.flags0 Examples.state0)
            = match lockCheck (mkLockFile newRoot) with
              | Ok _ =>
                  Ok (mkLockedFlake (withInputs fi flake0)
                        (mkLockFile newRoot))
              | Throw e => Throw e
              | AssertFail => AssertFail
              | OutOfFuel => OutOfFuel
              end.
Proof.
  eexists _, _, (mkLockFile [("dep", Examples.depLockedAt "r0")]), _, _, _, _.
  split; [vm_compute; reflexivity|].
  split; [vm_compute; reflexivity|].
  split; [reflexivity|].
  split; [reflexivity|].
  eapply (@lockFlake_equal_lock_persists_nothing Examples.lockedWorld 2
            (Examples.pathRef "app") Examples.flags0 Examples.state0).
  - reflexivity.
  - vm_compute. reflexivity.
  - reflexivity.
  - vm_compute. reflexivity.
  - reflexivity.
Defined.

(** *** The warning about unused overrides (lines 30-52 and 509-513) *)

Lemma append_assoc (a b c : string) :
  ((a ++ b) ++ c = a ++ (b ++ c))%string.
Proof. induction a as [|ch a IH]; simpl; congruence. Qed.

Lemma append_nil_r (a : string) : (a ++ "" = a)%string.
Proof. induction a as [|ch a IH]; simpl; congruence. Qed.

Lemma append_nonempty_r (a b : string) :
  b <> "" -> (a ++ b)%string <> "".
Proof. destruct a; simpl; auto. discriminate. Qed.

Lemma append_nonempty_l (a b : string) :
  a <> "" -> (a ++ b)%string <> "".
Proof. destruct a; simpl; [congruence|discriminate]. Qed.

Lemma render_nonempty w item : render w item <> "".
Proof.
  unfold render. apply append_nonempty_r. simpl. discriminate.
Qed.

Lemma FlakeInput_nested_ind (P : FlakeInput -> Prop) :
  (forall r f fo a ovs,
      Forall (fun kv => P (snd kv)) ovs -> P (mkFlakeInput r f fo a ovs)) ->
  forall i, P i.
Proof.
  intros H. fix IH 1. intros [r f fo a ovs]. apply H.
  induction ovs as [|kv l IHl]; constructor; [apply IH | exact IHl].
Qed.

Lemma concat_nosep_cons (a : string) (l : list string) :
  String.concat "" (a :: l) = (a ++ String.concat "" l)%string.
Proof.
  destruct l as [|b l]; simpl; [now rewrite append_nil_r|reflexivity].
Qed.

(** The pieces after the first are each preceded by a separator. *)
Lemma addItems_false x : forall pieces,
  fold_left addItem pieces (x, false)
  = ((x ++ String.concat "" (map (fun p => ", " ++ p) pieces))%string, false).
Proof.
  intros pieces. revert x.
  induction pieces as [|p ps IH]; intros x.
  - simpl. now rewrite append_nil_r.
  - simpl fold_left. unfold addItem at 2. simpl fst. simpl snd. cbv iota.
    rewrite IH. f_equal. simpl map. rewrite concat_nosep_cons.
    now rewrite !append_assoc.
Qed.

Lemma concat_sep_cons (p : string) : forall ps,
  String.concat ", " (p :: ps)
  = (p ++ String.concat "" (map (fun q => ", " ++ q) ps))%string.
Proof.
  intros ps. revert p. induction ps as [|q qs IH]; intros p.
  - simpl. now rewrite append_nil_r.
  - change (String.concat ", " (p :: q :: qs))
      with (p ++ ", " ++ String.concat ", " (q :: qs))%string.
    rewrite IH. simpl map. rewrite concat_nosep_cons. reflexivity.
Qed.

Lemma addItems_from_start pieces :
  fst (fold_left addItem pieces ("", true)) = String.concat ", " pieces.
Proof.
  destruct pieces as [|p ps]; [reflexivity|].
  rewrite concat_sep_cons. simpl fold_left.
  change (addItem ("", true) p) with (p, false).
  now rewrite addItems_false.
Qed.

Lemma addItems_app pieces1 pieces2 acc :
  fold_left addItem (pieces1 ++ pieces2) acc
  = fold_left addItem pieces2 (fold_left addItem pieces1 acc).
Proof. apply fold_left_app. Qed.

(** A block of pieces written into a stream of its own and appended, when
    it is not empty, is the same as the pieces written one by one. *)
Lemma addItems_block acc pieces :
  (forall p, In p pieces -> p <> "") ->
  (if String.eqb (fst (fold_left addItem pieces ("", true))) "" then acc
   else addItem acc (fst (fold_left addItem pieces ("", true))))
  = fold_left addItem pieces acc.
Proof.
  intros Hne. destruct pieces as [|p ps]; [reflexivity|].
  rewrite addItems_from_start, concat_sep_cons.
  destruct (String.eqb_spec (p ++ String.concat ""
                                     (map (fun q => ", " ++ q) ps))%string "")
    as [E|_].
  - exfalso. revert E. apply append_nonempty_l. apply Hne. now left.
  - simpl fold_left. unfold addItem at 1 3. simpl fst. simpl snd.
    cbv iota. rewrite addItems_false. f_equal. now rewrite append_assoc.
Qed.

Section PrintOverrides.
Variable w : World.

(** The local loop of [printOverride] is the loop of [printOverrides]. *)
Lemma printOverride_unfold path oref f fo a children acc :
  printOverride w path (mkFlakeInput oref f fo a children) acc
  = let acc1 :=
      match oref with
      | Some r => addItem acc (render w (path, r))
      | None => acc
      end in
    let childrenOverrides :=
      fst (printOverridesLoop w path children ("", true)) in
    if String.eqb childrenOverrides "" then acc1
    else addItem acc1 childrenOverrides.
Proof.
  simpl.
  assert (E : forall m a0,
    (fix go (m : list (FlakeId * FlakeInput)) (a : string * bool)
       {struct m} : string * bool :=
       match m with
       | [] => a
       | (id, c) :: m' => go m' (printOverride w (path ++ [id]) c a)
       end) m a0 = printOverridesLoop w path m a0).
  { induction m as [|[id c] m IHm]; intros a0; simpl; auto. }
  rewrite E. destruct oref; reflexivity.
Qed.

Lemma overrideRefs_unfold path oref f fo a children :
  overrideRefs path (mkFlakeInput oref f fo a children)
  = match oref with Some r => [(path, r)] | None => [] end
    ++ overridesRefs path children.
Proof.
  simpl. f_equal.
  induction children as [|[id c] m IHm]; simpl; auto.
  now rewrite IHm.
Qed.

Lemma rendered_nonempty items p :
  In p (map (render w) items) -> p <> "".
Proof.
  intros Hin. apply in_map_iff in Hin. destruct Hin as (it & <- & _).
  apply render_nonempty.
Qed.

Lemma printOverride_items ov : forall path acc,
  printOverride w path ov acc
  = fold_left addItem (map (render w) (overrideRefs path ov)) acc.
Proof.
  induction ov as [oref f fo a children IH] using FlakeInput_nested_ind.
  intros path acc.
  assert (Hloop : forall acc0,
    printOverridesLoop w path children acc0
    = fold_left addItem (map (render w) (overridesRefs path children)) acc0).
  { clear acc. induction IH as [|[id c] m Hc Hm IHm]; intros acc0; simpl.
    - reflexivity.
    - rewrite IHm. simpl in Hc. rewrite Hc.
      now rewrite map_app, addItems_app. }
  rewrite printOverride_unfold, overrideRefs_unfold. cbv zeta.
  rewrite Hloop, map_app, addItems_app.
  rewrite addItems_block by apply rendered_nonempty.
  destruct oref; reflexivity.
Qed.

Lemma printOverridesLoop_items prefix m : forall acc,
  printOverridesLoop w prefix m acc
  = fold_left addItem (map (render w) (overridesRefs prefix m)) acc.
Proof.
  induction m as [|[id c] m IHm]; intros acc; simpl; [reflexivity|].
  now rewrite IHm, printOverride_items, map_app, addItems_app.
Qed.

(** [printOverrides] writes the overrides that have a ref, and only those,
    separated by commas. *)
Lemma printOverrides_items ovs prefix :
  printOverrides w ovs prefix
  = String.concat ", " (map (render w) (overridesRefs prefix ovs)).
Proof.
  unfold printOverrides.
  now rewrite printOverridesLoop_items, addItems_from_start.
Qed.

Lemma printOverrides_empty ovs prefix :
  printOverrides w ovs prefix = "" <-> overridesRefs prefix ovs = [].
Proof.
  rewrite printOverrides_items. split.
  - destruct (overridesRefs prefix ovs) as [|it its]; [reflexivity|].
    intros E. exfalso. revert E. simpl map. rewrite concat_sep_cons.
    apply append_nonempty_l, render_nonempty.
  - now intros ->.
Qed.

End PrintOverrides.

Lemma overrideRefs_within id ov m prefix :
  In (id, ov) m ->
  incl (overrideRefs (prefix ++ [id]) ov) (overridesRefs prefix m).
Proof.
  induction m as [|[id' c] m IHm]; simpl; [contradiction|].
  intros [E|Hin] x Hx; apply in_or_app.
  - injection E as -> ->. now left.
  - right. now apply IHm.
Qed.

Lemma carries_listed m path r :
  carries m path r ->
  forall prefix, In (prefix ++ path, r) (overridesRefs prefix m).
Proof.
  induction 1 as [m id ov r Hin Href | m id ov path r Hin Hc IH];
    intros prefix;
    apply (overrideRefs_within _ _ _ prefix Hin);
    destruct ov as [oref f fo a children];
    rewrite overrideRefs_unfold; apply in_or_app.
  - left. simpl in Href. subst oref. now left.
  - right. simpl in IH.
    replace (prefix ++ id :: path) with ((prefix ++ [id]) ++ path)
      by now rewrite <- app_assoc.
    apply IH.
Qed.

Lemma carries_weaken m m' path r :
  carries m path r -> incl m m' -> carries m' path r.
Proof.
  intros Hc Hincl. inversion Hc; subst.
  - eapply carries_here; [apply Hincl; eassumption|assumption].
  - eapply carries_below; [apply Hincl; eassumption|assumption].
Qed.

Lemma listed_carries_list m :
  Forall (fun kv => listedIsCarried (snd kv)) m ->
  forall prefix p r,
    In (p, r) (overridesRefs prefix m) ->
    exists sub, p = prefix ++ sub /\ carries m sub r.
Proof.
  induction 1 as [|[id c] m Hc Hm IHm]; intros prefix p r Hin; simpl in *;
    [contradiction|].
  apply in_app_or in Hin. destruct Hin as [Hin|Hin].
  - destruct (Hc _ _ _ Hin) as [[-> Href]|(sub & -> & Hcar)].
    + exists [id]. split; [reflexivity|].
      eapply carries_here; [now left|exact Href].
    + exists (id :: sub). split; [now rewrite <- app_assoc|].
      eapply carries_below; [now left|exact Hcar].
  - destruct (IHm _ _ _ Hin) as (sub & -> & Hcar).
    exists sub. split; [reflexivity|].
    eapply carries_weaken; [exact Hcar|]. intros x Hx. now right.
Qed.

Lemma listed_carries_entry ov : listedIsCarried ov.
Proof.
  induction ov as [oref f fo a children IH] using FlakeInput_nested_ind.
  intros path p r. rewrite overrideRefs_unfold. intros Hin.
  apply in_app_or in Hin. destruct Hin as [Hin|Hin].
  - left. destruct oref as [r0|]; simpl in Hin; [|contradiction].
    destruct Hin as [E|[]]. injection E as <- <-. auto.
  - right. simpl overrides. now apply listed_carries_list.
Qed.

(** The overrides [printOverrides] writes are the entries that have a ref,
    at any depth. *)
Lemma listed_iff_carries m prefix p r :
  In (p, r) (overridesRefs prefix m)
  <-> exists path, p = prefix ++ path /\ carries m path r.
Proof.
  split.
  - apply listed_carries_list.
    apply Forall_forall. intros kv _. apply listed_carries_entry.
  - intros (path & -> & Hc). now apply carries_listed.
Qed.

(** C10.  When the loop over the inputs of a node has come to its end,
    [computeLocks] returns what the loop has built, whatever overrides are
    left over.  The overrides named in the warning are the left-over entries
    that have a ref, at any depth below the node, each as [path=ref], and no
    others; when no left-over entry has a ref there is no warning at all. *)
Theorem unused_override_warning w flags rec flakeInputs node prefix oldNode
    ovs st flakeInputs' node' ovs' st' :
  lockInputs w flags rec flakeInputs node prefix oldNode ovs st
    = (Ok (flakeInputs', node', ovs'), st') ->
  let named := overridesRefs prefix ovs' in
  (forall p r,
      In (p, r) named
      <-> exists path, p = prefix ++ path /\ carries ovs' path r)
  /\ computeLocksBody w flags rec flakeInputs node prefix oldNode ovs st
     = (Ok (flakeInputs', node', ovs'),
        match named with
        | [] => st'
        | _ :: _ =>
            withTrace
              (trace st'
               ++ [EvWarn (WUnusedOverrides
                             (String.concat ", " (map (render w) named)))])
              st'
        end).
Proof.
  intros Hloop named. split.
  - intros p r. apply listed_iff_carries.
  - unfold computeLocksBody. erewrite bind_run by exact Hloop. cbv beta iota.
    rewrite printOverrides_items. fold named.
    destruct named as [|it its] eqn:En.
    + reflexivity.
    + destruct (String.eqb_spec
                  (String.concat ", " (map (render w) (it :: its))) "")
        as [E|_].
      * exfalso. revert E. simpl map. rewrite concat_sep_cons.
        apply append_nonempty_l, render_nonempty.
      * reflexivity.
Qed.

(** The theorem at [world1]: a node without inputs, with two overrides
    left over, of which only [nonexistent] has a ref. *)
Lemma unused_override_warning_witness :
  computeLocksBody Examples.world1 Examples.flags0
    (computeLocks Examples.world1 Examples.flags0 1) [] [] [] None
    [("ghost", mkFlakeInput None false None false []);
     ("nonexistent",
      mkFlakeInput (Some (Examples.gitRef "fork")) true None false [])]
    Examples.state0
  = (Ok ([], [],
         [("ghost", mkFlakeInput None false None false []);
          ("nonexistent",
           mkFlakeInput (Some (Examples.gitRef "fork")) true None false [])]),
     withTrace [EvWarn (WUnusedOverrides "nonexistent=fork")]
       Examples.state0).
Proof.
  exact (proj2 (@unused_override_warning Examples.world1 Examples.flags0
                  (computeLocks Examples.world1 Examples.flags0 1)
                  [] [] [] None _ Examples.state0 _ _ _ _ eq_refl)).
Defined.

(** *** Circular imports (lines 481-486) *)

Lemma lookupInFlakeCache_app c l r fetched :
  lookupInFlakeCache c r = Some fetched ->
  lookupInFlakeCache (c ++ l) r = Some fetched.
Proof.
  induction c as [|[k v] c IH]; simpl; [discriminate|].
  destruct (FlakeRef_eqb r k); auto.
Qed.

Lemma lookupInFlakeCache_last c r fetched :
  lookupInFlakeCache c r = None ->
  lookupInFlakeCache (c ++ [(r, fetched)]) r = Some fetched.
Proof.
  induction c as [|[k v] c IH]; simpl.
  - now rewrite FlakeRef_eqb_refl.
  - destruct (FlakeRef_eqb r k); [discriminate|auto].
Qed.

(** A flake whose reference is in the cache loads again without a fetch. *)
Lemma getFlake_cached w r allowLookup st fetched :
  lookupInFlakeCache (flakeCache st) r = Some fetched ->
  loadable w r fetched ->
  exists fl st1, getFlake w r allowLookup st = (Ok fl, st1).
Proof.
  intros Hhit [Hassert (fl & Hread)].
  destruct fetched as [tree lockedRef]. cbn [fst snd] in *.
  set (st1 := snd (allowPath (actualPath tree) st)).
  assert (Hfetch : fetchOrSubstituteTree w r allowLookup st
                   = (Ok (tree, r, lockedRef), st1)).
  { unfold fetchOrSubstituteTree.
    erewrite bind_run by reflexivity. cbv beta.
    rewrite Hhit.
    erewrite bind_run by reflexivity. cbv beta iota.
    erewrite bind_run by reflexivity. fold st1.
    erewrite bind_run; [reflexivity|].
    unfold assert. destruct (narHash (input r)); [rewrite Hassert|];
      reflexivity. }
  destruct (Hread st1) as (st2 & Hrd).
  exists fl, st2.
  unfold getFlake. erewrite bind_run by exact Hfetch. exact Hrd.
Qed.

Lemma existsb_FlakeRef_In r l :
  existsb (fun parent => FlakeRef_eqb parent r) l = true -> In r l.
Proof.
  intros H. apply existsb_exists in H. destruct H as (x & Hin & E).
  apply FlakeRef_eqb_eq in E. now subst.
Qed.

(** Lines 485-498: the child flake is processed with the reference on
    top of the stack, and the stack is back as it was when that call has
    returned or thrown. *)
Lemma lockFreshFlake_pushes_and_pops w rec id input originalInput inputRef
    inputFlake oldLock node inputPath ovs st oldBase :
  steadyComputeLocks rec ->
  existsb (fun parent => FlakeRef_eqb parent inputRef) (parents st) = false ->
  match oldLock with
  | Some ol => lnInputs ol = oldBase
  | None =>
      exists lf,
        readLockFile w
          (actualPath (sourceInfo inputFlake) ++ "/"
           ++ subdir (flLockedRef inputFlake) ++ "/flake.lock")%string
        = Ok lf
        /\ root lf = oldBase
  end ->
  let pushed := withParents (parents st ++ [inputRef]) st in
  let r := rec (inputs inputFlake) [] inputPath (Some oldBase)
             (overrides input) pushed in
  lockFreshFlake w rec id input originalInput inputRef inputFlake oldLock node
    inputPath ovs st
  = (match fst r with
     | Ok (_, childInputs, inputOverrides) =>
         Ok (set_overrides inputOverrides input,
             StdMap.insert_or_assign id
               (ELocked (flLockedRef inputFlake)
                  match ref originalInput with
                  | Some o => o
                  | None => inputRef
                  end true childInputs) node,
             ovs)
     | Throw e => Throw e
     | AssertFail => AssertFail
     | OutOfFuel => OutOfFuel
     end,
     match fst r with
     | Ok _ | Throw _ => withParents (parents st) (snd r)
     | AssertFail | OutOfFuel => snd r
     end).
Proof.
  intros Hrec Hnew Hbase pushed r.
  unfold lockFreshFlake.
  erewrite bind_run by reflexivity.
  erewrite bind_run by (unfold throwIf; rewrite Hnew; reflexivity).
  erewrite bind_run by reflexivity. fold pushed.
  unfold finally.
  erewrite bind_run.
  2:{ destruct oldLock as [ol|].
      - rewrite Hbase. reflexivity.
      - destruct Hbase as (lf & Hlf & <-).
        erewrite bind_run by (unfold lift; rewrite Hlf; reflexivity).
        reflexivity. }
  destruct (Hrec (inputs inputFlake) [] inputPath (Some oldBase)
              (overrides input) pushed) as (_ & _ & Hp).
  fold r in Hp. unfold bind. fold r.
  destruct r as [[[[fi ci] io]|e| |] s]; cbn [fst snd] in *;
    try reflexivity.
  - unfold ret, getState, setParents. cbn [fst snd].
    rewrite Hp by exact I. unfold pushed. simpl parents.
    now rewrite removelast_last.
  - unfold getState, setParents. cbn [fst snd].
    rewrite Hp by exact I. unfold pushed. simpl parents.
    now rewrite removelast_last.
Qed.

(** The invariant on the stack is kept by whatever only appends to the
    cache and leaves the stack alone. *)
Lemma parentsLoaded_extends w flags st st' :
  parentsLoaded w flags st ->
  parents st' = parents st ->
  (exists l, flakeCache st' = flakeCache st ++ l) ->
  parentsLoaded w flags st'.
Proof.
  intros Hinv Hp (l & Hc) r Hin. rewrite Hp in Hin.
  destruct (Hinv r Hin) as (Hg & fetched & Hhit & Hload).
  split; [exact Hg|]. exists fetched. split; [|exact Hload].
  rewrite Hc. now apply lookupInFlakeCache_app.
Qed.

Lemma parentsLoaded_steady {A} w flags (m : M A) st :
  steady m ->
  parentsLoaded w flags st ->
  settled (fst (m st)) ->
  parentsLoaded w flags (snd (m st)).
Proof.
  intros Hm Hinv Hs. destruct (Hm st) as (Hc & _ & Hp).
  eapply parentsLoaded_extends; eauto.
Qed.

Lemma stateless_Ok {A} (m : M A) st a st' :
  stateless m -> m st = (Ok a, st') -> forall st2, m st2 = (Ok a, st2).
Proof.
  intros (o & Ho) H st2. rewrite Ho in H. injection H as -> _. apply Ho.
Qed.

(** Whether [flake.nix] can be read from a tree depends on nothing the run
    changes. *)
Lemma readFlake_again w r tree rr lr st fl st' :
  readFlake w r (tree, rr, lr) st = (Ok fl, st') ->
  exists fl2, forall st2, exists st2',
    readFlake w r (tree, r, lr) st2 = (Ok fl2, st2').
Proof.
  unfold readFlake. intros H.
  apply bind_Ok in H. destruct H as (u1 & s1 & H1 & H).
  apply throwIf_Ok in H1. destruct H1 as [Hc1 _].
  apply bind_Ok in H. destruct H as (u2 & s2 & H2 & H).
  apply throwIf_Ok in H2. destruct H2 as [Hc2 _].
  apply bind_Ok in H. destruct H as (vInfo & s3 & Hev & H).
  unfold lift in Hev. injection Hev as Hev _.
  destruct vInfo as [ | |attrs| | | ]; try discriminate.
  apply bind_Ok in H. destruct H as (u3 & s4 & _ & H).
  apply bind_Ok in H. destruct H as (descr & s5 & Hd & H).
  apply bind_Ok in H. destruct H as (declared & s6 & Hdecl & H).
  apply bind_Ok in H. destruct H as ([vOut inputs1] & s7 & Hout & H).
  apply bind_Ok in H. destruct H as (u4 & s8 & Hchk & _).
  assert (Sd : forall st2,
    match StdMap.get "description" attrs with
    | Some (VString d) => ret (Some d)
    | Some _ => throw MalformedManifest
    | None => ret None
    end st2 = (Ok descr, st2)).
  { eapply stateless_Ok; [|exact Hd].
    destruct (StdMap.get "description" attrs) as [[]|]; eexists;
      reflexivity. }
  assert (Si : forall st2,
    match StdMap.get "inputs" attrs with
    | Some v => lift (parseFlakeInputs w v true)
    | None => ret []
    end st2 = (Ok declared, st2)).
  { eapply stateless_Ok; [|exact Hdecl].
    destruct (StdMap.get "inputs" attrs); eexists; reflexivity. }
  assert (So : forall st2,
    match StdMap.get "outputs" attrs with
    | Some (VLambda matchAttrs formals) =>
        ret (Some (VLambda matchAttrs formals),
             if matchAttrs then injectFormals formals declared else declared)
    | Some _ => throw MalformedManifest
    | None => throw MalformedManifest
    end st2 = (Ok (vOut, inputs1), st2)).
  { eapply stateless_Ok; [|exact Hout].
    destruct (StdMap.get "outputs" attrs) as [[]|]; eexists; reflexivity. }
  assert (Sc : forall st2,
    lift (checkSupportedAttrs attrs) st2 = (Ok u4, st2)).
  { eapply stateless_Ok; [|exact Hchk]. eexists; reflexivity. }
  eexists. intros st2.
  erewrite bind_run by (unfold throwIf; rewrite Hc1; reflexivity).
  erewrite bind_run by (unfold throwIf; rewrite Hc2; reflexivity).
  erewrite bind_run
    by (unfold lift; apply f_equal2; [exact Hev|reflexivity]).
  cbv beta iota.
  destruct (StdMap.count "edition" attrs);
    (erewrite bind_run by reflexivity;
     erewrite bind_run by apply Sd;
     erewrite bind_run by apply Si;
     erewrite bind_run by apply So; cbv beta iota;
     erewrite bind_run by apply Sc;
     eexists; reflexivity).
Qed.

Lemma assert_Ok c st u st' :
  assert c st = (Ok u, st') -> c = true /\ st' = st.
Proof.
  unfold assert, lift, ret. destruct c; [|discriminate].
  intros H. injection H as _ <-. auto.
Qed.

Lemma doFetch_Ok w r st fetched st' :
  doFetch w r st = (Ok fetched, st') -> flakeCache st' = flakeCache st.
Proof. unfold doFetch. intros H. injection H as _ <-. reflexivity. Qed.

(** After [fetchOrSubstituteTree] has returned, the cache answers for the
    reference it was asked for with the tree and the locked reference it
    returned. *)
Lemma fetchOrSubstituteTree_Ok_cached w r allowLookup st tree rr lr s1 :
  fetchOrSubstituteTree w r allowLookup st = (Ok (tree, rr, lr), s1) ->
  lookupInFlakeCache (flakeCache s1) r = Some (tree, lr)
  /\ match narHash (input r) with
     | None => True
     | Some _ =>
         String.eqb (storePath tree) (computeStorePath w (input r)) = true
     end.
Proof.
  unfold fetchOrSubstituteTree. intros H.
  apply bind_Ok in H. destruct H as (st0 & s0 & Hst & H).
  unfold getState in Hst. injection Hst as <- <-.
  apply bind_Ok in H. destruct H as ([[t0 l0] rr0] & s2 & Hlook & H).
  apply bind_Ok in H. destruct H as (u1 & s3 & Hallow & H).
  apply bind_Ok in H. destruct H as (u2 & s4 & Hassert & H).
  apply assert_Ok in Hassert. destruct Hassert as [Hassert ->].
  unfold ret in H. injection H as <- <- <- <-.
  assert (Hc3 : flakeCache s3 = flakeCache s2).
  { unfold allowPath in Hallow. injection Hallow as _ <-.
    now destruct (allowedPaths s2). }
  rewrite Hc3. split.
  2:{ destruct (narHash (input r)); auto. }
  clear Hassert Hallow Hc3 s3 u1 u2.
  destruct (lookupInFlakeCache (flakeCache st) r) as [f|] eqn:Hhit.
  - unfold ret in Hlook. injection Hlook as -> _ <-. exact Hhit.
  - apply bind_Ok in Hlook.
    destruct Hlook as ([[t1 l1] rr1] & s5 & Hfetch & Hpush).
    apply bind_Ok in Hpush. destruct Hpush as (u & s6 & Hpush & Hret).
    unfold ret in Hret. injection Hret as <- <- <- <-.
    unfold cachePush in Hpush. injection Hpush as _ <-. simpl flakeCache.
    destruct (isDirect w (input r)).
    + apply bind_Ok in Hfetch. destruct Hfetch as (f & s7 & Hf & Hret).
      unfold ret in Hret. injection Hret as -> _ <-.
      apply doFetch_Ok in Hf. rewrite Hf.
      now apply lookupInFlakeCache_last.
    + destruct allowLookup; [|discriminate].
      apply bind_Ok in Hfetch. destruct Hfetch as (rres & s7 & Hres & H).
      unfold lift in Hres. injection Hres as Hres <-.
      apply bind_Ok in H. destruct H as (st1 & s8 & Hst & H).
      unfold getState in Hst. injection Hst as <- <-.
      rewrite Hhit in H.
      apply bind_Ok in H. destruct H as (f & s9 & Hf & H).
      apply doFetch_Ok in Hf.
      apply bind_Ok in H. destruct H as (u' & s10 & Hpush & Hret).
      unfold ret in Hret. injection Hret as -> _ <-.
      unfold cachePush in Hpush. injection Hpush as _ <-. simpl flakeCache.
      rewrite Hf.
      destruct (lookupInFlakeCache (flakeCache st ++ [(rres, (t1, l1))]) r)
        as [g|] eqn:Hmid.
      * erewrite lookupInFlakeCache_app by exact Hmid. f_equal.
        clear -Hhit Hmid. induction (flakeCache st) as [|[k v] c IH];
          simpl in *.
        -- destruct (FlakeRef_eqb r rres); congruence.
        -- destruct (FlakeRef_eqb r k); [discriminate|auto].
      * now apply lookupInFlakeCache_last.
Qed.

(** A flake that has been loaded is in the cache with an entry it loads
    from. *)
Lemma getFlake_Ok_loadable w r allowLookup st fl st1 :
  getFlake w r allowLookup st = (Ok fl, st1) ->
  exists fetched,
    lookupInFlakeCache (flakeCache st1) r = Some fetched
    /\ loadable w r fetched.
Proof.
  unfold getFlake. intros H.
  apply bind_Ok in H. destruct H as ([[tree rr] lr] & s1 & Hfetch & Hread).
  apply fetchOrSubstituteTree_Ok_cached in Hfetch.
  destruct Hfetch as [Hhit Hassert].
  exists (tree, lr). split.
  - destruct (steady_readFlake w r (tree, rr, lr) s1) as ((l & Hc) & _).
    rewrite Hread in Hc. simpl in Hc. rewrite Hc.
    now apply lookupInFlakeCache_app.
  - split; [exact Hassert|]. simpl. eapply readFlake_again; eauto.
Qed.

(** The invariant holds again when a loaded flake has been pushed. *)
Lemma parentsLoaded_pushed w flags r st fl st1 :
  parentsLoaded w flags st ->
  allowMutable flags = true \/ isImmutable w (input r) = true ->
  getFlake w r (useRegistries flags) st = (Ok fl, st1) ->
  parentsLoaded w flags (withParents (parents st1 ++ [r]) st1).
Proof.
  intros Hinv Hguard Hget.
  assert (Hinv1 : parentsLoaded w flags st1).
  { pose proof (@parentsLoaded_steady _ w flags
                  (getFlake w r (useRegistries flags)) st
                  (steady_getFlake w r (useRegistries flags)) Hinv) as Hs.
    rewrite Hget in Hs. now apply Hs. }
  intros r0 Hin. simpl parents in Hin. simpl flakeCache.
  apply in_app_or in Hin. destruct Hin as [Hin|[<-|[]]].
  - now apply Hinv1.
  - split; [exact Hguard|]. eapply getFlake_Ok_loadable; eauto.
Qed.

(** *** Exceptions on the way out of the loop and of [lockFlake] *)

Import Laws Runs.

Lemma fst_bind_Throw {A B} (m : M A) (k : A -> M B) st e :
  fst (m st) = Throw e -> fst (bind m k st) = Throw e.
Proof.
  unfold bind. destruct (m st) as [[a|e'| |] s]; simpl; intros H;
    try discriminate.
  now injection H as ->.
Qed.

(** An exception thrown in a turn of the loop, after the turns before it
    have gone through, leaves the loop. *)
Lemma lockInputs_throws_after w flags rec id originalInput after prefix
    oldNode e before :
  forall node ovs st before' node1 ovs1 st1,
    lockInputs w flags rec before node prefix oldNode ovs st
    = (Ok (before', node1, ovs1), st1) ->
    fst (lockInput w flags rec id originalInput node1 prefix oldNode ovs1 st1)
    = Throw e ->
    fst (lockInputs w flags rec (before ++ (id, originalInput) :: after) node
           prefix oldNode ovs st)
    = Throw e.
Proof.
  induction before as [|[k x] before IH];
    intros node ovs st before' node1 ovs1 st1 Hb Ht.
  - simpl in Hb. unfold ret, lift in Hb. injection Hb as _ <- <- <-.
    simpl. now apply fst_bind_Throw.
  - simpl in Hb. apply bind_Ok in Hb.
    destruct Hb as ([[i1 n1] o1] & s1 & H1 & Hb).
    apply bind_Ok in Hb. destruct Hb as ([[r1 n2] o2] & s2 & H2 & Hb).
    unfold ret, lift in Hb. injection Hb as _ <- <- <-.
    simpl. erewrite bind_run by exact H1.
    apply fst_bind_Throw. eapply IH; eauto.
Qed.

Lemma computeLocks_throws_after w flags fuel id originalInput after prefix
    oldNode e before node ovs st before' node1 ovs1 st1 :
  lockInputs w flags (computeLocks w flags fuel) before node prefix oldNode
    ovs st = (Ok (before', node1, ovs1), st1) ->
  fst (lockInput w flags (computeLocks w flags fuel) id originalInput node1
         prefix oldNode ovs1 st1)
  = Throw e ->
  fst (computeLocks w flags (S fuel) (before ++ (id, originalInput) :: after)
         node prefix oldNode ovs st)
  = Throw e.
Proof.
  intros Hb Ht. simpl. unfold computeLocksBody.
  apply fst_bind_Throw. eapply lockInputs_throws_after; eauto.
Qed.

(** The turn for an input that needs a new lock entry. *)
Lemma lockInput_new w flags rec id originalInput node prefix oldNode ovs st
    input hasOverride ovs1 inputRef :
  applyOverride w (prefix ++ [id]) id originalInput ovs
    = (input, hasOverride, ovs1) ->
  follows input = None ->
  ref input = Some inputRef ->
  keepOldLock (findOldLock flags oldNode (prefix ++ [id]) id) inputRef
    hasOverride = false ->
  lockInput w flags rec id originalInput node prefix oldNode ovs st
  = lockFresh w flags rec id input input inputRef
      (findOldLock flags oldNode (prefix ++ [id]) id) node (prefix ++ [id])
      ovs1 (withUpdatesUsed (pathInsert (prefix ++ [id]) (updatesUsed st)) st).
Proof.
  intros Hov Hfol Href Hkeep.
  unfold lockInput. rewrite Hov, Hfol, Href.
  erewrite bind_run by reflexivity.
  erewrite bind_run by reflexivity.
  destruct (findOldLock flags oldNode (prefix ++ [id]) id) as [ol|];
    [rewrite Hkeep|]; reflexivity.
Qed.

(** The turn for an input whose old lock entry is kept. *)
Lemma lockInput_kept w flags rec id originalInput node prefix oldNode ovs st
    input hasOverride ovs1 inputRef ol :
  applyOverride w (prefix ++ [id]) id originalInput ovs
    = (input, hasOverride, ovs1) ->
  follows input = None ->
  ref input = Some inputRef ->
  findOldLock flags oldNode (prefix ++ [id]) id = Some ol ->
  keepOldLock (Some ol) inputRef hasOverride = true ->
  lockInput w flags rec id originalInput node prefix oldNode ovs st
  = lockKept w flags rec id input ol node (prefix ++ [id]) ovs1
      (withUpdatesUsed (pathInsert (prefix ++ [id]) (updatesUsed st)) st).
Proof.
  intros Hov Hfol Href Hold Hkeep.
  unfold lockInput. rewrite Hov, Hfol, Href.
  erewrite bind_run by reflexivity.
  erewrite bind_run by reflexivity.
  rewrite Hold, Hkeep. reflexivity.
Qed.

(** A new lock entry for a flake whose reference is on the [parents]
    stack: nothing fails before the cycle is seen. *)
Lemma lockFresh_cycle w flags rec id input originalInput inputRef oldLock node
    inputPath ovs st :
  parentsLoaded w flags st ->
  isFlake input = true ->
  existsb (fun parent => FlakeRef_eqb parent inputRef) (parents st) = true ->
  fst (lockFresh w flags rec id input originalInput inputRef oldLock node
         inputPath ovs st)
  = Throw CircularImport.
Proof.
  intros Hinv Hfl Hcyc.
  destruct (Hinv inputRef (existsb_FlakeRef_In _ _ Hcyc))
    as (Hguard & fetched & Hhit & Hload).
  destruct (@getFlake_cached w inputRef (useRegistries flags) st fetched
              Hhit Hload) as (fl & st1 & Hget).
  assert (Hp1 : parents st1 = parents st).
  { destruct (steady_getFlake w inputRef (useRegistries flags) st)
      as (_ & _ & Hp).
    rewrite Hget in Hp. now apply Hp. }
  unfold lockFresh.
  erewrite bind_run.
  2:{ unfold throwIf. destruct Hguard as [-> | ->];
        [|rewrite andb_false_r]; reflexivity. }
  rewrite Hfl. erewrite bind_run by exact Hget.
  unfold lockFreshFlake.
  erewrite bind_run by reflexivity.
  erewrite bind_Throw; [reflexivity|].
  unfold throwIf. now rewrite Hp1, Hcyc.
Qed.

Lemma parentsLoaded_used w flags st u :
  parentsLoaded w flags st -> parentsLoaded w flags (withUpdatesUsed u st).
Proof.
  intros Hinv. eapply parentsLoaded_extends; [exact Hinv|reflexivity|].
  exists []. simpl. now rewrite app_nil_r.
Qed.

Section Throws.
Variable w : World.
Variable flags : LockFlags.
Variable Q : FlakeInput -> FlakeRef -> State -> Prop.
Variable e : Error.

(** The turn of which [Q] holds throws [e]. *)
Hypothesis turn_throws :
  forall rec id input inputRef oldLock node inputPath ovs st,
    parentsLoaded w flags st ->
    Q input inputRef st ->
    fst (lockFresh w flags rec id input input inputRef oldLock node inputPath
           ovs st)
    = Throw e.

(** The exception of the turn that a call of [computeLocks] comes to leaves
    that call, from whatever depth. *)
Lemma comesTo_throws fuel flakeInputs node prefix oldNode ovs st :
  comesTo w flags Q fuel flakeInputs node prefix oldNode ovs st ->
  parentsLoaded w flags st ->
  fst (computeLocks w flags fuel flakeInputs node prefix oldNode ovs st)
  = Throw e.
Proof.
  induction 1 as
    [fuel before id originalInput after node prefix oldNode ovs st
       before' node1 ovs1 st1 input hasOverride ovs2 inputRef
       Hb Hov Hfol Href Hkeep HQ
    |fuel before id originalInput after node prefix oldNode ovs st
       before' node1 ovs1 st1 input hasOverride ovs2 inputRef inputFlake st2
       oldBase Hb Hov Hfol Href Hkeep Hguard Hfl Hget Hnew Hbase Hbelow IH
    |fuel before id originalInput after node prefix oldNode ovs st
       before' node1 ovs1 st1 input hasOverride ovs2 inputRef ol
       childFlakeInputs st2 Hb Hov Hfol Href Hold Hkeep Hchild Hbelow IH];
    intros Hinv.
  - assert (Hinv1 : parentsLoaded w flags st1).
    { pose proof (@parentsLoaded_steady _ w flags
                    (lockInputs w flags (computeLocks w flags fuel) before
                       node prefix oldNode ovs) st
                    (@steady_lockInputs w flags (computeLocks w flags fuel)
                       (steady_computeLocks w flags fuel) before node prefix
                       oldNode ovs) Hinv) as Hs.
      rewrite Hb in Hs. now apply Hs. }
    eapply computeLocks_throws_after; [exact Hb|].
    erewrite lockInput_new by eassumption.
    apply turn_throws; [|exact HQ].
    now apply parentsLoaded_used.
  - assert (Hinv1 : parentsLoaded w flags st1).
    { pose proof (@parentsLoaded_steady _ w flags
                    (lockInputs w flags (computeLocks w flags fuel) before
                       node prefix oldNode ovs) st
                    (@steady_lockInputs w flags (computeLocks w flags fuel)
                       (steady_computeLocks w flags fuel) before node prefix
                       oldNode ovs) Hinv) as Hs.
      rewrite Hb in Hs. now apply Hs. }
    eapply computeLocks_throws_after; [exact Hb|].
    erewrite lockInput_new by eassumption.
    unfold lockFresh.
    erewrite bind_run.
    2:{ unfold throwIf. destruct Hguard as [-> | ->];
          [|rewrite andb_false_r]; reflexivity. }
    rewrite Hfl. erewrite bind_run by exact Hget.
    pose proof (@lockFreshFlake_pushes_and_pops w
                  (computeLocks w flags fuel) id input input inputRef
                  inputFlake (findOldLock flags oldNode (prefix ++ [id]) id)
                  node1 (prefix ++ [id]) ovs2 st2 oldBase
                  (steady_computeLocks w flags fuel) Hnew Hbase) as Hpp.
    cbv zeta in Hpp. rewrite Hpp. cbn [fst].
    rewrite IH; [reflexivity|].
    eapply parentsLoaded_pushed; [|exact Hguard|exact Hget].
    now apply parentsLoaded_used.
  - assert (Hinv1 : parentsLoaded w flags st1).
    { pose proof (@parentsLoaded_steady _ w flags
                    (lockInputs w flags (computeLocks w flags fuel) before
                       node prefix oldNode ovs) st
                    (@steady_lockInputs w flags (computeLocks w flags fuel)
                       (steady_computeLocks w flags fuel) before node prefix
                       oldNode ovs) Hinv) as Hs.
      rewrite Hb in Hs. now apply Hs. }
    eapply computeLocks_throws_after; [exact Hb|].
    erewrite lockInput_kept by eassumption.
    assert (Hinv0 : parentsLoaded w flags
                      (withUpdatesUsed
                         (pathInsert (prefix ++ [id]) (updatesUsed st1)) st1))
      by now apply parentsLoaded_used.
    unfold lockKept.
    destruct (hasChildUpdate flags (prefix ++ [id])).
    + destruct Hchild as (inputFlake & Hget & ->).
      erewrite bind_run
        by (erewrite bind_run by exact Hget; reflexivity).
      apply fst_bind_Throw. apply IH.
      pose proof (@parentsLoaded_steady _ w flags
                    (getFlake w (lockedRef ol) false) _
                    (steady_getFlake w (lockedRef ol) false) Hinv0) as Hs.
      rewrite Hget in Hs. now apply Hs.
    + destruct Hchild as [-> ->].
      erewrite bind_run by reflexivity.
      apply fst_bind_Throw. now apply IH.
Qed.

(** The same for the call of [lockFlake]. *)
Lemma lockFlakeComesTo_throws fuel topRef st :
  lockFlakeComesTo w fuel topRef flags Q st ->
  fst (lockFlake w fuel topRef flags st) = Throw e.
Proof.
  intros (Hen & flake0 & st1 & oldLockFile & Hget & Hread & Hcomes).
  unfold lockFlake.
  erewrite bind_run by (unfold throwIf; rewrite Hen; reflexivity).
  erewrite bind_run by reflexivity.
  erewrite bind_run by reflexivity.
  erewrite bind_run by reflexivity.
  erewrite bind_run by exact Hget.
  unfold lockFileOf in Hread.
  erewrite bind_run by (unfold lift; rewrite Hread; reflexivity).
  apply fst_bind_Throw.
  apply comesTo_throws; [exact Hcomes|].
  intros r Hin.
  destruct (steady_getFlake w topRef (useRegistries flags) (fresh st))
    as (_ & _ & Hp).
  rewrite Hget in Hp. simpl in Hp. rewrite Hp in Hin by exact I.
  destruct Hin.
Qed.

End Throws.

(** C2, as amended.  With [allowMutable = false]: (1) [lockFlake] fails
    with [MutableInPureMode] when its run comes to an input that needs a new
    lock entry and whose (possibly overridden) reference is mutable, in the
    loop over the inputs of the top-level flake or of a flake below it;
    (2) the turn for such an input throws before anything is fetched, its
    input path marked as used; (3) the top-level reference is checked by the
    primitive [getFlake] under pure evaluation, before [lockFlake] is
    called. *)
Theorem pure_mode_rejects_mutable_input :
  (forall w fuel topRef flags st,
      allowMutable flags = false ->
      lockFlakeComesTo w fuel topRef flags (mutableRef w) st ->
      fst (lockFlake w fuel topRef flags st) = Throw MutableInPureMode)
  /\ (forall w flags rec id originalInput node prefix oldNode ovs st
             input hasOverride ovs' inputRef,
         applyOverride w (prefix ++ [id]) id originalInput ovs
           = (input, hasOverride, ovs') ->
         follows input = None ->
         ref input = Some inputRef ->
         keepOldLock (findOldLock flags oldNode (prefix ++ [id]) id) inputRef
           hasOverride = false ->
         allowMutable flags = false ->
         isImmutable w (Flake.input inputRef) = false ->
         lockInput w flags rec id originalInput node prefix oldNode ovs st
         = (Throw MutableInPureMode,
            withUpdatesUsed (pathInsert (prefix ++ [id]) (updatesUsed st)) st))
  /\ (forall w defaults fuel url topRef st,
         parseFlakeRefURL w url = Ok topRef ->
         pureEval w = true ->
         isImmutable w (Flake.input topRef) = false ->
         prim_getFlake w defaults fuel url st = (Throw MutableInPureMode, st)).
Proof.
  split; [|split].
  - intros w fuel topRef flags st Ha Hcomes.
    eapply lockFlakeComesTo_throws; [|exact Hcomes].
    intros rec id input inputRef oldLock node inputPath ovs st0 _ Hi.
    unfold mutableRef in Hi.
    now rewrite (@lockFresh_mutable w flags rec id input input inputRef
                   oldLock node inputPath ovs st0 Ha Hi).
  - intros w flags rec id originalInput node prefix oldNode ovs st
           input hasOverride ovs' inputRef Hov Hfol Href Hkeep Ha Hi.
    erewrite lockInput_new by eassumption.
    now apply lockFresh_mutable.
  - intros w defaults fuel url topRef st Hp Hpure Hi.
    unfold prim_getFlake, bind, lift, throwIf, throw.
    now rewrite Hp, Hpure, Hi.
Qed.

(** The amended statement at [world1]: [lockFlake] on [app] under
    [pureFlags] comes to the input [dep], a git repository without
    revision. *)
Lemma pure_mode_rejects_mutable_input_witness :
  allowMutable Examples.pureFlags = false
  /\ lockFlakeComesTo Examples.world1 2 (Examples.gitRef "app")
       Examples.pureFlags (mutableRef Examples.world1) Examples.state0
  /\ fst (lockFlake Examples.world1 2 (Examples.gitRef "app")
            Examples.pureFlags Examples.state0)
     = Throw MutableInPureMode.
Proof.
  assert (H : lockFlakeComesTo Examples.world1 2 (Examples.gitRef "app")
                Examples.pureFlags (mutableRef Examples.world1)
                Examples.state0).
  { split; [reflexivity|].
    eexists _, _, _. split; [vm_compute; reflexivity|].
    split; [vm_compute; reflexivity|].
    eapply comesTo_here with (before := []); vm_compute; reflexivity. }
  split; [reflexivity|]. split; [exact H|].
  exact (proj1 pure_mode_rejects_mutable_input Examples.world1 2
           (Examples.gitRef "app") Examples.pureFlags Examples.state0
           eq_refl H).
Defined.

(** C2 as stated does not hold: [path:./tree] is mutable and
    [allowMutable] is off, yet [lockFlake] returns a (here empty) lock
    file. *)
Lemma lockFlake_accepts_mutable_top :
  allowMutable Examples.pureFlags = false
  /\ isImmutable Examples.world1 (Flake.input (Examples.pathRef "./tree"))
     = false
  /\ fst (lockFlake Examples.world1 1 (Examples.pathRef "./tree")
            Examples.pureFlags Examples.state0)
     <> Throw MutableInPureMode
  /\ (exists fl,
         fst (lockFlake Examples.world1 1 (Examples.pathRef "./tree")
                Examples.pureFlags Examples.state0)
         = Ok (mkLockedFlake fl (mkLockFile []))).
Proof.
  split; [reflexivity|]. split; [reflexivity|]. split.
  - vm_compute. discriminate.
  - eexists. vm_compute. reflexivity.
Qed.

(** C5.  (1) [lockFlake] fails with [CircularImport] when its run comes to
    an input that is a flake, needs a new lock entry, and whose reference,
    after overrides, is on the [parents] stack; nothing can fail before in
    that turn, since what is on the stack has passed the mutability test and
    loads from the fetch cache.  (2) Where the reference is not on the stack,
    the child flake is processed with the reference pushed on the stack,
    and when that call has returned or thrown the stack is as it was before.
    (3) At any depth, [computeLocks] hands the stack back as it found it
    when it returns or throws. *)
Theorem circular_import_detected :
  (forall w fuel topRef flags st,
      lockFlakeComesTo w fuel topRef flags onParents st ->
      fst (lockFlake w fuel topRef flags st) = Throw CircularImport)
  /\ (forall w rec id input originalInput inputRef inputFlake oldLock node
             inputPath ovs st oldBase,
         steadyComputeLocks rec ->
         existsb (fun parent => FlakeRef_eqb parent inputRef) (parents st)
           = false ->
         match oldLock with
         | Some ol => lnInputs ol = oldBase
         | None =>
             exists lf,
               readLockFile w
                 (actualPath (sourceInfo inputFlake) ++ "/"
                  ++ subdir (flLockedRef inputFlake) ++ "/flake.lock")%string
               = Ok lf
               /\ root lf = oldBase
         end ->
         let pushed := withParents (parents st ++ [inputRef]) st in
         let r := rec (inputs inputFlake) [] inputPath (Some oldBase)
                    (overrides input) pushed in
         lockFreshFlake w rec id input originalInput inputRef inputFlake
           oldLock node inputPath ovs st
         = (match fst r with
            | Ok (_, childInputs, inputOverrides) =>
                Ok (set_overrides inputOverrides input,
                    StdMap.insert_or_assign id
                      (ELocked (flLockedRef inputFlake)
                         match ref originalInput with
                         | Some o => o
                         | None => inputRef
                         end true childInputs) node,
                    ovs)
            | Throw e => Throw e
            | AssertFail => AssertFail
            | OutOfFuel => OutOfFuel
            end,
            match fst r with
            | Ok _ | Throw _ => withParents (parents st) (snd r)
            | AssertFail | OutOfFuel => snd r
            end))
  /\ (forall w flags fuel flakeInputs node prefix oldNode ovs st,
         settled (fst (computeLocks w flags fuel flakeInputs node prefix
                         oldNode ovs st)) ->
         parents (snd (computeLocks w flags fuel flakeInputs node prefix
                         oldNode ovs st))
         = parents st).
Proof.
  split; [|split].
  - intros w fuel topRef flags st Hcomes.
    eapply lockFlakeComesTo_throws; [|exact Hcomes].
    intros rec id input inputRef oldLock node inputPath ovs st0 Hinv
           [Hfl Hcyc].
    now apply lockFresh_cycle.
  - intros. now apply lockFreshFlake_pushes_and_pops.
  - intros w flags fuel fi node prefix oldNode ovs st.
    apply (steady_computeLocks w flags fuel fi node prefix oldNode ovs st).
Qed.

(** The theorem at [world1], on the cycle of the specification: [a]
    imports [b] and [b] imports [a], both through the registry.  The run
    of [lockFlake] on [a] goes down into [b], from there into [a], and there
    comes to the input [b], whose reference is on the stack. *)
Lemma circular_import_detected_witness :
  lockFlakeComesTo Examples.world1 5 (Examples.gitRef "a") Examples.flags0
    onParents Examples.state0
  /\ fst (lockFlake Examples.world1 5 (Examples.gitRef "a") Examples.flags0
            Examples.state0)
     = Throw CircularImport.
Proof.
  assert (H : lockFlakeComesTo Examples.world1 5 (Examples.gitRef "a")
                Examples.flags0 onParents Examples.state0).
  { split; [reflexivity|].
    eexists _, _, _. split; [vm_compute; reflexivity|].
    split; [vm_compute; reflexivity|].
    eapply comesTo_below_new with (before := []);
      [vm_compute; reflexivity | vm_compute; reflexivity
      |vm_compute; reflexivity | vm_compute; reflexivity
      |vm_compute; reflexivity | left; reflexivity
      |vm_compute; reflexivity | vm_compute; reflexivity
      |vm_compute; reflexivity
      |vm_compute; eexists; split; reflexivity |].
    eapply comesTo_below_new with (before := []);
      [vm_compute; reflexivity | vm_compute; reflexivity
      |vm_compute; reflexivity | vm_compute; reflexivity
      |vm_compute; reflexivity | left; reflexivity
      |vm_compute; reflexivity | vm_compute; reflexivity
      |vm_compute; reflexivity
      |vm_compute; eexists; split; reflexivity |].
    eapply comesTo_here with (before := []);
      [vm_compute; reflexivity | vm_compute; reflexivity
      |vm_compute; reflexivity | vm_compute; reflexivity
      |vm_compute; reflexivity |].
    split; vm_compute; reflexivity. }
  split; [exact H|].
  exact (proj1 circular_import_detected Examples.world1 5
           (Examples.gitRef "a") Examples.flags0 Examples.state0 H).
Defined.

(** The boundary case of the specification: [a] imports [b] and [b]
    imports [a], both through the registry. *)
Lemma lockFlake_cycle_a_b_a :
  fst (lockFlake Examples.world1 5 (Examples.gitRef "a") Examples.flags0
         Examples.state0)
  = Throw CircularImport
  /\ parents (snd (lockFlake Examples.world1 5 (Examples.gitRef "a")
                     Examples.flags0 Examples.state0)) = [].
Proof. split; vm_compute; reflexivity. Qed.

End FlakeFacts.

(* ===================================================================== *)
(** ** More facts: the registry of input schemes *)

Module SchemesFacts.
Import Schemes.

Section Registry.
Variable ParsedURL : Type.
Variable parseHash : string -> Outcome Hash.
Implicit Types (l : list (InputScheme ParsedURL)) (s : InputScheme ParsedURL).

Lemma fromURLLoop_app l l' url :
  fromURLLoop (l ++ l') url
  = match fromURLLoop l url with
    | Unsupported => fromURLLoop l' url
    | r => r
    end.
Proof.
  induction l as [|s l IH]; simpl.
  - now destruct (fromURLLoop l' url).
  - destruct (schemeFromURL s url) as [[res|]| | |]; auto.
Qed.

Lemma fromAttrsLoop_app l l' attrs attrs2 :
  fromAttrsLoop parseHash (l ++ l') attrs attrs2
  = match fromAttrsLoop parseHash l attrs attrs2 with
    | Unsupported => fromAttrsLoop parseHash l' attrs attrs2
    | r => r
    end.
Proof.
  induction l as [|s l IH]; simpl.
  - now destruct (fromAttrsLoop parseHash l' attrs attrs2).
  - destruct (schemeFromAttrs s attrs2) as [[res|]| | |]; auto.
    destruct (StdMap.get "narHash" attrs) as [h|]; auto.
    destruct (parseHash h); auto.
Qed.

(** Registering one more scheme changes no answer the registry already
    gives: schemes are asked in the order of their registration, and only
    an input that was unsupported can become supported. *)
Theorem registration_keeps_answers s (inputSchemes : Registry ParsedURL) :
  (forall url r,
      inputFromURL inputSchemes url = r ->
      r <> Unsupported -> r <> NullRegistry ->
      inputFromURL (registerInputScheme s inputSchemes) url = r)
  /\ (forall attrs r,
         inputFromAttrs parseHash inputSchemes attrs = r ->
         r <> Unsupported -> r <> NullRegistry ->
         inputFromAttrs parseHash (registerInputScheme s inputSchemes) attrs
         = r).
Proof.
  split; intros x r H Hu Hn; destruct inputSchemes as [l|];
    simpl in *; try congruence.
  - rewrite fromURLLoop_app, H. now destruct r.
  - unfold inputFromAttrs in *. simpl. rewrite fromAttrsLoop_app, H.
    now destruct r.
Qed.

(** An input is unsupported exactly when every registered scheme declines
    it. *)
Theorem unsupported_iff_all_decline l url :
  inputFromURL (Some l) url = Unsupported
  <-> forall s, In s l -> schemeFromURL s url = Ok None.
Proof.
  simpl. induction l as [|s l IH]; simpl.
  - split; [intros _ s []|reflexivity].
  - destruct (schemeFromURL s url) as [[res|]| | |] eqn:E;
      try (split; [discriminate|intros H; specialize (H s (or_introl eq_refl));
                                 congruence]).
    rewrite IH. split.
    + intros H s' [<-|Hin]; auto.
    + intros H s' Hin. apply H. now right.
Qed.

Lemma get_erase_NoDup {V} k (m : StdMap.t V) :
  NoDup (map fst m) -> StdMap.get k (StdMap.erase k m) = None.
Proof.
  induction m as [|[k' v] m IH]; simpl; [reflexivity|].
  intros Hnd. inversion Hnd as [|? ? Hnotin Hnd']; subst.
  destruct (String.eqb_spec k k') as [->|Hne].
  - clear IH Hnd Hnd'. induction m as [|[k2 v2] m IHm]; simpl; auto.
    destruct (String.eqb_spec k' k2) as [->|_].
    + exfalso. apply Hnotin. now left.
    + apply IHm. intros Hin. apply Hnotin. now right.
  - simpl. apply String.eqb_neq in Hne. rewrite Hne. auto.
Qed.

(** The input [inputFromAttrs] makes comes from the first scheme, in the
    order of registration, that takes the attributes; that scheme is shown
    the attributes without [narHash], and the hash given in [narHash] is
    what the input carries. *)
Theorem inputFromAttrs_made inputSchemes attrs i :
  NoDup (map fst attrs) ->
  inputFromAttrs parseHash inputSchemes attrs = MadeInput i ->
  exists before s after res,
    inputSchemes = Some (before ++ s :: after)
    /\ (forall s', In s' before ->
          schemeFromAttrs s' (StdMap.erase "narHash" attrs) = Ok None)
    /\ schemeFromAttrs s (StdMap.erase "narHash" attrs) = Ok (Some res)
    /\ StdMap.get "narHash" (StdMap.erase "narHash" attrs) = None
    /\ inAttrs i = inAttrs res
    /\ match StdMap.get "narHash" attrs with
       | Some hs => exists h, parseHash hs = Ok h /\ narHash i = Some h
       | None => narHash i = narHash res
       end.
Proof.
  intros Hnd. unfold inputFromAttrs.
  destruct inputSchemes as [l|]; [|discriminate].
  set (attrs2 := StdMap.erase "narHash" attrs).
  induction l as [|s l IH]; simpl; [discriminate|].
  destruct (schemeFromAttrs s attrs2) as [[res|]| | |] eqn:Es;
    try discriminate.
  - intros H. exists [], s, l, res. repeat split; auto.
    + intros s' [].
    + now apply get_erase_NoDup.
    + destruct (StdMap.get "narHash" attrs) as [hs|].
      * destruct (parseHash hs); try discriminate. now injection H as <-.
      * now injection H as <-.
    + destruct (StdMap.get "narHash" attrs) as [hs|].
      * destruct (parseHash hs) as [h| | |]; try discriminate.
        injection H as <-. eauto.
      * now injection H as <-.
  - intros H. destruct (IH H) as (before & s0 & after & res & E & Hb & Hs & R).
    injection E as ->.
    exists (s :: before), s0, after, res. repeat split; try apply R; auto.
    intros s' [<-|Hin]; auto.
Qed.

(** [toAttrs] adds [type] and, when the input has a NAR hash, [narHash] to
    what the scheme wrote; an attribute the scheme wrote itself under one
    of the two names is left as it is. *)
Theorem toAttrs_lookup (toAttrsInternal : Input -> Attrs)
    (type : Input -> string) (hashToSRI : Hash -> string) self k :
  StdMap.get k (toAttrs toAttrsInternal type hashToSRI self)
  = match StdMap.get k (toAttrsInternal self) with
    | Some v => Some v
    | None =>
        if String.eqb k "type" then Some (type self)
        else if String.eqb k "narHash"
             then option_map hashToSRI (narHash self)
             else None
    end.
Proof.
  unfold toAttrs.
  set (internal := toAttrsInternal self).
  set (withHash := match narHash self with
                   | Some h => StdMap.emplace "narHash" (hashToSRI h) internal
                   | None => internal
                   end).
  assert (Hh : StdMap.get k withHash
               = match StdMap.get k internal with
                 | Some v => Some v
                 | None => if String.eqb k "narHash"
                           then option_map hashToSRI (narHash self) else None
                 end).
  { unfold withHash. destruct (narHash self) as [h|]; simpl.
    - destruct (String.eqb_spec k "narHash") as [->|Hne].
      + destruct (StdMap.get "narHash" internal) as [v|] eqn:E.
        * erewrite StdMapFacts.get_emplace_present by eassumption. exact E.
        * now apply StdMapFacts.get_emplace_absent.
      + rewrite StdMapFacts.get_emplace_other by assumption.
        now destruct (StdMap.get k internal).
    - destruct (StdMap.get k internal); [reflexivity|].
      now destruct (String.eqb k "narHash"). }
  destruct (String.eqb_spec k "type") as [->|Hne].
  - destruct (StdMap.get "type" withHash) as [v|] eqn:E.
    + erewrite StdMapFacts.get_emplace_present by eassumption.
      rewrite E. rewrite Hh. simpl.
      now destruct (StdMap.get "type" internal).
    + rewrite StdMapFacts.get_emplace_absent by assumption.
      rewrite Hh in E. simpl in E.
      now destruct (StdMap.get "type" internal).
  - rewrite StdMapFacts.get_emplace_other by assumption. exact Hh.
Qed.

End Registry.

Lemma registration_keeps_answers_witness :
  inputFromAttrs SchemeExamples.sriHash
    (registerInputScheme SchemeExamples.anyScheme
       (registerInputScheme SchemeExamples.gitScheme None))
    SchemeExamples.gitAttrs
  = MadeInput
      (mkInput [("type", "git"); ("url", "https://x/y")]
         (Some "sha256-abc")).
Proof.
  refine (proj2 (@registration_keeps_answers Attrs SchemeExamples.sriHash
                   SchemeExamples.anyScheme
                   (registerInputScheme SchemeExamples.gitScheme None))
            SchemeExamples.gitAttrs _ eq_refl _ _); discriminate.
Defined.

Lemma unsupported_iff_all_decline_witness :
  inputFromURL (Some [SchemeExamples.gitScheme]) [("type", "path")]
  = Unsupported.
Proof.
  apply (proj2 (@unsupported_iff_all_decline Attrs
                  [SchemeExamples.gitScheme] [("type", "path")])).
  intros s [<-|[]]. reflexivity.
Defined.

Lemma inputFromAttrs_made_witness :
  exists before s after res,
    registerInputScheme SchemeExamples.anyScheme
      (registerInputScheme SchemeExamples.gitScheme None)
    = Some (before ++ s :: after)
    /\ (forall s', In s' before ->
          schemeFromAttrs s' (StdMap.erase "narHash" SchemeExamples.gitAttrs)
          = Ok None)
    /\ schemeFromAttrs s (StdMap.erase "narHash" SchemeExamples.gitAttrs)
       = Ok (Some res)
    /\ StdMap.get "narHash" (StdMap.erase "narHash" SchemeExamples.gitAttrs)
       = None
    /\ inAttrs (mkInput [("type", "git"); ("url", "https://x/y")]
                  (Some "sha256-abc")) = inAttrs res
    /\ match StdMap.get "narHash" SchemeExamples.gitAttrs with
       | Some hs =>
           exists h,
             SchemeExamples.sriHash hs = Ok h
             /\ narHash (mkInput [("type", "git"); ("url", "https://x/y")]
                           (Some "sha256-abc")) = Some h
       | None =>
           narHash (mkInput [("type", "git"); ("url", "https://x/y")]
                      (Some "sha256-abc")) = narHash res
       end.
Proof.
  apply (@inputFromAttrs_made Attrs SchemeExamples.sriHash
           (registerInputScheme SchemeExamples.anyScheme
              (registerInputScheme SchemeExamples.gitScheme None))
           SchemeExamples.gitAttrs).
  - repeat constructor; simpl; intuition discriminate.
  - reflexivity.
Defined.

End SchemesFacts.

(* ===================================================================== *)
(** ** More facts: [Input::fetchTree] *)

Module FetchersMoreFacts.
Import Fetchers.

(** When the input has a NAR hash and the store can provide the path
    computed from it, [fetchTree] returns the substituted tree and no locked
    input; the scheme's backend and the store's path info play no part. *)
Theorem fetchTree_substitutes store self st h :
  narHash self = Some h ->
  ensurePath store (makeFixedOutputPath store true h "source") = Ok tt ->
  fetchTree store self st
  = (Ok (mkTree
           (toRealPath store (makeFixedOutputPath store true h "source"))
           (makeFixedOutputPath store true h "source")
           (mkTreeInfo (Some h) None None), None),
     allow (toRealPath store (makeFixedOutputPath store true h "source")) st).
Proof.
  intros Hh He. unfold fetchTree, substituteTree. now rewrite Hh, He.
Qed.

Lemma fetchTree_substitutes_witness :
  fst (fetchTree
         (mkStore (fun _ h name => ("/nix/store/" ++ h ++ "-" ++ name)%string)
            (fun _ => Ok tt) (fun p => p) (fun _ => Throw StoreError)
            (fun _ => Throw FetchFailure))
         (mkInput [("type", "git")] (Some "abc")) Examples.evalState0)
  = Ok (mkTree "/nix/store/abc-source" "/nix/store/abc-source"
          (mkTreeInfo (Some "abc") None None), None).
Proof.
  exact (f_equal fst
           (@fetchTree_substitutes
              (mkStore
                 (fun _ h name => ("/nix/store/" ++ h ++ "-" ++ name)%string)
                 (fun _ => Ok tt) (fun p => p) (fun _ => Throw StoreError)
                 (fun _ => Throw FetchFailure))
              (mkInput [("type", "git")] (Some "abc")) Examples.evalState0
              "abc" eq_refl eq_refl)).
Defined.

Lemma allow_paths p st :
  allowedPaths (allow p st) = option_map (cons p) (allowedPaths st).
Proof.
  unfold allow. destruct (allowedPaths st) eqn:E; simpl; [reflexivity|].
  exact E.
Qed.

Lemma fetchTree_backend_paths store self st tree oi st' :
  fetchTree_backend store self st = (Ok (tree, oi), st') ->
  allowedPaths st' = option_map (cons (actualPath tree)) (allowedPaths st)
  /\ exists t0 i0,
       fetchTreeInternal store self = Ok (t0, i0)
       /\ oi = Some i0
       /\ storePath tree = storePath t0
       /\ actualPath tree
          = (if String.eqb (actualPath t0) ""
             then toRealPath store (storePath t0) else actualPath t0)
       /\ (narHash self <> None -> narHash i0 = narHash self).
Proof.
  unfold fetchTree_backend.
  destruct (fetchTreeInternal store self) as [[t0 i0]| | |]; try discriminate.
  set (tree1 := if String.eqb (actualPath t0) "" then _ else t0).
  assert (Hap : actualPath tree1
                = if String.eqb (actualPath t0) ""
                  then toRealPath store (storePath t0) else actualPath t0)
    by (unfold tree1; destruct (String.eqb _ _); reflexivity).
  assert (Hsp : storePath tree1 = storePath t0)
    by (unfold tree1; destruct (String.eqb _ _); reflexivity).
  clearbody tree1.
  destruct (infoNarHash (info tree1)) as [h1|] eqn:Hh1.
  - rewrite Hh1.
    destruct (negb _); try discriminate.
    destruct (narHash self) as [hs|].
    + destruct (negb _) eqn:En; try discriminate.
      intros H. injection H as <- <- <-. rewrite allow_paths.
      split; [reflexivity|]. exists t0, i0. repeat split; auto.
      intros _. apply negb_false_iff in En.
      symmetry. now apply option_eqb_string_true.
    + intros H. injection H as <- <- <-. rewrite allow_paths.
      split; [reflexivity|]. exists t0, i0. repeat split; auto.
      intros C. now elim C.
  - destruct (queryPathInfo_narHash store (storePath tree1)) as [h| | |];
      try discriminate.
    simpl infoNarHash.
    destruct (negb _); try discriminate.
    destruct (narHash self) as [hs|].
    + destruct (negb _) eqn:En; try discriminate.
      intros H. injection H as <- <- <-. rewrite allow_paths. simpl.
      split; [reflexivity|]. exists t0, i0. repeat split; auto.
      intros _. apply negb_false_iff in En.
      symmetry. now apply option_eqb_string_true.
    + intros H. injection H as <- <- <-. rewrite allow_paths. simpl.
      split; [reflexivity|]. exists t0, i0. repeat split; auto.
      intros C. now elim C.
Qed.

(** Whenever [fetchTree] returns a tree, the evaluator's set of allowed
    paths, if it has one, has gained the tree's actual path and nothing
    else. *)
Theorem fetchTree_allows_actual_path store self st tree oi st' :
  fetchTree store self st = (Ok (tree, oi), st') ->
  allowedPaths st' = option_map (cons (actualPath tree)) (allowedPaths st).
Proof.
  unfold fetchTree. intros H.
  destruct (narHash self) as [hs|] eqn:Hs.
  - destruct (substituteTree store self st) as [[t|e| |] st1] eqn:Hsub;
      try discriminate.
    + injection H as <- _ <-. unfold substituteTree in Hsub.
      rewrite Hs in Hsub.
      destruct (ensurePath store _); try discriminate.
      injection Hsub as <- <-. simpl. apply allow_paths.
    + assert (st1 = st).
      { unfold substituteTree in Hsub. rewrite Hs in Hsub.
        destruct (ensurePath store _); try discriminate.
        now injection Hsub as _ <-. }
      subst st1. now apply fetchTree_backend_paths in H.
  - now apply fetchTree_backend_paths in H.
Qed.

Lemma fetchTree_allows_actual_path_witness :
  allowedPaths
    (snd (fetchTree Examples.store1 Examples.plainInput
            (mkEvalState (Some ["/etc"]))))
  = Some ["/nix/store/abc-source"; "/etc"].
Proof.
  exact (@fetchTree_allows_actual_path Examples.store1 Examples.plainInput
           (mkEvalState (Some ["/etc"])) _ _ _ eq_refl).
Defined.

(** When the input has a NAR hash and the tree comes from the scheme's
    backend, the locked input that [fetchTree] returns carries that very
    hash; a backend that reports another hash, or none, makes the call
    fail. *)
Theorem fetchTree_locked_input_hash store self st tree i st' h :
  narHash self = Some h ->
  fetchTree store self st = (Ok (tree, Some i), st') ->
  narHash i = Some h.
Proof.
  unfold fetchTree. intros Hs H. rewrite Hs in H.
  assert (Hb : forall st0,
    fetchTree_backend store self st0 = (Ok (tree, Some i), st') ->
    narHash i = Some h).
  { intros st0 Hb. apply fetchTree_backend_paths in Hb.
    destruct Hb as (_ & t0 & i0 & _ & E & _ & _ & Hn).
    injection E as ->. rewrite <- Hs. apply Hn. rewrite Hs. discriminate. }
  destruct (substituteTree store self st) as [[t|e| |] st1];
    try discriminate; eauto.
Qed.

Lemma fetchTree_locked_input_hash_witness :
  let store :=
    mkStore (fun _ h name => ("/nix/store/" ++ h ++ "-" ++ name)%string)
      (fun _ => Throw StoreError) (fun p => p) (fun _ => Ok "abc")
      (fun i => Ok (mkTree "/src" "/nix/store/abc-source"
                      (mkTreeInfo None None None), i)) in
  narHash (mkInput [("type", "git")] (Some "abc")) = Some "abc".
Proof.
  intros store.
  exact (@fetchTree_locked_input_hash store
           (mkInput [("type", "git")] (Some "abc")) Examples.evalState0
           _ _ _ "abc" eq_refl eq_refl).
Defined.

End FetchersMoreFacts.

(* ===================================================================== *)
(** ** More facts: the fetch cache and [getFlake] *)

Module CacheFacts.
Import Flake Behaviour Laws FlakeFacts.

Lemma fetch_hit w r allowLookup st tree lr :
  lookupInFlakeCache (flakeCache st) r = Some (tree, lr) ->
  match narHash (input r) with
  | None => True
  | Some _ => String.eqb (storePath tree) (computeStorePath w (input r)) = true
  end ->
  fetchOrSubstituteTree w r allowLookup st
  = (Ok (tree, r, lr), snd (allowPath (actualPath tree) st)).
Proof.
  intros Hhit Hassert. unfold fetchOrSubstituteTree.
  erewrite bind_run by reflexivity. cbv beta.
  rewrite Hhit.
  erewrite bind_run by reflexivity. cbv beta iota.
  erewrite bind_run by reflexivity.
  erewrite bind_run; [reflexivity|].
  unfold assert. destruct (narHash (input r)); [rewrite Hassert|];
    reflexivity.
Qed.

Lemma allowPath_fields p st :
  flakeCache (snd (allowPath p st)) = flakeCache st
  /\ trace (snd (allowPath p st)) = trace st
  /\ parents (snd (allowPath p st)) = parents st
  /\ updatesUsed (snd (allowPath p st)) = updatesUsed st.
Proof. unfold allowPath. simpl. now destruct (allowedPaths st). Qed.

(** A reference that [fetchOrSubstituteTree] has answered is answered from
    the cache from then on, whether or not registry lookups are allowed:
    the same tree and locked reference come back, the reference itself is
    reported as the resolved one, nothing is fetched and the cache is left
    as it is. *)
Theorem fetchOrSubstituteTree_memoized w r allowLookup st tree rr lr st1 :
  fetchOrSubstituteTree w r allowLookup st = (Ok (tree, rr, lr), st1) ->
  forall allowLookup2 st2,
    (exists l, flakeCache st2 = flakeCache st1 ++ l) ->
    exists st2',
      fetchOrSubstituteTree w r allowLookup2 st2 = (Ok (tree, r, lr), st2')
      /\ flakeCache st2' = flakeCache st2
      /\ trace st2' = trace st2.
Proof.
  intros H a2 st2 (l & Hl).
  apply fetchOrSubstituteTree_Ok_cached in H. destruct H as [Hhit Hassert].
  exists (snd (allowPath (actualPath tree) st2)).
  split; [|split; apply allowPath_fields].
  apply fetch_hit; [|exact Hassert].
  rewrite Hl. now apply lookupInFlakeCache_app.
Qed.

Lemma fetchOrSubstituteTree_memoized_witness :
  exists st2',
    fetchOrSubstituteTree Examples.world1 (indirectRef "leaf") false
      (snd (fetchOrSubstituteTree Examples.world1 (indirectRef "leaf") true
              Examples.state0))
    = (Ok (mkTree "/src/leaf" "/src/leaf" (mkTreeInfo (Some "sha256-h") None None),
           indirectRef "leaf", Examples.gitRefAt "leaf" "r1"), st2')
    /\ flakeCache st2'
       = flakeCache
           (snd (fetchOrSubstituteTree Examples.world1 (indirectRef "leaf")
                   true Examples.state0))
    /\ trace st2'
       = trace
           (snd (fetchOrSubstituteTree Examples.world1 (indirectRef "leaf")
                   true Examples.state0)).
Proof.
  eapply (@fetchOrSubstituteTree_memoized Examples.world1 (indirectRef "leaf")
            true Examples.state0).
  - vm_compute. reflexivity.
  - exists []. vm_compute. reflexivity.
Defined.

Lemma lookupInFlakeCache_pushed c k v l :
  exists f, lookupInFlakeCache ((c ++ [(k, v)]) ++ l) k = Some f.
Proof.
  destruct (lookupInFlakeCache c k) as [f|] eqn:E.
  - exists f. now do 2 apply lookupInFlakeCache_app.
  - exists v. apply lookupInFlakeCache_app.
    now apply lookupInFlakeCache_last.
Qed.

(** After [fetchOrSubstituteTree] has returned, the cache answers both for
    the reference asked for (with the tree and locked reference returned)
    and for the reference it was resolved to, and the tree's actual path is
    among the evaluator's allowed paths when that set is in use. *)
Theorem fetchOrSubstituteTree_records w r allowLookup st tree rr lr st1 :
  fetchOrSubstituteTree w r allowLookup st = (Ok (tree, rr, lr), st1) ->
  lookupInFlakeCache (flakeCache st1) r = Some (tree, lr)
  /\ (exists f, lookupInFlakeCache (flakeCache st1) rr = Some f)
  /\ match allowedPaths st1 with
     | Some ps => In (actualPath tree) ps
     | None => allowedPaths st = None
     end.
Proof.
  intros H0. pose proof (fetchOrSubstituteTree_Ok_cached _ _ _ _ H0) as [Hr _].
  split; [exact Hr|].
  unfold fetchOrSubstituteTree in H0. rename H0 into H.
  apply bind_Ok in H. destruct H as (st0 & s0 & Hst & H).
  unfold getState in Hst. injection Hst as <- <-.
  apply bind_Ok in H. destruct H as ([[t0 l0] rr0] & s2 & Hlook & H).
  apply bind_Ok in H. destruct H as (u1 & s3 & Hallow & H).
  apply bind_Ok in H. destruct H as (u2 & s4 & Hassert & H).
  apply assert_Ok in Hassert. destruct Hassert as [_ ->].
  unfold ret in H. injection H as <- <- <- <-.
  assert (Hs3 : s3 = snd (allowPath (actualPath t0) s2))
    by (now rewrite Hallow).
  assert (Hap : allowedPaths s2 = allowedPaths st).
  { destruct (lookupInFlakeCache (flakeCache st) r) as [f|].
    - unfold ret in Hlook. now injection Hlook as _ _ <-.
    - apply bind_Ok in Hlook.
      destruct Hlook as ([[t1 l1] rr1] & s5 & Hfetch & Hpush).
      apply bind_Ok in Hpush. destruct Hpush as (u & s6 & Hpush & Hret).
      unfold ret in Hret. injection Hret as _ _ _ <-.
      unfold cachePush in Hpush. injection Hpush as _ <-.
      simpl allowedPaths.
      destruct (isDirect w (input r)).
      + apply bind_Ok in Hfetch. destruct Hfetch as (f & s7 & Hf & Hret).
        unfold ret in Hret. injection Hret as _ _ <-.
        unfold doFetch in Hf. now injection Hf as _ <-.
      + destruct allowLookup; [|discriminate].
        apply bind_Ok in Hfetch. destruct Hfetch as (rres & s7 & Hres & H).
        unfold lift in Hres. injection Hres as _ <-.
        apply bind_Ok in H. destruct H as (st1 & s8 & Hst & H).
        unfold getState in Hst. injection Hst as <- <-.
        apply bind_Ok in H. destruct H as (f & s9 & Hf & H).
        apply bind_Ok in H. destruct H as (u' & s10 & Hpush & Hret).
        unfold ret in Hret. injection Hret as _ _ <-.
        unfold cachePush in Hpush. injection Hpush as _ <-.
        simpl allowedPaths.
        destruct (lookupInFlakeCache (flakeCache st) r).
        * unfold ret in Hf. now injection Hf as _ <-.
        * unfold doFetch in Hf. now injection Hf as _ <-. }
  split.
  2:{ rewrite Hs3. unfold allowPath. simpl. rewrite <- Hap.
      destruct (allowedPaths s2) eqn:E; simpl; [now left|].
      rewrite E. reflexivity. }
  assert (Hc3 : flakeCache s3 = flakeCache s2)
    by (rewrite Hs3; apply allowPath_fields).
  rewrite Hc3 in *.
  destruct (lookupInFlakeCache (flakeCache st) r) as [f|] eqn:Hhit.
  - unfold ret in Hlook. injection Hlook as _ <- _. eauto.
  - apply bind_Ok in Hlook.
    destruct Hlook as ([[t1 l1] rr1] & s5 & Hfetch & Hpush).
    apply bind_Ok in Hpush. destruct Hpush as (u & s6 & Hpush & Hret).
    unfold ret in Hret. injection Hret as <- <- <- <-.
    unfold cachePush in Hpush. injection Hpush as _ <-. simpl flakeCache.
    destruct (isDirect w (input r)).
    + apply bind_Ok in Hfetch. destruct Hfetch as (f & s7 & Hf & Hret).
      unfold ret in Hret. injection Hret as _ <- _. simpl in Hr. eauto.
    + destruct allowLookup; [|discriminate].
      apply bind_Ok in Hfetch. destruct Hfetch as (rres & s7 & Hres & H).
      apply bind_Ok in H. destruct H as (st1 & s8 & Hst & H).
      apply bind_Ok in H. destruct H as (f & s9 & Hf & H).
      apply bind_Ok in H. destruct H as (u' & s10 & Hpush & Hret).
      unfold ret in Hret. injection Hret as _ <- <-.
      unfold cachePush in Hpush. injection Hpush as _ <-. simpl flakeCache.
      apply lookupInFlakeCache_pushed.
Qed.

Lemma fetchOrSubstituteTree_records_witness :
  exists f,
    lookupInFlakeCache
      (flakeCache
         (snd (fetchOrSubstituteTree Examples.world1 (indirectRef "leaf") true
                 (mkState [] (Some []) [] [] []))))
      (Examples.gitRef "leaf") = Some f.
Proof.
  refine (proj1 (proj2 (@fetchOrSubstituteTree_records Examples.world1
                          (indirectRef "leaf") true
                          (mkState [] (Some []) [] [] [])
                          _ (Examples.gitRef "leaf") _ _ _))).
  vm_compute. reflexivity.
Defined.

End CacheFacts.

(* ===================================================================== *)
(** ** More facts: what a loaded flake looks like *)

Module ManifestFacts.
Import Flake Behaviour Laws FlakeFacts CacheFacts.

Lemma checkSupportedAttrs_Ok attrs :
  checkSupportedAttrs attrs = Ok tt ->
  forall name v, In (name, v) attrs -> In name supportedAttrs.
Proof.
  induction attrs as [|[k x] attrs IH]; simpl; intros H name v Hin;
    [contradiction|].
  destruct (String.eqb k "edition") eqn:E1.
  - destruct Hin as [Hin|Hin]; [|now apply (IH H name v)].
    injection Hin as <- _. apply String.eqb_eq in E1. subst. simpl. auto.
  - destruct (String.eqb k "description") eqn:E2.
    + destruct Hin as [Hin|Hin]; [|now apply (IH H name v)].
      injection Hin as <- _. apply String.eqb_eq in E2. subst. simpl. auto.
    + destruct (String.eqb k "inputs") eqn:E3.
      * destruct Hin as [Hin|Hin]; [|now apply (IH H name v)].
        injection Hin as <- _. apply String.eqb_eq in E3. subst. simpl. auto.
      * destruct (String.eqb k "outputs") eqn:E4; [|discriminate].
        destruct Hin as [Hin|Hin]; [|now apply (IH H name v)].
        injection Hin as <- _. apply String.eqb_eq in E4. subst. simpl.
        auto.
Qed.

(** Everything [readFlake] needs for a result, and the result it then gives
    from any state and for any pair of original and resolved reference. *)
Lemma readFlake_inv w r tree rr lr st fl st' :
  readFlake w r (tree, rr, lr) st = (Ok fl, st') ->
  isInDir w (flakeFileOf w tree lr) (actualPath tree) = true
  /\ pathExists w (flakeFileOf w tree lr) = true
  /\ exists attrs ins matchAttrs formals,
       evalFile w (flakeFileOf w tree lr) = Ok (VAttrs attrs)
       /\ checkSupportedAttrs attrs = Ok tt
       /\ StdMap.get "outputs" attrs = Some (VLambda matchAttrs formals)
       /\ fl = mkFlake r rr lr tree
                 match StdMap.get "description" attrs with
                 | Some (VString d) => Some d
                 | _ => None
                 end
                 ins (Some (VLambda matchAttrs formals))
       /\ forall r2 rr2 st2,
            readFlake w r2 (tree, rr2, lr) st2
            = (Ok (mkFlake r2 rr2 lr tree
                     match StdMap.get "description" attrs with
                     | Some (VString d) => Some d
                     | _ => None
                     end
                     ins (Some (VLambda matchAttrs formals))),
               if StdMap.count "edition" attrs
               then withTrace
                      (trace st2 ++ [EvWarn (WDeprecatedEdition lr)]) st2
               else st2).
Proof.
  unfold readFlake, flakeFileOf. intros H.
  apply bind_Ok in H. destruct H as (u1 & s1 & H1 & H).
  apply throwIf_Ok in H1. destruct H1 as [Hc1 _].
  apply bind_Ok in H. destruct H as (u2 & s2 & H2 & H).
  apply throwIf_Ok in H2. destruct H2 as [Hc2 _].
  apply bind_Ok in H. destruct H as (vInfo & s3 & Hev & H).
  unfold lift in Hev. injection Hev as Hev _.
  destruct vInfo as [ | |attrs| | | ]; try discriminate.
  apply bind_Ok in H. destruct H as (u3 & s4 & _ & H).
  apply bind_Ok in H. destruct H as (descr & s5 & Hd & H).
  apply bind_Ok in H. destruct H as (declared & s6 & Hdecl & H).
  apply bind_Ok in H. destruct H as ([vOut inputs1] & s7 & Hout & H).
  apply bind_Ok in H. destruct H as (u4 & s8 & Hchk & H).
  unfold ret in H. injection H as <- _.
  assert (Sd : forall st2,
    match StdMap.get "description" attrs with
    | Some (VString d) => ret (Some d)
    | Some _ => throw MalformedManifest
    | None => ret None
    end st2 = (Ok descr, st2)).
  { eapply stateless_Ok; [|exact Hd].
    destruct (StdMap.get "description" attrs) as [[]|]; eexists;
      reflexivity. }
  assert (Ed : descr = match StdMap.get "description" attrs with
                       | Some (VString d) => Some d
                       | _ => None
                       end).
  { specialize (Sd st).
    destruct (StdMap.get "description" attrs) as [[]|]; try discriminate;
      unfold ret in Sd; now injection Sd as <-. }
  assert (Si : forall st2,
    match StdMap.get "inputs" attrs with
    | Some v => lift (parseFlakeInputs w v true)
    | None => ret []
    end st2 = (Ok declared, st2)).
  { eapply stateless_Ok; [|exact Hdecl].
    destruct (StdMap.get "inputs" attrs); eexists; reflexivity. }
  assert (So : forall st2,
    match StdMap.get "outputs" attrs with
    | Some (VLambda matchAttrs formals) =>
        ret (Some (VLambda matchAttrs formals),
             if matchAttrs then injectFormals formals declared else declared)
    | Some _ => throw MalformedManifest
    | None => throw MalformedManifest
    end st2 = (Ok (vOut, inputs1), st2)).
  { eapply stateless_Ok; [|exact Hout].
    destruct (StdMap.get "outputs" attrs) as [[]|]; eexists; reflexivity. }
  assert (Sc : forall st2,
    lift (checkSupportedAttrs attrs) st2 = (Ok u4, st2)).
  { eapply stateless_Ok; [|exact Hchk]. eexists; reflexivity. }
  apply negb_false_iff in Hc1, Hc2.
  split; [exact Hc1|]. split; [exact Hc2|].
  assert (Ho : exists ma fs,
    StdMap.get "outputs" attrs = Some (VLambda ma fs)
    /\ vOut = Some (VLambda ma fs)).
  { clear - Hout.
    destruct (StdMap.get "outputs" attrs) as [[ | | |ma fs| | ]|];
      try discriminate.
    unfold ret in Hout. injection Hout as <- _ _. eauto. }
  destruct Ho as (ma & fs & Ho & Evo).
  exists attrs, inputs1, ma, fs.
  split; [exact Hev|].
  split; [unfold lift in Hchk; destruct u4; now injection Hchk as -> _|].
  split; [exact Ho|].
  rewrite <- Ed, <- Evo.
  split; [reflexivity|].
  intros r2 rr2 st2.
  erewrite bind_run
    by (unfold throwIf; rewrite Hc1; reflexivity).
  erewrite bind_run
    by (unfold throwIf; rewrite Hc2; reflexivity).
  erewrite bind_run
    by (unfold lift; apply f_equal2; [exact Hev|reflexivity]).
  cbv beta iota.
  destruct (StdMap.count "edition" attrs);
    (erewrite bind_run by reflexivity;
     erewrite bind_run by apply Sd;
     erewrite bind_run by apply Si;
     erewrite bind_run by apply So; cbv beta iota;
     erewrite bind_run by apply Sc;
     reflexivity).
Qed.

(** A flake that [getFlake] returns comes from a [flake.nix] that lies
    inside the fetched tree and exists, evaluates to an attribute set with
    no attribute other than [edition], [description], [inputs] and
    [outputs], and has a function as [outputs]; the flake carries that
    function, the description when it is a string, the reference it was
    asked for, and the tree and locked reference the cache now holds for
    that reference. *)
Theorem getFlake_manifest_shape w r allowLookup st fl st1 :
  getFlake w r allowLookup st = (Ok fl, st1) ->
  flOriginalRef fl = r
  /\ lookupInFlakeCache (flakeCache st1) r
     = Some (sourceInfo fl, flLockedRef fl)
  /\ isInDir w (flakeFileOf w (sourceInfo fl) (flLockedRef fl))
       (actualPath (sourceInfo fl)) = true
  /\ pathExists w (flakeFileOf w (sourceInfo fl) (flLockedRef fl)) = true
  /\ exists attrs matchAttrs formals,
       evalFile w (flakeFileOf w (sourceInfo fl) (flLockedRef fl))
       = Ok (VAttrs attrs)
       /\ (forall name v, In (name, v) attrs -> In name supportedAttrs)
       /\ StdMap.get "outputs" attrs = Some (VLambda matchAttrs formals)
       /\ vOutputs fl = Some (VLambda matchAttrs formals)
       /\ description fl
          = match StdMap.get "description" attrs with
            | Some (VString d) => Some d
            | _ => None
            end.
Proof.
  unfold getFlake. intros H.
  apply bind_Ok in H. destruct H as ([[tree rr] lr] & s1 & Hfetch & Hread).
  apply fetchOrSubstituteTree_Ok_cached in Hfetch.
  destruct Hfetch as [Hhit _].
  pose proof (@readFlake_inv _ _ _ _ _ _ _ _ Hread)
    as (Hdir & Hex & attrs & ins & ma & fs & Hev & Hchk & Ho & -> & Hrun).
  simpl. split; [reflexivity|]. split.
  { rewrite Hrun in Hread. injection Hread as <-.
    destruct (StdMap.count "edition" attrs); exact Hhit. }
  split; [exact Hdir|]. split; [exact Hex|].
  exists attrs, ma, fs.
  split; [exact Hev|].
  split; [now apply checkSupportedAttrs_Ok|].
  auto.
Qed.

Lemma getFlake_manifest_shape_witness :
  flOriginalRef
    match fst (getFlake Examples.world1 (indirectRef "app") true
                 Examples.state0) with
    | Ok fl => fl
    | _ => mkFlake (indirectRef "") (indirectRef "") (indirectRef "")
             (mkTree "" "" (mkTreeInfo None None None)) None [] None
    end
  = indirectRef "app".
Proof.
  refine (proj1 (@getFlake_manifest_shape Examples.world1 (indirectRef "app")
                   true Examples.state0 _ _ _)).
  vm_compute. reflexivity.
Defined.

(** Once [getFlake] has returned a flake for a reference, every later
    [getFlake] for that reference in the same run returns the same flake,
    reported as served from the cache, whether or not registry lookups are
    allowed; it fetches nothing and leaves the cache as it is. *)
Theorem getFlake_again w r allowLookup st fl st1 :
  getFlake w r allowLookup st = (Ok fl, st1) ->
  forall allowLookup2 st2,
    (exists l, flakeCache st2 = flakeCache st1 ++ l) ->
    exists st2',
      getFlake w r allowLookup2 st2 = (Ok (servedFromCache fl), st2')
      /\ flakeCache st2' = flakeCache st2
      /\ fetchedRefs (trace st2') = fetchedRefs (trace st2).
Proof.
  unfold getFlake. intros H a2 st2 (l & Hl).
  apply bind_Ok in H. destruct H as ([[tree rr] lr] & s1 & Hfetch & Hread).
  apply fetchOrSubstituteTree_Ok_cached in Hfetch.
  destruct Hfetch as [Hhit Hassert].
  pose proof (@readFlake_inv _ _ _ _ _ _ _ _ Hread)
    as (_ & _ & attrs & ins & ma & fs & _ & _ & _ & -> & Hrun).
  assert (Hc1 : flakeCache st1 = flakeCache s1).
  { rewrite Hrun in Hread. injection Hread as <-.
    now destruct (StdMap.count "edition" attrs). }
  eexists. split.
  - erewrite bind_run.
    2:{ apply fetch_hit; [|exact Hassert].
        rewrite Hl, Hc1. apply lookupInFlakeCache_app. exact Hhit. }
    rewrite Hrun. reflexivity.
  - pose proof (allowPath_fields (actualPath tree) st2) as (Hc & Ht & _).
    destruct (StdMap.count "edition" attrs); split; try exact Hc.
    + unfold withTrace. cbn [trace]. rewrite Ht. unfold fetchedRefs.
      rewrite flat_map_app. simpl. apply app_nil_r.
    + now rewrite Ht.
Qed.

Lemma getFlake_again_witness :
  exists st2',
    getFlake Examples.world1 (indirectRef "app") false
      (snd (getFlake Examples.world1 (indirectRef "app") true
              Examples.state0))
    = (Ok (servedFromCache
             (mkFlake (indirectRef "app") (Examples.gitRef "app")
                (Examples.gitRefAt "app" "r1")
                (mkTree "/src/app" "/src/app"
                   (mkTreeInfo (Some "sha256-h") None None))
                None [("dep", Examples.depInput)]
                (Some (VLambda true ["self"; "dep"])))), st2')
    /\ flakeCache st2'
       = flakeCache
           (snd (getFlake Examples.world1 (indirectRef "app") true
                   Examples.state0))
    /\ fetchedRefs (trace st2')
       = fetchedRefs
           (trace
              (snd (getFlake Examples.world1 (indirectRef "app") true
                      Examples.state0))).
Proof.
  eapply (@getFlake_again Examples.world1 (indirectRef "app") true
            Examples.state0).
  - vm_compute. reflexivity.
  - exists []. vm_compute. reflexivity.
Defined.

End ManifestFacts.

(* ===================================================================== *)
(** ** More facts: parsed inputs *)

Module ParseFacts.
Import Flake Behaviour Laws FlakeFacts.

Lemma In_insertSorted {V} k (v : V) m kv :
  In kv (StdMap.insertSorted k v m) -> kv = (k, v) \/ In kv m.
Proof.
  induction m as [|[k' v'] m IH]; simpl.
  - intros [<-|[]]. now left.
  - destruct (String.ltb k k'); simpl.
    + intros [<-|H]; auto.
    + intros [<-|H]; auto. destruct (IH H); auto.
Qed.

Lemma In_emplace {V} k (v : V) m kv :
  In kv (StdMap.emplace k v m) -> kv = (k, v) \/ In kv m.
Proof.
  unfold StdMap.emplace. destruct (StdMap.count k m); auto.
  apply In_insertSorted.
Qed.

Lemma parseFlakeInput_lockable w inputName value i :
  parseFlakeInput w inputName value true = Ok i -> lockable i.
Proof.
  intros H. destruct value; try discriminate. simpl in H.
  match type of H with
  | obind ?x _ = _ => destruct x as [[[inp attrs0] url]| | |]
  end; try discriminate.
  cbn [obind] in H.
  match type of H with
  | obind ?x _ = _ => destruct x as [input1| | |]
  end; try discriminate.
  cbn [obind] in H. unfold lockable.
  destruct (follows input1) eqn:F.
  - injection H as <-. left. rewrite F. discriminate.
  - destruct (ref input1) eqn:R.
    + injection H as <-. right. rewrite R. discriminate.
    + injection H as <-. right. simpl. discriminate.
Qed.

Lemma parseFlakeInputs_lockable w value declared :
  parseFlakeInputs w value true = Ok declared ->
  forall k i, In (k, i) declared -> lockable i.
Proof.
  unfold parseFlakeInputs. destruct value; try discriminate.
  assert (G : forall il m,
    (forall k i, In (k, i) m -> lockable i) ->
    (fix inputsLoop (il : list (string * Value)) (m : FlakeInputs)
       {struct il} : Outcome FlakeInputs :=
       match il with
       | [] => Ok m
       | (iname, iv) :: il' =>
           let? i := parseFlakeInput w iname iv true in
           inputsLoop il' (StdMap.emplace iname i m)
       end) il m = Ok declared ->
    forall k i, In (k, i) declared -> lockable i).
  { induction il as [|[iname iv] il IH]; intros m Hm H.
    - now injection H as <-.
    - destruct (parseFlakeInput w iname iv true) as [i0| | |] eqn:E;
        try discriminate.
      cbn [obind] in H. eapply IH; [|exact H].
      intros k i Hin. apply In_emplace in Hin. destruct Hin as [Hin|Hin].
      + injection Hin as _ ->. eapply parseFlakeInput_lockable; eauto.
      + eauto. }
  apply G. intros k i [].
Qed.

Lemma injectFormals_lockable formals : forall inputs,
  (forall k i, In (k, i) inputs -> lockable i) ->
  forall k i, In (k, i) (injectFormals formals inputs) -> lockable i.
Proof.
  induction formals as [|f formals IH]; intros inputs Hm; simpl; auto.
  apply IH. destruct (negb (String.eqb f "self")); auto.
  intros k i Hin. apply In_emplace in Hin. destruct Hin as [Hin|Hin]; eauto.
  injection Hin as _ ->. right. simpl. discriminate.
Qed.

(** Every input of a flake that [getFlake] returns follows another input or
    has a reference: [assert(input.ref)] in [computeLocks] holds for each
    of them. *)
Theorem getFlake_inputs_lockable w r allowLookup st fl st1 :
  getFlake w r allowLookup st = (Ok fl, st1) ->
  forall k i, In (k, i) (inputs fl) -> follows i <> None \/ ref i <> None.
Proof.
  unfold getFlake. intros H.
  apply bind_Ok in H. destruct H as (fetched & s1 & _ & Hread).
  apply readFlake_Ok in Hread.
  destruct Hread as (path & attrs & declared & ma & fs & _ & Hd & _ & ->).
  assert (Hdecl : forall k i, In (k, i) declared -> lockable i).
  { destruct (StdMap.get "inputs" attrs).
    - eapply parseFlakeInputs_lockable; eauto.
    - subst declared. intros k i []. }
  destruct ma; [apply injectFormals_lockable|]; exact Hdecl.
Qed.

Lemma getFlake_inputs_lockable_witness :
  follows Examples.fooInput <> None \/ ref Examples.fooInput <> None.
Proof.
  eapply (@getFlake_inputs_lockable Examples.world1 (indirectRef "mid") true
            Examples.state0).
  - vm_compute. reflexivity.
  - left. reflexivity.
Defined.

End ParseFacts.

(* ===================================================================== *)
(** ** More facts: the tree of overrides *)

Module OverrideFacts.
Import Flake Behaviour Laws StdMapFacts FlakeFacts.

Lemma refAt_nil path : refAt [] path = None.
Proof. now destruct path. Qed.

Lemma InputPath_eqb_cons x p y q :
  InputPath_eqb (x :: p) (y :: q) = String.eqb x y && InputPath_eqb p q.
Proof. reflexivity. Qed.

Lemma get_emplace_same k (v : FlakeInput) m :
  StdMap.get k (StdMap.emplace k v m)
  = Some match StdMap.get k m with Some v0 => v0 | None => v end.
Proof.
  destruct (StdMap.get k m) as [v0|] eqn:E.
  - now erewrite get_emplace_present by exact E.
  - now apply get_emplace_absent.
Qed.

Lemma setOverride_refAt_any path r : forall ovs q,
  path <> [] ->
  refAt (setOverride ovs path r) q
  = if InputPath_eqb q path then Some r else refAt ovs q.
Proof.
  induction path as [|id rest IH]; intros ovs q Hne; [congruence|].
  destruct q as [|qid qrest]; [reflexivity|].
  rewrite InputPath_eqb_cons.
  destruct (String.eqb qid id) eqn:E.
  - apply String.eqb_eq in E. subst qid.
    cbn [setOverride refAt andb].
    assert (Hcur : forall f,
      StdMap.get id
        (StdMap.adjust f id (StdMap.emplace id FlakeInput0 ovs))
      = Some (f match StdMap.get id ovs with
                | Some v0 => v0
                | None => FlakeInput0
                end)).
    { intros f. now rewrite get_adjust_same, get_emplace_same. }
    destruct rest as [|id2 rest2].
    + rewrite Hcur.
      destruct qrest as [|q2 qrest2]; [reflexivity|].
      cbn [InputPath_eqb list_eqb].
      destruct (StdMap.get id ovs) as [v0|]; [reflexivity|].
      simpl. try rewrite refAt_nil. reflexivity.
    + rewrite Hcur.
      destruct qrest as [|q2 qrest2].
      * cbn [InputPath_eqb list_eqb].
        now destruct (StdMap.get id ovs).
      * cbn [set_overrides overrides].
        rewrite IH by discriminate.
        destruct (InputPath_eqb (q2 :: qrest2) (id2 :: rest2));
          [reflexivity|].
        destruct (StdMap.get id ovs) as [v0|]; [reflexivity|].
        simpl. try rewrite refAt_nil. reflexivity.
  - cbn [andb].
    assert (Hne' : qid <> id) by (now apply String.eqb_neq).
    assert (Hget : StdMap.get qid (setOverride ovs (id :: rest) r)
                   = StdMap.get qid ovs).
    { cbn [setOverride].
      destruct rest; rewrite get_adjust_other by exact Hne';
        now apply get_emplace_other. }
    cbn [refAt]. now rewrite Hget.
Qed.

(** [setOverride] puts the reference at the path it is given, which must
    not be empty, and leaves the reference at every other path as it was. *)
Theorem setOverride_refAt ovs path r q :
  path <> [] ->
  refAt (setOverride ovs path r) q
  = if InputPath_eqb q path then Some r else refAt ovs q.
Proof. apply setOverride_refAt_any. Qed.

Lemma setOverride_refAt_witness :
  refAt (setOverride [("a", set_ref (Some (indirectRef "old")) FlakeInput0)]
           ["a"; "b"] (indirectRef "new")) ["a"]
  = Some (indirectRef "old").
Proof.
  refine (@setOverride_refAt
            [("a", set_ref (Some (indirectRef "old")) FlakeInput0)]
            ["a"; "b"] (indirectRef "new") ["a"] _).
  discriminate.
Defined.

Lemma InputPath_eqb_eq p q : InputPath_eqb p q = true <-> p = q.
Proof.
  split.
  - apply list_eqb_eq. intros x y. apply String.eqb_eq.
  - intros <-. apply list_eqb_refl. apply String.eqb_refl.
Qed.

Lemma fold_setOverride_refAt l : forall ovs q,
  (forall kv, In kv l -> fst kv <> []) ->
  NoDup (map fst l) ->
  (forall r, In (q, r) l ->
     refAt (fold_left (fun o kv => setOverride o (fst kv) (snd kv)) l ovs) q
     = Some r)
  /\ (~ In q (map fst l) ->
      refAt (fold_left (fun o kv => setOverride o (fst kv) (snd kv)) l ovs) q
      = refAt ovs q).
Proof.
  induction l as [|[p r0] l IH]; intros ovs q Hne Hnd.
  - split; [intros r []|reflexivity].
  - cbn [fold_left fst snd].
    inversion Hnd as [|x xs Hnotin Hnd']; subst.
    assert (Hne' : forall kv, In kv l -> fst kv <> [])
      by (intros kv Hin; apply Hne; now right).
    destruct (IH (setOverride ovs p r0) q Hne' Hnd') as [IH1 IH2].
    assert (Hp : p <> []) by (apply (Hne (p, r0)); now left).
    split.
    + intros r [Heq|Hin]; [|now apply IH1].
      injection Heq as -> ->.
      rewrite IH2 by exact Hnotin.
      rewrite setOverride_refAt_any by exact Hp.
      now rewrite (proj2 (InputPath_eqb_eq q q) eq_refl).
    + intros Hnot. simpl in Hnot.
      rewrite IH2 by tauto.
      rewrite setOverride_refAt_any by exact Hp.
      destruct (InputPath_eqb q p) eqn:E; [|reflexivity].
      apply InputPath_eqb_eq in E. subst. tauto.
Qed.

(** The overrides [lockFlake] starts from hold, for every input path,
    exactly the reference the flags give for it: [--override-input] of
    one path does not disturb another, however the paths nest. *)
Theorem overridesOf_holds_flags flags q r :
  (forall kv, In kv (inputOverrides flags) -> fst kv <> []) ->
  NoDup (map fst (inputOverrides flags)) ->
  refAt (overridesOf flags) q = Some r <-> In (q, r) (inputOverrides flags).
Proof.
  intros Hne Hnd. unfold overridesOf.
  destruct (fold_setOverride_refAt (inputOverrides flags) [] q Hne Hnd)
    as [H1 H2].
  split.
  - intros H.
    destruct (in_dec (list_eq_dec string_dec) q
                (map fst (inputOverrides flags))) as [Hin|Hnot].
    + apply in_map_iff in Hin. destruct Hin as ([q' r'] & Hq & Hin).
      simpl in Hq. subst q'.
      rewrite (H1 r' Hin) in H. now injection H as <-.
    + rewrite (H2 Hnot), refAt_nil in H. discriminate.
  - apply H1.
Qed.

Lemma overridesOf_holds_flags_witness :
  refAt (overridesOf Examples.overrideFlags) ["dep"]
  = Some (Examples.gitRef "fork").
Proof.
  apply (@overridesOf_holds_flags Examples.overrideFlags).
  - intros kv [<-|[]]. discriminate.
  - repeat constructor. intros [].
  - now left.
Defined.

End OverrideFacts.

(* ===================================================================== *)
(** ** More facts: merging overrides *)

Module MergeFacts.
Import Flake Behaviour Laws StdMapFacts FlakeFacts.

Lemma uniqueKeys_children i :
  uniqueKeys i = allUniqueKeys (overrides i).
Proof.
  destruct i as [r f fo a children]. simpl.
  induction children as [|[id c] m IH]; simpl; [reflexivity|].
  now rewrite IH.
Qed.

Lemma mergeExisting_unfold child existing :
  mergeExisting child existing
  = set_overrides
      (mergeLoop mergeExisting (overrides child)
         (overrides match ref child with
                    | Some r => set_ref (Some r) existing
                    | None => existing
                    end))
      match ref child with
      | Some r => set_ref (Some r) existing
      | None => existing
      end.
Proof. destruct child. reflexivity. Qed.

Lemma mergeLoop_cons merge id child rest acc :
  mergeLoop merge ((id, child) :: rest) acc
  = mergeLoop merge rest
      match StdMap.get id acc with
      | Some existing => StdMap.insert_or_assign id (merge child existing) acc
      | None => StdMap.emplace id child acc
      end.
Proof. reflexivity. Qed.

Lemma mergeLoop_refAt new :
  Forall (fun kv => merges (snd kv)) new ->
  allUniqueKeys new = true ->
  forall acc q,
    refAt (mergeLoop mergeExisting new acc) q
    = match refAt new q with
      | Some r => Some r
      | None => refAt acc q
      end.
Proof.
  induction new as [|[id child] rest IH]; intros HP Hu acc q.
  - simpl. now destruct q.
  - inversion HP as [|x xs Hchild Hrest]; subst. simpl in Hchild.
    simpl in Hu. apply andb_true_iff in Hu. destruct Hu as [Hu Hu3].
    apply andb_true_iff in Hu. destruct Hu as [Hu1 Hu2].
    apply negb_true_iff in Hu1.
    assert (Hnone : StdMap.get id rest = None).
    { unfold StdMap.count in Hu1. now destruct (StdMap.get id rest). }
    rewrite mergeLoop_cons, (IH Hrest Hu3).
    destruct q as [|qid qrest]; [reflexivity|].
    destruct (String.eqb qid id) eqn:E.
    + apply String.eqb_eq in E. subst qid.
      cbn [refAt]. rewrite Hnone. cbn [StdMap.get].
      rewrite String.eqb_refl.
      destruct (StdMap.get id acc) as [existing|] eqn:Hacc.
      * rewrite get_insert_or_assign_same.
        destruct (Hchild Hu2 existing) as [Href Hbelow].
        destruct qrest as [|q2 qrest2]; [exact Href|apply Hbelow].
      * rewrite get_emplace_absent by exact Hacc.
        destruct qrest as [|q2 qrest2].
        -- now destruct (ref child).
        -- now destruct (refAt (overrides child) (q2 :: qrest2)).
    + assert (Hne : qid <> id) by (now apply String.eqb_neq).
      cbn [refAt StdMap.get]. rewrite E.
      destruct (StdMap.get id acc);
        [rewrite get_insert_or_assign_other by exact Hne
        |rewrite get_emplace_other by exact Hne]; reflexivity.
Qed.

Lemma mergeExisting_merges child : merges child.
Proof.
  induction child as [r f fo a ovs IH] using FlakeInput_nested_ind.
  intros Hu existing. rewrite mergeExisting_unfold.
  rewrite uniqueKeys_children in Hu. cbn [overrides ref] in *.
  split.
  - now destruct r.
  - intros q. cbn [set_overrides overrides].
    rewrite (mergeLoop_refAt IH Hu). now destruct r.
Qed.

(** [FlakeInput::setOverrides] merges: afterwards the input's overrides
    hold, for every path, the reference of the new overrides where they
    have one, and the reference they held before otherwise. *)
Theorem setOverrides_refAt self newOverrides q :
  allUniqueKeys newOverrides = true ->
  refAt (overrides (setOverrides self newOverrides)) q
  = match refAt newOverrides q with
    | Some r => Some r
    | None => refAt (overrides self) q
    end.
Proof.
  intros Hu. unfold setOverrides. cbn [set_overrides overrides].
  apply mergeLoop_refAt; [|exact Hu].
  apply Forall_forall. intros kv _. apply mergeExisting_merges.
Qed.

Lemma setOverrides_refAt_witness :
  refAt
    (overrides
       (setOverrides
          (set_overrides
             (setOverride (setOverride [] ["a"; "b"] (indirectRef "old"))
                ["a"; "c"] (indirectRef "kept"))
             FlakeInput0)
          (setOverride [] ["a"; "b"] (indirectRef "new"))))
    ["a"; "c"]
  = Some (indirectRef "kept").
Proof.
  exact (@setOverrides_refAt
           (set_overrides
              (setOverride (setOverride [] ["a"; "b"] (indirectRef "old"))
                 ["a"; "c"] (indirectRef "kept"))
              FlakeInput0)
           (setOverride [] ["a"; "b"] (indirectRef "new"))
           ["a"; "c"] eq_refl).
Defined.

End MergeFacts.

(* ===================================================================== *)
(** ** More facts: when a lock file is written *)

Module WriteFacts.
Import Flake Behaviour Laws FlakeFacts.

Lemma quietly_steady {A} (m : M A) : steady m -> quietly m.
Proof. intros H st. now destruct (H st) as (_ & Ht & _). Qed.

Lemma quietly_same {A} (m : M A) :
  (forall st, trace (snd (m st)) = trace st) -> quietly m.
Proof. intros H st. exists []. rewrite H. now rewrite app_nil_r. Qed.

Lemma quietly_bind {A B} (m : M A) (k : A -> M B) :
  quietly m -> (forall a, quietly (k a)) -> quietly (bind m k).
Proof.
  intros Hm Hk st. unfold bind.
  destruct (Hm st) as (evs & Ht & Hq).
  destruct (m st) as [[a|e| |] st1]; simpl in *; eauto.
  destruct (Hk a st1) as (evs2 & Ht2 & Hq2).
  exists (evs ++ evs2). rewrite Ht2, Ht, app_assoc. split; [reflexivity|].
  rewrite forallb_app. now rewrite Hq, Hq2.
Qed.

Lemma quietly_withCache {A} c (m : M A) : quietly m -> quietly (withCache c m).
Proof.
  intros Hm st. unfold withCache. simpl.
  destruct (Hm (withFlakeCache c st)) as (evs & Ht & Hq). eauto.
Qed.

Lemma quietly_warnUnusedUpdates w updates used :
  quietly (warnUnusedUpdates w updates used).
Proof.
  intros st. rewrite warnUnusedUpdates_run. simpl. eexists. split; eauto.
  induction (filter (fun i => negb (pathCount i used)) updates); simpl; auto.
Qed.

Lemma writesOnly_quietly {A} P (m : M A) : quietly m -> writesOnly P m.
Proof.
  intros Hm st p l Hin. destruct (Hm st) as (evs & Ht & Hq).
  rewrite Ht in Hin. apply in_app_or in Hin. destruct Hin as [Hin|Hin]; auto.
  rewrite forallb_forall in Hq. apply Hq in Hin. discriminate.
Qed.

Lemma writesOnly_bind {A B} P (m : M A) (k : A -> M B) :
  writesOnly P m ->
  (forall a st st1, m st = (Ok a, st1) -> writesOnly P (k a)) ->
  writesOnly P (bind m k).
Proof.
  intros Hm Hk st p l. unfold bind.
  specialize (Hm st p l).
  destruct (m st) as [[a|e| |] st1] eqn:E; simpl in *; auto.
  intros Hin. apply (Hk a st st1 E) in Hin. destruct Hin; auto.
Qed.

Lemma writesOnly_emit (P : Path -> LockFile -> Prop) ev :
  (forall p l, ev = EvWriteLock p l -> P p l) -> writesOnly P (emit ev).
Proof.
  intros H st p l Hin. unfold emit in Hin. simpl in Hin.
  apply in_app_or in Hin. destruct Hin as [Hin|[Hin|[]]]; auto.
Qed.

Lemma quietly_warn msg : quietly (warn msg).
Proof. apply quietly_steady, steady_warn. Qed.

Lemma quietly_ret {A} (a : A) : quietly (ret a).
Proof. now apply quietly_same. Qed.

Lemma quietly_throwIf c e : quietly (throwIf c e).
Proof. apply quietly_steady, steady_throwIf. Qed.

Lemma persist_quietly w topRef flags fl old new :
  writeLockFile flags = false \/ updateLockFile flags = false ->
  quietly (persist w topRef flags fl old new).
Proof.
  intros Hflags. unfold persist.
  destruct (negb (LockFile_eqb new old)); [|apply quietly_ret].
  destruct (writeLockFile flags) eqn:Hw.
  - destruct Hflags as [Hf|Hu]; [discriminate|].
    unfold writeNewLockFile.
    destruct (getSourcePath w (input topRef)) as [sp|].
    + destruct (negb (lockIsImmutable w new)).
      * apply quietly_bind; [|intros; apply quietly_ret].
        destruct (warnDirty w); [apply quietly_warn|apply quietly_ret].
      * rewrite Hu. now apply quietly_same.
    + now apply quietly_same.
  - apply quietly_bind; [apply quietly_warn|intros; apply quietly_ret].
Qed.

Lemma persist_writesOnly w topRef flags fl old new :
  lockCheck new = Ok tt ->
  writesOnly (writable w topRef flags) (persist w topRef flags fl old new).
Proof.
  intros Hchk. unfold persist.
  destruct (negb (LockFile_eqb new old));
    [|apply writesOnly_quietly, quietly_ret].
  destruct (writeLockFile flags) eqn:Hw.
  2:{ apply writesOnly_quietly, quietly_bind;
        [apply quietly_warn|intros; apply quietly_ret]. }
  unfold writeNewLockFile.
  destruct (getSourcePath w (input topRef)) as [sp|] eqn:Hsp.
  2:{ apply writesOnly_quietly. now apply quietly_same. }
  destruct (negb (lockIsImmutable w new)) eqn:Himm.
  { apply writesOnly_quietly, quietly_bind; [|intros; apply quietly_ret].
    destruct (warnDirty w); [apply quietly_warn|apply quietly_ret]. }
  apply negb_false_iff in Himm.
  destruct (updateLockFile flags) eqn:Hu.
  2:{ apply writesOnly_quietly. now apply quietly_same. }
  apply writesOnly_bind;
    [apply writesOnly_quietly, quietly_throwIf|intros _ _ _ _].
  apply writesOnly_bind; [|intros _ _ _ _].
  { apply writesOnly_quietly.
    destruct (pathExists w _); apply quietly_warn. }
  apply writesOnly_bind; [|intros _ _ _ _].
  { apply writesOnly_emit. intros p l E. injection E as <- <-.
    repeat split; auto. exists sp. split; [exact Hsp|reflexivity]. }
  apply writesOnly_bind; [|intros _ _ _ _].
  { apply writesOnly_emit. intros p l E. discriminate. }
  apply writesOnly_quietly.
  apply quietly_bind; [|intros flake1].
  { apply quietly_withCache, quietly_steady, steady_getFlake. }
  apply quietly_bind; [|intros _].
  { destruct (getRev w _); [|apply quietly_ret].
    destruct (_ && _); [apply quietly_warn|apply quietly_ret]. }
  apply quietly_bind; [apply quietly_throwIf|intros; apply quietly_ret].
Qed.

Lemma lockFlake_quietly w fuel topRef flags :
  writeLockFile flags = false \/ updateLockFile flags = false ->
  quietly (lockFlake w fuel topRef flags).
Proof.
  intros Hflags. unfold lockFlake.
  apply quietly_bind; [apply quietly_throwIf|intros _].
  apply quietly_bind; [now apply quietly_same|intros _].
  apply quietly_bind; [now apply quietly_same|intros _].
  apply quietly_bind; [now apply quietly_same|intros _].
  apply quietly_bind;
    [apply quietly_steady, steady_getFlake|intros flake0].
  apply quietly_bind; [now apply quietly_same|intros old].
  apply quietly_bind;
    [apply quietly_steady, steady_computeLocks|intros [[fi newRoot] ovs]].
  apply quietly_bind; [now apply quietly_same|intros st1].
  apply quietly_bind; [apply quietly_warnUnusedUpdates|intros _].
  apply quietly_bind; [now apply quietly_same|intros _].
  apply quietly_bind; [now apply persist_quietly|intros flake2].
  apply quietly_ret.
Qed.

(** With [writeLockFile] or [updateLockFile] off, [lockFlake] only fetches
    and warns, whatever the outcome: no lock file is written and no file is
    marked as changed. *)
Theorem lockFlake_writes_nothing w fuel topRef flags st :
  writeLockFile flags = false \/ updateLockFile flags = false ->
  exists evs,
    trace (snd (lockFlake w fuel topRef flags st)) = trace st ++ evs
    /\ forallb quiet evs = true.
Proof. intros Hflags. now apply lockFlake_quietly. Qed.

Lemma lockFlake_writes_nothing_witness :
  exists evs,
    trace (snd (lockFlake Examples.world1 2 (Examples.pathRef "app")
                  Examples.noWriteFlags Examples.state0))
    = trace Examples.state0 ++ evs
    /\ forallb quiet evs = true.
Proof.
  apply (@lockFlake_writes_nothing Examples.world1 2 (Examples.pathRef "app")
           Examples.noWriteFlags Examples.state0).
  left. reflexivity.
Defined.

(** [prim_getFlake] (the builtin [getFlake]) never writes a lock file and
    never marks a file as changed, whatever flags it starts from and
    whatever the outcome. *)
Theorem prim_getFlake_writes_nothing w LockFlags0 fuel flakeRefS st :
  exists evs,
    trace (snd (prim_getFlake w LockFlags0 fuel flakeRefS st))
    = trace st ++ evs
    /\ forallb quiet evs = true.
Proof.
  revert st. change (quietly (prim_getFlake w LockFlags0 fuel flakeRefS)).
  unfold prim_getFlake.
  apply quietly_bind; [now apply quietly_same|intros flakeRef].
  apply quietly_bind; [apply quietly_throwIf|intros _].
  apply lockFlake_quietly. now right.
Qed.

(** Every lock file [lockFlake] writes has only immutable locked
    references and no dangling [follows], is written with both
    [writeLockFile] and [updateLockFile] on, and goes next to the
    [flake.nix] of a top-level flake that has a source path. *)
Theorem lockFlake_writes_only_sound_locks w fuel topRef flags st p l :
  In (EvWriteLock p l) (trace (snd (lockFlake w fuel topRef flags st))) ->
  In (EvWriteLock p l) (trace st) \/ writable w topRef flags p l.
Proof.
  revert st p l.
  change (writesOnly (writable w topRef flags)
            (lockFlake w fuel topRef flags)).
  unfold lockFlake.
  apply writesOnly_bind;
    [apply writesOnly_quietly, quietly_throwIf|intros _ _ _ _].
  apply writesOnly_bind;
    [apply writesOnly_quietly; now apply quietly_same|intros _ _ _ _].
  apply writesOnly_bind;
    [apply writesOnly_quietly; now apply quietly_same|intros _ _ _ _].
  apply writesOnly_bind;
    [apply writesOnly_quietly; now apply quietly_same|intros _ _ _ _].
  apply writesOnly_bind;
    [apply writesOnly_quietly, quietly_steady, steady_getFlake
    |intros flake0 _ _ _].
  apply writesOnly_bind;
    [apply writesOnly_quietly; now apply quietly_same|intros old _ _ _].
  apply writesOnly_bind;
    [apply writesOnly_quietly, quietly_steady, steady_computeLocks
    |intros [[fi newRoot] ovs] _ _ _].
  apply writesOnly_bind;
    [apply writesOnly_quietly; now apply quietly_same|intros st1 _ _ _].
  apply writesOnly_bind;
    [apply writesOnly_quietly, quietly_warnUnusedUpdates|intros _ _ _ _].
  apply writesOnly_bind;
    [apply writesOnly_quietly; now apply quietly_same|intros [] s2 s3 Hchk].
  unfold lift in Hchk. injection Hchk as Hchk _.
  apply writesOnly_bind; [now apply persist_writesOnly|intros flake2 _ _ _].
  apply writesOnly_quietly, quietly_ret.
Qed.

Lemma lockFlake_writes_only_sound_locks_witness :
  In (EvWriteLock "app/flake.lock"
        (mkLockFile [("dep", Examples.depLockedAt "r1")]))
     (trace Examples.state0)
  \/ writable Examples.world1 (Examples.pathRef "app") Examples.flags0
       "app/flake.lock" (mkLockFile [("dep", Examples.depLockedAt "r1")]).
Proof.
  apply (@lockFlake_writes_only_sound_locks Examples.world1 2
           (Examples.pathRef "app") Examples.flags0 Examples.state0).
  vm_compute. tauto.
Defined.

End WriteFacts.

(* ===================================================================== *)
(** ** More facts: the order of keys *)

Module OrderFacts.
Lemma ltb_irrefl k : String.ltb k k = false.
Proof.
  unfold String.ltb. pose proof (String.compare_antisym k k) as H.
  destruct (String.compare k k); try reflexivity; discriminate.
Qed.

Lemma ltb_asym a b : String.ltb a b = true -> String.ltb b a = false.
Proof.
  unfold String.ltb. rewrite (String.compare_antisym a b).
  now destruct (String.compare b a).
Qed.

Lemma ltb_total a b :
  String.ltb a b = false -> String.ltb b a = false -> a = b.
Proof.
  unfold String.ltb. intros H1 H2. apply String.compare_eq_iff.
  rewrite (String.compare_antisym b a) in H2.
  destruct (String.compare a b); try reflexivity; discriminate.
Qed.

End OrderFacts.

(* ===================================================================== *)
(** ** More facts: [--update-input] below an input *)

Module UpdateFacts.
Import Flake Behaviour Laws FlakeFacts OrderFacts.

Lemma InputPath_ltb_app_l p : forall s, InputPath_ltb (p ++ s) p = false.
Proof.
  induction p as [|x p IH]; intros s; simpl.
  - now destruct s.
  - now rewrite ltb_irrefl.
Qed.

Lemma InputPath_total p : forall q,
  InputPath_ltb p q = false -> InputPath_ltb q p = false -> p = q.
Proof.
  induction p as [|x p IH]; intros [|y q]; simpl; try discriminate; auto.
  destruct (String.ltb x y) eqn:Exy; [discriminate|].
  destruct (String.ltb y x) eqn:Eyx; [discriminate|].
  intros H1 H2. rewrite (ltb_total _ _ Exy Eyx). f_equal. now apply IH.
Qed.

(** A path between [p] and an extension of [p] extends [p] itself. *)
Lemma between_is_below p : forall q s,
  InputPath_ltb q p = false ->
  q <> p ->
  InputPath_ltb q (p ++ s) = true ->
  length p < length q /\ isPrefixOf p q = true.
Proof.
  induction p as [|x p IH]; intros q s Hqp Hne Hlt.
  - destruct q as [|y q]; [congruence|]. simpl. split; [lia|reflexivity].
  - destruct q as [|y q]; [discriminate|].
    simpl in Hqp, Hlt.
    destruct (String.ltb y x) eqn:Eyx; [discriminate|].
    destruct (String.ltb x y) eqn:Exy; [discriminate|].
    pose proof (ltb_total _ _ Exy Eyx) as ->.
    destruct (IH q s Hqp) as [Hlen Hpre]; [congruence|exact Hlt|].
    simpl. rewrite String.eqb_refl. split; [lia|exact Hpre].
Qed.

Lemma isPrefixOf_app p : forall q,
  isPrefixOf p q = true -> exists s, q = p ++ s.
Proof.
  induction p as [|x p IH]; intros q H.
  - now exists q.
  - destruct q as [|y q]; [discriminate|]. simpl in H.
    apply andb_true_iff in H. destruct H as [E H].
    apply String.eqb_eq in E. subst y.
    destruct (IH q H) as (s & ->). now exists s.
Qed.

Lemma lower_bound_below p : forall updates u,
  increasingPaths updates = true ->
  pathCount p updates = false ->
  In u updates ->
  length p < length u ->
  isPrefixOf p u = true ->
  exists lb,
    lower_bound p updates = Some lb
    /\ length p < length lb /\ isPrefixOf p lb = true.
Proof.
  induction updates as [|q updates IH]; intros u Hinc Hnot Hin Hlen Hpre;
    [contradiction|].
  simpl in Hinc. apply andb_true_iff in Hinc. destruct Hinc as [Hall Hinc].
  simpl in Hnot. apply orb_false_iff in Hnot. destruct Hnot as [Hq Hnot].
  unfold lower_bound. simpl.
  destruct (InputPath_ltb q p) eqn:Eqp; simpl.
  - destruct Hin as [->|Hin].
    + destruct (isPrefixOf_app _ _ Hpre) as (s & ->).
      now rewrite InputPath_ltb_app_l in Eqp.
    + now apply (IH u).
  - exists q. split; [reflexivity|].
    destruct Hin as [->|Hin]; [now split|].
    destruct (isPrefixOf_app _ _ Hpre) as (s & ->).
    apply (@between_is_below p q s Eqp).
    + intros ->. unfold InputPath_eqb in Hq.
      rewrite list_eqb_refl in Hq; [discriminate|apply String.eqb_refl].
    + rewrite forallb_forall in Hall. now apply Hall.
Qed.

(** For an input path that is not itself among the paths of
    [--update-input], [hasChildUpdate] holds exactly when one of those
    paths lies strictly below it. *)
Theorem hasChildUpdate_iff flags inputPath :
  increasingPaths (inputUpdates flags) = true ->
  pathCount inputPath (inputUpdates flags) = false ->
  hasChildUpdate flags inputPath = true
  <-> exists u,
        In u (inputUpdates flags)
        /\ length inputPath < length u
        /\ isPrefixOf inputPath u = true.
Proof.
  intros Hinc Hnot. unfold hasChildUpdate. split.
  - destruct (lower_bound inputPath (inputUpdates flags)) as [lb|] eqn:E;
      [|discriminate].
    intros H. apply andb_true_iff in H. destruct H as [Hlen Hpre].
    apply Nat.ltb_lt in Hlen.
    exists lb. split; [|now split].
    unfold lower_bound in E. now apply find_some in E.
  - intros (u & Hin & Hlen & Hpre).
    destruct (@lower_bound_below inputPath _ u Hinc Hnot Hin Hlen Hpre)
      as (lb & -> & Hlen' & Hpre').
    apply andb_true_iff. split; [now apply Nat.ltb_lt|exact Hpre'].
Qed.

Lemma hasChildUpdate_iff_witness :
  hasChildUpdate
    (mkLockFlags false true true true true false []
       [["a"]; ["b"; "c"]; ["d"]])
    ["b"] = true
  <-> exists u,
        In u [["a"]; ["b"; "c"]; ["d"]]
        /\ length ["b"] < length u
        /\ isPrefixOf ["b"] u = true.
Proof.
  apply (@hasChildUpdate_iff
           (mkLockFlags false true true true true false []
              [["a"]; ["b"; "c"]; ["d"]]) ["b"]); reflexivity.
Defined.

End UpdateFacts.

(* ===================================================================== *)
(** ** More facts: what one call of [computeLocks] leaves behind *)

Module ShapeFacts.
Import Flake Behaviour Laws StdMapFacts FlakeFacts.

Lemma applyOverride_shape w inputPath id originalInput ovs :
  snd (applyOverride w inputPath id originalInput ovs) = StdMap.erase id ovs
  /\ follows (fst (fst (applyOverride w inputPath id originalInput ovs)))
     = follows originalInput.
Proof.
  unfold applyOverride, StdMap.extract.
  destruct (StdMap.get id ovs) as [mo|]; [|now split].
  destruct (ref mo); now split.
Qed.

Lemma lockFreshFlake_shape w rec id input originalInput inputRef inputFlake
    oldLock node inputPath ovs st input' node' ovs' st' :
  lockFreshFlake w rec id input originalInput inputRef inputFlake oldLock node
    inputPath ovs st = (Ok (input', node', ovs'), st') ->
  ovs' = ovs
  /\ exists l o f c, node' = StdMap.insert_or_assign id (ELocked l o f c) node.
Proof.
  unfold lockFreshFlake. intros H.
  apply bind_Ok in H. destruct H as (st1 & s1 & _ & H).
  apply bind_Ok in H. destruct H as (u1 & s2 & _ & H).
  apply bind_Ok in H. destruct H as (u2 & s3 & _ & H).
  apply finally_Ok in H. destruct H as (s4 & H & _).
  apply bind_Ok in H. destruct H as (oldBase & s5 & _ & H).
  apply bind_Ok in H. destruct H as ([[fi ci] io] & s6 & _ & H).
  unfold ret in H. injection H as _ <- <- _.
  split; [reflexivity|]. eauto.
Qed.

Lemma lockFresh_shape w flags rec id input originalInput inputRef oldLock
    node inputPath ovs st input' node' ovs' st' :
  lockFresh w flags rec id input originalInput inputRef oldLock node
    inputPath ovs st = (Ok (input', node', ovs'), st') ->
  ovs' = ovs
  /\ exists l o f c, node' = StdMap.insert_or_assign id (ELocked l o f c) node.
Proof.
  unfold lockFresh. intros H.
  apply bind_Ok in H. destruct H as (u1 & s1 & _ & H).
  destruct (isFlake input).
  - apply bind_Ok in H. destruct H as (inputFlake & s2 & _ & H).
    now apply lockFreshFlake_shape in H.
  - apply bind_Ok in H. destruct H as ([[t rr] lr] & s2 & _ & H).
    unfold ret in H. injection H as _ <- <- _.
    split; [reflexivity|]. eauto.
Qed.

Lemma lockKept_shape w flags rec id input ol node inputPath ovs st input'
    node' ovs' st' :
  lockKept w flags rec id input ol node inputPath ovs st
    = (Ok (input', node', ovs'), st') ->
  ovs' = ovs
  /\ exists l o f c, node' = StdMap.insert_or_assign id (ELocked l o f c) node.
Proof.
  unfold lockKept. intros H.
  apply bind_Ok in H. destruct H as (cfi & s1 & _ & H).
  apply bind_Ok in H. destruct H as ([[fi ci] io] & s2 & _ & H).
  unfold ret in H. injection H as _ <- <- _.
  split; [reflexivity|]. eauto.
Qed.

Lemma lockInput_shape w flags rec id originalInput node prefix oldNode ovs st
    input' node' ovs' st' :
  lockInput w flags rec id originalInput node prefix oldNode ovs st
    = (Ok (input', node', ovs'), st') ->
  ovs' = StdMap.erase id ovs
  /\ exists e,
       node' = StdMap.insert_or_assign id e node
       /\ sameKind e originalInput.
Proof.
  unfold lockInput.
  pose proof (applyOverride_shape w (prefix ++ [id]) id originalInput ovs)
    as [Hovs Hfol].
  destruct (applyOverride w (prefix ++ [id]) id originalInput ovs)
    as [[input ho] ovs1].
  cbn [fst snd] in Hovs, Hfol. subst ovs1.
  destruct (follows input) as [t|] eqn:F.
  - unfold ret. intros H. injection H as _ <- <- _.
    split; [reflexivity|]. eexists. split; [reflexivity|].
    simpl. rewrite <- Hfol. discriminate.
  - destruct (ref input) as [inputRef|]; [|discriminate].
    intros H.
    apply bind_Ok in H. destruct H as (s0 & s1 & _ & H).
    apply bind_Ok in H. destruct H as (u & s2 & _ & H).
    assert (Hshape :
      ovs' = StdMap.erase id ovs
      /\ exists l o f c,
           node' = StdMap.insert_or_assign id (ELocked l o f c) node).
    { destruct (findOldLock flags oldNode (prefix ++ [id]) id) as [ol|].
      - destruct (keepOldLock (Some ol) inputRef ho).
        + now apply lockKept_shape in H.
        + now apply lockFresh_shape in H.
      - now apply lockFresh_shape in H. }
    destruct Hshape as [-> (l & o & f & c & ->)].
    split; [reflexivity|]. eexists. split; [reflexivity|].
    simpl. now rewrite <- Hfol.
Qed.

Lemma count_insert_or_assign k id (e : Edge) node :
  StdMap.count k (StdMap.insert_or_assign id e node)
  = StdMap.count k node || String.eqb k id.
Proof.
  unfold StdMap.count at 1 2.
  destruct (String.eqb k id) eqn:E.
  - apply String.eqb_eq in E. subst k.
    rewrite get_insert_or_assign_same. now rewrite orb_true_r.
  - apply String.eqb_neq in E.
    rewrite get_insert_or_assign_other by exact E. now rewrite orb_false_r.
Qed.

Lemma lockInputs_shape w flags rec prefix oldNode entries :
  forall node ovs st entries' node' ovs' st',
    lockInputs w flags rec entries node prefix oldNode ovs st
      = (Ok (entries', node', ovs'), st') ->
    map fst entries' = map fst entries
    /\ ovs' = eraseAll (map fst entries) ovs
    /\ (forall k,
          StdMap.count k node'
          = StdMap.count k node || existsb (String.eqb k) (map fst entries))
    /\ (forall k e,
          StdMap.get k node' = Some e ->
          StdMap.get k node = Some e
          \/ exists i, In (k, i) entries /\ sameKind e i).
Proof.
  induction entries as [|[id oi] rest IH];
    intros node ovs st entries' node' ovs' st' H.
  - simpl in H. unfold ret in H. injection H as <- <- <- _.
    repeat split; auto. intros k. now rewrite orb_false_r.
  - cbn [lockInputs] in H.
    apply bind_Ok in H. destruct H as ([[i1 node1] ovs1] & s1 & H1 & H).
    apply bind_Ok in H. destruct H as ([[rest1 node2] ovs2] & s2 & H2 & H).
    unfold ret in H. injection H as <- <- <- _.
    apply lockInput_shape in H1. destruct H1 as [-> (e1 & -> & Hkind)].
    apply IH in H2. destruct H2 as (Hkeys & -> & Hcount & Hget).
    split; [simpl; now rewrite Hkeys|].
    split; [reflexivity|].
    split.
    + intros k. rewrite Hcount, count_insert_or_assign. simpl.
      now rewrite orb_assoc.
    + intros k e Hk. destruct (Hget k e Hk) as [Hin|(i & Hin & Hs)].
      * destruct (String.eqb k id) eqn:E.
        -- apply String.eqb_eq in E. subst k.
           rewrite get_insert_or_assign_same in Hin. injection Hin as <-.
           right. exists oi. split; [now left|exact Hkind].
        -- apply String.eqb_neq in E.
           rewrite get_insert_or_assign_other in Hin by exact E. now left.
      * right. exists i. split; [now right|exact Hs].
Qed.

Lemma computeLocks_shape w flags fuel entries node prefix oldNode ovs st
    entries' node' ovs' st' :
  computeLocks w flags fuel entries node prefix oldNode ovs st
    = (Ok (entries', node', ovs'), st') ->
  exists s1,
    lockInputs w flags (computeLocks w flags (pred fuel)) entries node prefix
      oldNode ovs st = (Ok (entries', node', ovs'), s1).
Proof.
  destruct fuel as [|fuel]; [discriminate|].
  cbn [computeLocks pred]. unfold computeLocksBody. intros H.
  apply bind_Ok in H. destruct H as ([[fi n1] o1] & s1 & H1 & H).
  apply bind_Ok in H. destruct H as (u & s2 & _ & H).
  unfold ret in H. injection H as <- <- <- _.
  eauto.
Qed.

(** When [computeLocks] returns, the node it has filled in has an entry for
    every input of the flake and for nothing else, a [follows] path for an
    input that has [follows] and a locked node for any other; the inputs
    themselves are still the same ids in the same order. *)
Theorem computeLocks_locks_each_input w flags fuel entries prefix oldNode ovs
    st entries' node' ovs' st' :
  computeLocks w flags fuel entries [] prefix oldNode ovs st
    = (Ok (entries', node', ovs'), st') ->
  map fst entries' = map fst entries
  /\ (forall k,
        StdMap.count k node' = existsb (String.eqb k) (map fst entries))
  /\ (forall k e,
        StdMap.get k node' = Some e ->
        exists i, In (k, i) entries /\ sameKind e i).
Proof.
  intros H. apply computeLocks_shape in H. destruct H as (s1 & H).
  apply lockInputs_shape in H. destruct H as (Hkeys & _ & Hcount & Hget).
  split; [exact Hkeys|]. split; [exact Hcount|].
  intros k e Hk. destruct (Hget k e Hk) as [Hin|Hin]; [discriminate|exact Hin].
Qed.

Lemma computeLocks_locks_each_input_witness :
  StdMap.count "dep"
    (snd (fst match fst (computeLocks Examples.world1 Examples.flags0 2
                           [("dep", Examples.depInput)] [] [] None []
                           Examples.state0) with
              | Ok r => r
              | _ => ([], [], [])
              end))
  = existsb (String.eqb "dep") (map fst [("dep", Examples.depInput)]).
Proof.
  refine (proj1 (proj2 (@computeLocks_locks_each_input Examples.world1
                          Examples.flags0 2 [("dep", Examples.depInput)]
                          [] None [] Examples.state0 _ _ _ _ _)) "dep").
  vm_compute. reflexivity.
Defined.

(** When [computeLocks] returns, the overrides it hands back are those it
    was given without the entries for the inputs of the flake: an override
    is left over exactly when its first id names no input. *)
Theorem computeLocks_overrides_left w flags fuel entries node prefix oldNode
    ovs st entries' node' ovs' st' :
  computeLocks w flags fuel entries node prefix oldNode ovs st
    = (Ok (entries', node', ovs'), st') ->
  ovs' = eraseAll (map fst entries) ovs.
Proof.
  intros H. apply computeLocks_shape in H. destruct H as (s1 & H).
  now apply lockInputs_shape in H.
Qed.

Lemma computeLocks_overrides_left_witness :
  snd match fst (computeLocks Examples.world1 Examples.flags0 2
                   [("dep", Examples.depInput)] [] [] None
                   (overridesOf
                      (mkLockFlags false true true true true false
                         [(["dep"], Examples.gitRef "fork");
                          (["nope"], Examples.gitRef "leaf")] []))
                   Examples.state0) with
      | Ok r => r
      | _ => ([], [], [])
      end
  = eraseAll (map fst [("dep", Examples.depInput)])
      (overridesOf
         (mkLockFlags false true true true true false
            [(["dep"], Examples.gitRef "fork");
             (["nope"], Examples.gitRef "leaf")] [])).
Proof.
  refine (@computeLocks_overrides_left Examples.world1 Examples.flags0 2
            [("dep", Examples.depInput)] [] [] None _ Examples.state0
            _ _ _ _ _).
  vm_compute. reflexivity.
Defined.

End ShapeFacts.

(* ===================================================================== *)
(** ** More facts: the keys of the state tables ([db.cc]) *)

Module DbFacts.
Import Db.

Lemma length_append (a b : string) :
  String.length (a ++ b) = String.length a + String.length b.
Proof. induction a as [|c a IH]; simpl; [reflexivity|now rewrite IH]. Qed.

Lemma string_append_assoc (a b c : string) :
  ((a ++ b) ++ c = a ++ (b ++ c))%string.
Proof. induction a as [|x a IH]; simpl; [reflexivity|now rewrite IH]. Qed.

Lemma substring_0_append (a b : string) :
  String.substring 0 (String.length a) (a ++ b) = a.
Proof.
  induction a as [|c a IH]; simpl.
  - now destruct b.
  - now rewrite IH.
Qed.

Lemma substring_skip (a b : string) n :
  String.substring (String.length a) n (a ++ b) = String.substring 0 n b.
Proof. induction a as [|c a IH]; simpl; [reflexivity|exact IH]. Qed.

Lemma length_substring_0 n : forall s,
  n <= String.length s -> String.length (String.substring 0 n s) = n.
Proof.
  induction n as [|n IH]; intros s H.
  - now destruct s.
  - destruct s as [|c s]; simpl in *; [lia|]. rewrite IH; lia.
Qed.

Lemma find_last_not_of_from_end set a c :
  occurs c set = false ->
  forall i found,
    find_last_not_of_from set (a ++ String c EmptyString) i found
    = Some (i + String.length a).
Proof.
  intros Hc. induction a as [|x a IH]; intros i found; simpl.
  - rewrite Hc. f_equal. lia.
  - rewrite IH. f_equal. lia.
Qed.

Section Keys.
Variable int2String : Z -> string.
Variable string2Int : string -> option Z.

(** What [splitStatePathRevision] makes of a key of [makeStatePathRevision]
    whose revision prints as [body] followed by the character [c], where
    the key is shorter than 2^31 characters, so that the index of its last
    character fits [int pos]. *)
Lemma split_make statePath revision body c :
  int2String revision = (body ++ String c EmptyString)%string ->
  occurs c prefix = false ->
  (Z.of_nat
     (String.length (makeStatePathRevision int2String statePath revision))
   < 2 ^ 31)%Z ->
  splitStatePathRevision string2Int
    (makeStatePathRevision int2String statePath revision)
  = match string2Int (String c EmptyString) with
    | Some d =>
        Ret (String.substring 0
               (String.length statePath + String.length body)
               (makeStatePathRevision int2String statePath revision), d)
    | None =>
        Err (MalformedRevision
               (makeStatePathRevision int2String statePath revision))
    end.
Proof.
  intros Hprint Hc Hsize.
  set (s := makeStatePathRevision int2String statePath revision) in *.
  set (a := (statePath ++ prefix ++ body)%string).
  assert (Hs : s = (a ++ String c EmptyString)%string).
  { unfold s, a, makeStatePathRevision. rewrite Hprint.
    now rewrite !string_append_assoc. }
  assert (Hla : String.length a
                = String.length statePath + 5 + String.length body).
  { unfold a. rewrite !length_append. simpl. lia. }
  assert (Hls : String.length s = String.length a + 1).
  { rewrite Hs, length_append. simpl. lia. }
  assert (Hfind : find_last_not_of s prefix = Some (String.length a)).
  { unfold find_last_not_of. rewrite Hs.
    now rewrite (@find_last_not_of_from_end prefix a c Hc). }
  unfold splitStatePathRevision. rewrite Hfind.
  assert (H0 : int (Z.of_nat (String.length a))
               = Z.of_nat (String.length a)).
  { unfold int. rewrite Z.mod_small; lia. }
  rewrite H0.
  assert (H1 : size_t (Z.of_nat (String.length a)
                       - Z.of_nat (String.length prefix))
               = Z.of_nat (String.length statePath + String.length body)).
  { unfold size_t. simpl String.length. rewrite Z.mod_small; lia. }
  assert (H2 : size_t (Z.of_nat (String.length a))
               = Z.of_nat (String.length a)).
  { unfold size_t. rewrite Z.mod_small; lia. }
  rewrite H1, H2. unfold substr.
  replace (Z.of_nat (String.length s) <? 0)%Z with false
    by (symmetry; apply Z.ltb_ge; lia).
  replace (Z.of_nat (String.length s) <? Z.of_nat (String.length a))%Z
    with false by (symmetry; apply Z.ltb_ge; lia).
  cbn [rbind].
  replace (Z.to_nat
             (Z.min
                (Z.of_nat (String.length statePath + String.length body))
                (Z.of_nat (String.length s) - 0)))
    with (String.length statePath + String.length body) by lia.
  replace (Z.to_nat
             (Z.min (Z.of_nat (String.length s))
                (Z.of_nat (String.length s)
                 - Z.of_nat (String.length a))))
    with 1 by lia.
  rewrite Nat2Z.id.
  assert (Hlast : String.substring (String.length a) 1 s
                  = String c EmptyString).
  { rewrite Hs, substring_skip. reflexivity. }
  rewrite Hlast. reflexivity.
Qed.

(** [splitStatePathRevision] undoes [makeStatePathRevision] for an [int]
    revision that prints as a single character (other than those of
    ["-REV-"]) and reads back as itself, where the key is shorter than 2^31
    characters (the index [find_last_not_of] returns is kept in
    [int pos]). *)
Theorem split_make_round_trip statePath revision c :
  isInt revision ->
  int2String revision = String c EmptyString ->
  occurs c prefix = false ->
  string2Int (String c EmptyString) = Some revision ->
  (Z.of_nat
     (String.length (makeStatePathRevision int2String statePath revision))
   < 2 ^ 31)%Z ->
  splitStatePathRevision string2Int
    (makeStatePathRevision int2String statePath revision)
  = Ret (statePath, revision).
Proof.
  intros _ Hprint Hc Hread Hsize.
  rewrite (@split_make statePath revision EmptyString c Hprint Hc Hsize).
  rewrite Hread. simpl String.length. rewrite Nat.add_0_r.
  unfold makeStatePathRevision. now rewrite substring_0_append.
Qed.

(** For an [int] revision that prints with more than one character and a
    key shorter than 2^31 characters, [splitStatePathRevision] does not give
    back what went into [makeStatePathRevision]: the state path comes back
    longer by all but the last of those characters, and the revision is
    read from the last character alone. *)
Theorem split_make_long_revision statePath revision body c sp d :
  isInt revision ->
  int2String revision = (body ++ String c EmptyString)%string ->
  body <> EmptyString ->
  occurs c prefix = false ->
  (Z.of_nat
     (String.length (makeStatePathRevision int2String statePath revision))
   < 2 ^ 31)%Z ->
  splitStatePathRevision string2Int
    (makeStatePathRevision int2String statePath revision)
  = Ret (sp, d) ->
  String.length sp = String.length statePath + String.length body
  /\ string2Int (String c EmptyString) = Some d
  /\ sp <> statePath.
Proof.
  intros _ Hprint Hbody Hc Hsize H.
  rewrite (@split_make statePath revision body c Hprint Hc Hsize) in H.
  destruct (string2Int (String c EmptyString)) as [d'|]; [|discriminate].
  injection H as <- <-.
  assert (Hlen : String.length
                   (String.substring 0
                      (String.length statePath + String.length body)
                      (makeStatePathRevision int2String statePath revision))
                 = String.length statePath + String.length body).
  { apply length_substring_0. unfold makeStatePathRevision.
    rewrite Hprint, !length_append. lia. }
  split; [exact Hlen|]. split; [reflexivity|].
  intros E. rewrite E in Hlen.
  destruct body; [congruence|simpl in Hlen; lia].
Qed.

(** A table that holds the key [setStateReferences] writes for a state
    path and an [int] revision that prints with more than one character,
    the key being shorter than 2^31 characters: [queryStateReferences] for
    that state path finds no references, whichever [int] revision is asked
    for (the latest too), and Berkeley DB is not asked for any key. *)
Theorem long_revision_not_found statePath revision body c d wanted
    queryStrings :
  isInt revision ->
  isInt wanted ->
  int2String revision = (body ++ String c EmptyString)%string ->
  body <> EmptyString ->
  occurs c prefix = false ->
  string2Int (String c EmptyString) = Some d ->
  (Z.of_nat
     (String.length (makeStatePathRevision int2String statePath revision))
   < 2 ^ 31)%Z ->
  queryStateReferences int2String string2Int
    (Ret [makeStatePathRevision int2String statePath revision])
    queryStrings statePath wanted
  = Ret None.
Proof.
  intros _ _ Hprint Hbody Hc Hread Hsize.
  unfold queryStateReferences. cbn [rbind selectKey].
  rewrite (@split_make statePath revision body c Hprint Hc Hsize).
  rewrite Hread. cbn [rbind].
  assert (Hne : String.eqb
                  (String.substring 0
                     (String.length statePath + String.length body)
                     (makeStatePathRevision int2String statePath revision))
                  statePath = false).
  { apply String.eqb_neq. intros E.
    assert (Hlen : String.length
                     (String.substring 0
                        (String.length statePath + String.length body)
                        (makeStatePathRevision int2String statePath
                           revision))
                   = String.length statePath + String.length body).
    { apply length_substring_0. unfold makeStatePathRevision.
      rewrite Hprint, !length_append. lia. }
    rewrite E in Hlen. destruct body; [congruence|simpl in Hlen; lia]. }
  rewrite Hne. reflexivity.
Qed.

End Keys.

Lemma split_make_round_trip_witness :
  splitStatePathRevision DbExamples.string2Int
    (makeStatePathRevision DbExamples.int2String "/nix/state/x" 7)
  = Ret ("/nix/state/x", 7%Z).
Proof.
  apply (@split_make_round_trip DbExamples.int2String DbExamples.string2Int
           "/nix/state/x" 7%Z "7"%char);
    try reflexivity.
  unfold isInt. lia.
Defined.

Lemma split_make_long_revision_witness :
  String.length "/nix/state/x-" = String.length "/nix/state/x" + 1
  /\ DbExamples.string2Int "0" = Some 0%Z
  /\ "/nix/state/x-" <> "/nix/state/x".
Proof.
  apply (@split_make_long_revision DbExamples.int2String
           DbExamples.string2Int "/nix/state/x" 10%Z "1" "0"%char
           "/nix/state/x-" 0%Z); try reflexivity.
  - unfold isInt. lia.
  - discriminate.
Defined.

Lemma long_revision_not_found_witness :
  queryStateReferences DbExamples.int2String DbExamples.string2Int
    (Ret [makeStatePathRevision DbExamples.int2String "/nix/state/x" 10])
    (fun _ => Ret (Some ["/nix/store/dep"])) "/nix/state/x" 10
  = Ret None.
Proof.
  apply (@long_revision_not_found DbExamples.int2String
           DbExamples.string2Int "/nix/state/x" 10%Z "1" "0"%char 0%Z);
    try reflexivity.
  - unfold isInt. lia.
  - unfold isInt. lia.
  - discriminate.
Defined.

End DbFacts.

(* ===================================================================== *)
(** ** More facts: the inputs [--update-input] can name *)

Module UsedFacts.
Import Flake Behaviour Laws FlakeFacts.

Lemma InputPath_eqb_refl p : InputPath_eqb p p = true.
Proof. apply list_eqb_refl. apply String.eqb_refl. Qed.

Lemma pathCount_pathInsert_same p s : pathCount p (pathInsert p s) = true.
Proof.
  unfold pathCount. induction s as [|q s IH]; simpl.
  - now rewrite InputPath_eqb_refl.
  - destruct (InputPath_eqb p q) eqn:E; simpl.
    + now rewrite E.
    + destruct (InputPath_ltb p q); simpl.
      * now rewrite InputPath_eqb_refl.
      * now rewrite E, IH.
Qed.

Lemma pathCount_pathInsert_other p q s :
  pathCount q s = true -> pathCount q (pathInsert p s) = true.
Proof.
  unfold pathCount. induction s as [|x s IH]; simpl; [discriminate|].
  intros H. destruct (InputPath_eqb p x); simpl; [exact H|].
  destruct (InputPath_ltb p x); simpl.
  - rewrite H. apply orb_true_r.
  - apply orb_true_iff in H. destruct H as [H|H].
    + now rewrite H.
    + rewrite (IH H). apply orb_true_r.
Qed.

Lemma keepsUsed_same {A} (m : M A) :
  (forall st, updatesUsed (snd (m st)) = updatesUsed st) -> keepsUsed m.
Proof. intros H st p Hp. now rewrite H. Qed.

Lemma keepsUsed_bind {A B} (m : M A) (k : A -> M B) :
  keepsUsed m -> (forall a, keepsUsed (k a)) -> keepsUsed (bind m k).
Proof.
  intros Hm Hk st p Hp. unfold bind. specialize (Hm st p Hp).
  destruct (m st) as [[a|e| |] st1]; simpl in *; auto.
  now apply Hk.
Qed.

Lemma keepsUsed_finally {A} (body : M A) (cleanup : M unit) :
  keepsUsed body -> keepsUsed cleanup -> keepsUsed (finally body cleanup).
Proof.
  intros Hb Hc st p Hp. unfold finally. specialize (Hb st p Hp).
  destruct (body st) as [[a|e| |] st1]; simpl in *; auto.
  specialize (Hc st1 p Hb).
  destruct (cleanup st1) as [[u|e| |] st2]; simpl in *; auto.
Qed.

Lemma keepsUsed_allowPath p : keepsUsed (allowPath p).
Proof.
  apply keepsUsed_same. intros st. unfold allowPath. simpl.
  now destruct (allowedPaths st).
Qed.

(** Line 399: the input path is put into [updatesUsed]; it is there when
    the rest of the turn is done, by return or by exception. *)
Lemma inserted_stays {A} p (rest : M A) st :
  keepsUsed rest ->
  (forall q,
     pathCount q (updatesUsed st) = true ->
     pathCount q
       (updatesUsed
          (snd ((let* st0 := getState in
                 setUpdatesUsed (pathInsert p (updatesUsed st0)) ;; rest) st)))
     = true)
  /\ pathCount p
       (updatesUsed
          (snd ((let* st0 := getState in
                 setUpdatesUsed (pathInsert p (updatesUsed st0)) ;; rest) st)))
     = true.
Proof.
  intros Hrest.
  assert (E : (let* st0 := getState in
               setUpdatesUsed (pathInsert p (updatesUsed st0)) ;; rest) st
              = rest (withUpdatesUsed (pathInsert p (updatesUsed st)) st))
    by reflexivity.
  rewrite E. split.
  - intros q Hq. apply Hrest. simpl. now apply pathCount_pathInsert_other.
  - apply Hrest. simpl. apply pathCount_pathInsert_same.
Qed.

Lemma keepsUsed_assert c : keepsUsed (assert c).
Proof. destruct c; now apply keepsUsed_same. Qed.

Lemma keepsUsed_throwIf c e : keepsUsed (throwIf c e).
Proof. destruct c; now apply keepsUsed_same. Qed.

Ltac keeps_step :=
  match goal with
  | |- keepsUsed (bind _ _) => apply keepsUsed_bind; [|intros]
  | |- keepsUsed (allowPath _) => apply keepsUsed_allowPath
  | |- keepsUsed (assert _) => apply keepsUsed_assert
  | |- keepsUsed (throwIf _ _) => apply keepsUsed_throwIf
  | |- keepsUsed (match ?x with _ => _ end) => destruct x
  | |- keepsUsed (if ?c then _ else _) => destruct c
  | |- keepsUsed _ => apply keepsUsed_same; reflexivity
  end.

Lemma keepsUsed_fetchOrSubstituteTree w originalRef allowLookup :
  keepsUsed (fetchOrSubstituteTree w originalRef allowLookup).
Proof. unfold fetchOrSubstituteTree. repeat keeps_step. Qed.

Lemma keepsUsed_readFlake w originalRef fetched :
  keepsUsed (readFlake w originalRef fetched).
Proof. unfold readFlake. repeat keeps_step. Qed.

Lemma keepsUsed_getFlake w originalRef allowLookup :
  keepsUsed (getFlake w originalRef allowLookup).
Proof.
  unfold getFlake. apply keepsUsed_bind.
  - apply keepsUsed_fetchOrSubstituteTree.
  - intros. apply keepsUsed_readFlake.
Qed.

Section UsedLocks.
Variable w : World.
Variable flags : LockFlags.
Variable rec : ComputeLocks.
Hypothesis keeps_rec :
  forall flakeInputs node prefix oldNode ovs,
    keepsUsed (rec flakeInputs node prefix oldNode ovs).

Lemma keepsUsed_lockKept id input ol node inputPath ovs :
  keepsUsed (lockKept w flags rec id input ol node inputPath ovs).
Proof.
  unfold lockKept. apply keepsUsed_bind.
  - destruct (hasChildUpdate flags inputPath).
    + apply keepsUsed_bind; [apply keepsUsed_getFlake|intros].
      now apply keepsUsed_same.
    + now apply keepsUsed_same.
  - intros. apply keepsUsed_bind; [apply keeps_rec|].
    intros [[x1 x2] x3]. now apply keepsUsed_same.
Qed.

Lemma keepsUsed_lockFreshFlake id input originalInput inputRef inputFlake
    oldLock node inputPath ovs :
  keepsUsed (lockFreshFlake w rec id input originalInput inputRef inputFlake
               oldLock node inputPath ovs).
Proof.
  unfold lockFreshFlake.
  apply keepsUsed_bind; [now apply keepsUsed_same|intros st1].
  apply keepsUsed_bind; [apply keepsUsed_throwIf|intros _].
  apply keepsUsed_bind; [now apply keepsUsed_same|intros _].
  apply keepsUsed_finally.
  - apply keepsUsed_bind.
    + destruct oldLock; [now apply keepsUsed_same|].
      apply keepsUsed_bind; [now apply keepsUsed_same|intros].
      now apply keepsUsed_same.
    + intros. apply keepsUsed_bind; [apply keeps_rec|].
      intros [[x1 x2] x3]. now apply keepsUsed_same.
  - apply keepsUsed_bind; [now apply keepsUsed_same|intros].
    now apply keepsUsed_same.
Qed.

Lemma keepsUsed_lockFresh id input originalInput inputRef oldLock node
    inputPath ovs :
  keepsUsed (lockFresh w flags rec id input originalInput inputRef oldLock
               node inputPath ovs).
Proof.
  unfold lockFresh. apply keepsUsed_bind; [apply keepsUsed_throwIf|intros _].
  destruct (isFlake input).
  - apply keepsUsed_bind; [apply keepsUsed_getFlake|].
    intros. apply keepsUsed_lockFreshFlake.
  - apply keepsUsed_bind; [apply keepsUsed_fetchOrSubstituteTree|].
    intros [[x1 x2] x3]. now apply keepsUsed_same.
Qed.

(** One turn of the loop drops nothing from [updatesUsed], and when the
    input does not follow another one its path is in [updatesUsed]
    afterwards. *)
Lemma lockInput_used id originalInput node prefix oldNode ovs st :
  (forall q,
     pathCount q (updatesUsed st) = true ->
     pathCount q
       (updatesUsed
          (snd (lockInput w flags rec id originalInput node prefix oldNode
                  ovs st))) = true)
  /\ (follows originalInput = None ->
      forall r st',
        lockInput w flags rec id originalInput node prefix oldNode ovs st
          = (Ok r, st') ->
        pathCount (prefix ++ [id]) (updatesUsed st') = true).
Proof.
  unfold lockInput.
  pose proof (ShapeFacts.applyOverride_shape w (prefix ++ [id]) id
                originalInput ovs) as [_ Hfol].
  destruct (applyOverride w (prefix ++ [id]) id originalInput ovs)
    as [[input ho] ovs1].
  cbn [fst snd] in Hfol.
  destruct (follows input) as [t|] eqn:F.
  - split; [intros q Hq; exact Hq|].
    intros Hnone. congruence.
  - destruct (ref input) as [inputRef|].
    2:{ split; [intros q Hq; exact Hq|]. intros _ r st' H. discriminate. }
    set (rest :=
      match findOldLock flags oldNode (prefix ++ [id]) id with
      | Some ol =>
          if keepOldLock (findOldLock flags oldNode (prefix ++ [id]) id)
               inputRef ho
          then lockKept w flags rec id input ol node (prefix ++ [id]) ovs1
          else lockFresh w flags rec id input input inputRef
                 (findOldLock flags oldNode (prefix ++ [id]) id) node
                 (prefix ++ [id]) ovs1
      | None =>
          lockFresh w flags rec id input input inputRef
            (findOldLock flags oldNode (prefix ++ [id]) id) node
            (prefix ++ [id]) ovs1
      end).
    assert (Hrest : keepsUsed rest).
    { unfold rest.
      destruct (findOldLock flags oldNode (prefix ++ [id]) id) as [ol|].
      - destruct (keepOldLock _ _ _).
        + apply keepsUsed_lockKept.
        + apply keepsUsed_lockFresh.
      - apply keepsUsed_lockFresh. }
    destruct (@inserted_stays _ (prefix ++ [id]) rest st Hrest) as [H1 H2].
    split; [exact H1|].
    intros _ r st' H. fold rest in H. rewrite H in H2. exact H2.
Qed.

Lemma keepsUsed_lockInput id originalInput node prefix oldNode ovs :
  keepsUsed (lockInput w flags rec id originalInput node prefix oldNode ovs).
Proof. intros st p Hp. now apply lockInput_used. Qed.

Lemma keepsUsed_lockInputs entries : forall node prefix oldNode ovs,
  keepsUsed (lockInputs w flags rec entries node prefix oldNode ovs).
Proof.
  induction entries as [|[id oi] rest IH]; intros; simpl.
  - now apply keepsUsed_same.
  - apply keepsUsed_bind; [apply keepsUsed_lockInput|].
    intros [[i1 n1] o1]. apply keepsUsed_bind; [apply IH|].
    intros [[r1 n2] o2]. now apply keepsUsed_same.
Qed.

Lemma lockInputs_used prefix oldNode entries : forall node ovs st r st',
  lockInputs w flags rec entries node prefix oldNode ovs st = (Ok r, st') ->
  forall id i,
    In (id, i) entries -> follows i = None ->
    pathCount (prefix ++ [id]) (updatesUsed st') = true.
Proof.
  induction entries as [|[id0 oi] rest IH]; intros node ovs st r st' H id i Hin
    Hfol; [contradiction|].
  cbn [lockInputs] in H.
  apply bind_Ok in H. destruct H as ([[i1 node1] ovs1] & s1 & H1 & H).
  apply bind_Ok in H. destruct H as ([[rest1 node2] ovs2] & s2 & H2 & H).
  unfold ret in H. injection H as _ <-.
  destruct Hin as [Heq|Hin].
  - injection Heq as -> ->.
    pose proof (proj2 (lockInput_used id i node prefix oldNode ovs st) Hfol
                  _ _ H1) as Hhere.
    pose proof (keepsUsed_lockInputs rest node1 prefix oldNode ovs1 s1
                  (prefix ++ [id]) Hhere) as Hlater.
    now rewrite H2 in Hlater.
  - eapply IH; eauto.
Qed.

Lemma keepsUsed_computeLocksBody flakeInputs node prefix oldNode ovs :
  keepsUsed (computeLocksBody w flags rec flakeInputs node prefix oldNode ovs).
Proof.
  unfold computeLocksBody.
  apply keepsUsed_bind; [apply keepsUsed_lockInputs|].
  intros [[f1 n1] o1].
  apply keepsUsed_bind; [|intros; now apply keepsUsed_same].
  destruct (negb _); now apply keepsUsed_same.
Qed.

End UsedLocks.

Lemma keepsUsed_computeLocks w flags fuel :
  forall flakeInputs node prefix oldNode ovs,
    keepsUsed (computeLocks w flags fuel flakeInputs node prefix oldNode ovs).
Proof.
  induction fuel as [|fuel IH]; intros; simpl.
  - now apply keepsUsed_same.
  - now apply keepsUsed_computeLocksBody.
Qed.

(** When [computeLocks] returns, every input of the flake that does not
    follow another input is in [updatesUsed] under its input path, so that
    [--update-input] for it is not reported as matching no input; and no
    path that was in [updatesUsed] before has been dropped, however deep
    the call went. *)
Theorem computeLocks_marks_inputs_used w flags fuel entries node prefix
    oldNode ovs st r st' :
  computeLocks w flags fuel entries node prefix oldNode ovs st = (Ok r, st') ->
  (forall p,
     pathCount p (updatesUsed st) = true ->
     pathCount p (updatesUsed st') = true)
  /\ (forall id i,
        In (id, i) entries -> follows i = None ->
        pathCount (prefix ++ [id]) (updatesUsed st') = true).
Proof.
  intros H. split.
  - intros p Hp.
    pose proof (keepsUsed_computeLocks w flags fuel entries node prefix
                  oldNode ovs st p Hp) as Hk.
    now rewrite H in Hk.
  - destruct fuel as [|fuel]; [discriminate|].
    cbn [computeLocks] in H. unfold computeLocksBody in H.
    apply bind_Ok in H. destruct H as ([[f1 n1] o1] & s1 & H1 & H).
    apply bind_Ok in H. destruct H as (u & s2 & Hwarn & H).
    unfold ret in H. injection H as _ <-.
    assert (Hsame : updatesUsed s2 = updatesUsed s1).
    { destruct (negb _) in Hwarn; injection Hwarn as _ <-; reflexivity. }
    intros id i Hin Hfol. rewrite Hsame.
    exact (@lockInputs_used w flags (computeLocks w flags fuel)
             (keepsUsed_computeLocks w flags fuel)
             prefix oldNode entries node ovs st _ _ H1 id i Hin Hfol).
Qed.

Lemma computeLocks_marks_inputs_used_witness :
  pathCount ([] ++ ["dep"])
    (updatesUsed
       (snd (computeLocks Examples.world1 Examples.flags0 2
               [("dep", Examples.depInput)] [] [] None [] Examples.state0)))
  = true.
Proof.
  refine (proj2 (@computeLocks_marks_inputs_used Examples.world1
                   Examples.flags0 2 [("dep", Examples.depInput)] [] []
                   None [] Examples.state0 _ _ _)
            "dep" Examples.depInput (or_introl eq_refl) eq_refl).
  vm_compute. reflexivity.
Defined.

End UsedFacts.
